(** * sync-sdk-schema: union inference over the exported JSON schema and
      post-processing of the generated data model source.

    The development embeds [sdk-schema/sync-sdk-schema.py]:

    - [Py]      : the Python values the script manipulates (strings, insertion
                  ordered dictionaries, exceptions);
    - [Json]    : JSON documents as [json.loads] returns them, with paths;
    - [Infer]   : [_resolve_json_ref], [_check_discriminator], [_make_spec_name],
                  [_merge_defs] and the [_SchemaProcessor] class;
    - [PyAst]   : the part of Python's abstract syntax the generated module uses,
                  with [ast.walk];
    - [PostProc]: the tree rewriting, the token rewriting and the [__all__]
                  insertion of [_generate_data_model_from_json_schema].

    Theorems come after the definitions. *)

From Stdlib Require Import String Ascii List ZArith Bool Lia Arith.
From Stdlib Require Import Permutation Sorted.

#[global] Set Warnings "-register-all".

Import ListNotations.
Open Scope string_scope.
Open Scope list_scope.

(* ===================================================================== *)
(** ** Python values: exceptions, strings, dictionaries                   *)
(* ===================================================================== *)

Module Py.

(** The exceptions the script can raise.  [OutOfFuel] is not a Python
    exception: it marks a recursion cut off by the fuel of the model. *)
Inductive exn :=
| KeyError (key : string)
| IndexError
| TypeError
| AttributeError
| AssertionError
| NameError
| RuntimeError (msg : string)
| Unmodelled (what : string)
| OutOfFuel.

Inductive result (A : Type) :=
| Ok (a : A)
| Raise (e : exn).
Arguments Ok {A} a.
Arguments Raise {A} e.

Definition bind {A B} (r : result A) (k : A -> result B) : result B :=
  match r with
  | Ok a => k a
  | Raise e => Raise e
  end.

Definition is_ok {A} (r : result A) : bool :=
  match r with Ok _ => true | Raise _ => false end.

(** *** Strings (ASCII) *)

Definition startswith (s pre : string) : bool := String.prefix pre s.

Definition endswith (s suf : string) : bool :=
  (String.length suf <=? String.length s)%nat
  && String.eqb (substring (String.length s - String.length suf)
                           (String.length suf) s) suf.

Definition removesuffix (s suf : string) : string :=
  if endswith s suf
  then substring 0 (String.length s - String.length suf) s
  else s.

Definition removeprefix (s pre : string) : string :=
  if startswith s pre
  then substring (String.length pre) (String.length s - String.length pre) s
  else s.

(** [s.split(sep)] for a one-character separator. *)
Fixpoint split (sep : ascii) (s : string) : list string :=
  match s with
  | EmptyString => [EmptyString]
  | String c rest =>
      if Ascii.eqb c sep then EmptyString :: split sep rest
      else match split sep rest with
           | [] => [String c EmptyString]
           | p :: ps => String c p :: ps
           end
  end.

(** [s.replace(a, b)] for one-character [a] and [b]. *)
Fixpoint replace_char (a b : ascii) (s : string) : string :=
  match s with
  | EmptyString => EmptyString
  | String c rest =>
      String (if Ascii.eqb c a then b else c) (replace_char a b rest)
  end.

(** [c.upper()] and [c.lower()] on the letters of ASCII, of which the
    names in the schema are made; a string is the sequence of its bytes. *)
Definition upper_char (c : ascii) : ascii :=
  let n := nat_of_ascii c in
  if ((97 <=? n) && (n <=? 122))%nat then ascii_of_nat (n - 32) else c.

Definition lower_char (c : ascii) : ascii :=
  let n := nat_of_ascii c in
  if ((65 <=? n) && (n <=? 90))%nat then ascii_of_nat (n + 32) else c.

Fixpoint lower (s : string) : string :=
  match s with
  | EmptyString => EmptyString
  | String c rest => String (lower_char c) (lower rest)
  end.

(** [s.capitalize()] *)
Definition capitalize (s : string) : string :=
  match s with
  | EmptyString => EmptyString
  | String c rest => String (upper_char c) (lower rest)
  end.

(** [s.replace(old, new)] for a non-empty [old]: the occurrences of [old]
    are found from left to right and do not overlap.  The scan is driven by
    the length of the text that is left. *)
Fixpoint replace_fuel (n : nat) (old new s : string) : string :=
  match n with
  | O => s
  | S n' =>
      match s with
      | EmptyString => EmptyString
      | String c rest =>
          if String.prefix old s
          then new ++ replace_fuel (n' - (String.length old - 1)) old new
                        (substring (String.length old)
                                   (String.length s - String.length old) s)
          else String c (replace_fuel n' old new rest)
      end
  end.

Definition replace (old new s : string) : string :=
  replace_fuel (String.length s) old new s.


(** *** Dictionaries

    A Python [dict] keeps its keys in insertion order; assigning to a key
    that is present keeps the key's position. *)

Section Dict.
Context {V : Type}.

Definition dict := list (string * V).

Fixpoint get (k : string) (d : dict) : option V :=
  match d with
  | [] => None
  | (k', v) :: rest => if String.eqb k k' then Some v else get k rest
  end.

Definition mem (k : string) (d : dict) : bool :=
  match get k d with Some _ => true | None => false end.

(** [d[k] = v] *)
Fixpoint set (k : string) (v : V) (d : dict) : dict :=
  match d with
  | [] => [(k, v)]
  | (k', v') :: rest =>
      if String.eqb k k' then (k', v) :: rest else (k', v') :: set k v rest
  end.

(** [del d[k]] *)
Fixpoint del (k : string) (d : dict) : result dict :=
  match d with
  | [] => Raise (KeyError k)
  | (k', v') :: rest =>
      if String.eqb k k' then Ok rest
      else bind (del k rest) (fun r => Ok ((k', v') :: r))
  end.

(** [d[k]] *)
Definition item (k : string) (d : dict) : result V :=
  match get k d with
  | Some v => Ok v
  | None => Raise (KeyError k)
  end.

Definition keys (d : dict) : list string := map fst d.

(** [d.setdefault(k, v)] *)
Definition setdefault (k : string) (v : V) (d : dict) : dict :=
  if mem k d then d else set k v d.

(** [d.update(e)] *)
Definition update (d e : dict) : dict :=
  fold_left (fun acc kv => set (fst kv) (snd kv) acc) e d.

End Dict.
Arguments dict V : clear implicits.

End Py.

Export Py.

Declare Scope py_scope.
Delimit Scope py_scope with py.
Notation "x <- c1 ;; c2" := (Py.bind c1 (fun x => c2))
  (at level 61, c1 at next level, right associativity) : py_scope.
Notation "' pat <- c1 ;; c2" := (Py.bind c1 (fun x => match x with pat => c2 end))
  (at level 61, pat pattern, c1 at next level, right associativity) : py_scope.
Open Scope py_scope.

(* ===================================================================== *)
(** ** JSON documents                                                     *)
(* ===================================================================== *)

Module Json.

(** What [json.loads] returns: [None], [bool], [int], [str], [list] and
    [dict] with string keys (numbers are integers here; the script never
    computes with them).  A loaded document is a tree: no object is shared
    between two places. *)
Inductive json :=
| JNull
| JBool (b : bool)
| JInt (z : Z)
| JStr (s : string)
| JList (l : list json)
| JDict (d : list (string * json)).

Definition is_none (j : json) : bool :=
  match j with JNull => true | _ => false end.

(** Python's [==] on these values.  Dictionaries are compared without regard
    to the order of their keys; [True == 1] and [False == 0]. *)
Fixpoint py_eq (a b : json) {struct a} : bool :=
  match a, b with
  | JNull, JNull => true
  | JBool x, JBool y => Bool.eqb x y
  | JBool x, JInt y => Z.eqb (if x then 1 else 0) y
  | JInt x, JBool y => Z.eqb x (if y then 1 else 0)
  | JInt x, JInt y => Z.eqb x y
  | JStr x, JStr y => String.eqb x y
  | JList l, JList m =>
      (fix go (l m : list json) {struct l} : bool :=
         match l, m with
         | [], [] => true
         | x :: l', y :: m' => py_eq x y && go l' m'
         | _, _ => false
         end) l m
  | JDict d, JDict e =>
      Nat.eqb (List.length d) (List.length e)
      && (fix all (d : list (string * json)) {struct d} : bool :=
            match d with
            | [] => true
            | (k, v) :: d' =>
                match Py.get k e with
                | Some w => py_eq v w
                | None => false
                end && all d'
            end) d
  | _, _ => false
  end.

(** Truth value of a Python object, as [if x:] tests it. *)
Definition truthy (j : json) : bool :=
  match j with
  | JNull => false
  | JBool b => b
  | JInt z => negb (Z.eqb z 0)
  | JStr s => negb (String.eqb s EmptyString)
  | JList l => match l with [] => false | _ => true end
  | JDict d => match d with [] => false | _ => true end
  end.

(** [x in (a, b, ...)] *)
Definition py_in (x : json) (t : list json) : bool :=
  existsb (fun y => py_eq x y) t.

(** [obj.get(k, None)]: only dictionaries have the method. *)
Definition py_get (obj : json) (k : string) : result json :=
  match obj with
  | JDict d => Ok (match Py.get k d with Some v => v | None => JNull end)
  | _ => Raise AttributeError
  end.

(** [obj[k]] for a string [k]. *)
Definition subscript (obj : json) (k : string) : result json :=
  match obj with
  | JDict d => Py.item k d
  | _ => Raise TypeError
  end.

(** A path of dictionary keys from a root value.  The objects of a loaded
    document are identified by their path: the script never stores one
    object in two places, so reading and writing through a path is reading
    and writing the object itself. *)
Definition path := list string.

Fixpoint get_path (p : path) (j : json) : result json :=
  match p with
  | [] => Ok j
  | k :: p' => v <- subscript j k ;; get_path p' v
  end.

(** In-place mutation of the object at a path. *)
Fixpoint update_path (p : path) (f : json -> result json) (j : json)
  : result json :=
  match p with
  | [] => f j
  | k :: p' =>
      match j with
      | JDict d =>
          v <- Py.item k d ;;
          v' <- update_path p' f v ;;
          Ok (JDict (Py.set k v' d))
      | _ => Raise TypeError
      end
  end.

(** Mutation of a dictionary object; other objects lack the method used. *)
Definition on_dict (f : dict json -> result (dict json)) (j : json)
  : result json :=
  match j with
  | JDict d => d' <- f d ;; Ok (JDict d')
  | _ => Raise AttributeError
  end.

(** [l[i] = v] on a list *)
Fixpoint list_set {A} (i : nat) (v : A) (l : list A) : result (list A) :=
  match l, i with
  | [], _ => Raise IndexError
  | _ :: l', O => Ok (v :: l')
  | x :: l', S i' => r <- list_set i' v l' ;; Ok (x :: r)
  end.

Definition list_item {A} (i : nat) (l : list A) : result A :=
  match nth_error l i with
  | Some x => Ok x
  | None => Raise IndexError
  end.

Fixpoint depth (j : json) : nat :=
  match j with
  | JList l => S (fold_right (fun x acc => Nat.max (depth x) acc) 0 l)
  | JDict d => S (fold_right (fun kv acc => Nat.max (depth (snd kv)) acc) 0 d)
  | _ => 0
  end.

End Json.

Export Json.

(* ===================================================================== *)
(** ** The union inferencer                                               *)
(* ===================================================================== *)

Module Infer.

Definition _SchemaDef := dict json.

Definition _EXCLUDE_EXPORTED_SCHEMAS : list string :=
  ["llmContextReferenceJsonFile"; "llmContextReferenceYamlFile"].

(** [_resolve_json_ref]: the target and the path it was found at (the
    Python function returns the target object itself). *)
Definition _resolve_json_ref (json_schema : json) (ref : string)
  : result (path * json) :=
  match split "/" ref with
  | [] => Raise IndexError
  | p0 :: rest =>
      if negb (String.eqb p0 "#")
      then Raise (RuntimeError "Only internal refs are supported")
      else match rest with
           | [] => Raise IndexError
           | _ :: _ =>
               ref_target <- get_path rest json_schema ;;
               Ok (rest, ref_target)
           end
  end.

Definition _POTENTIAL_TAG_FIELDS : list string :=
  ["type"; "success"; "role"; "code"].

Fixpoint _check_discriminator (tag_field : string) (union_array : list json)
  : result bool :=
  match union_array with
  | [] => Ok true
  | entry :: rest =>
      properties <- py_get entry "properties" ;;
      if is_none properties then Ok false else
      field_def <- py_get properties tag_field ;;
      if is_none field_def then Ok false else
      ty <- subscript field_def "type" ;;
      if negb (py_eq ty (JStr "string")) then Ok false else
      tag_value <- py_get field_def "const" ;;
      if is_none tag_value then Ok false else
      _check_discriminator tag_field rest
  end.

(** [p[0].upper() + p[1:]] *)
Definition camel_case (p : string) : result string :=
  match p with
  | EmptyString => Raise IndexError
  | String c rest => Ok (String (upper_char c) rest)
  end.

Fixpoint camel_cased (parts : list string) : result (list string) :=
  match parts with
  | [] => Ok []
  | p :: ps => c <- camel_case p ;; cs <- camel_cased ps ;; Ok (c :: cs)
  end.

(** [_make_spec_name]; the suffix is whatever the schema holds: only a
    string has [replace]. *)
Definition _make_spec_name (parent_name : string) (suffix : json)
  : result string :=
  match suffix with
  | JStr s =>
      cs <- camel_cased (split "/" (replace_char "." "/" s)) ;;
      Ok (parent_name ++ String.concat EmptyString cs)%string
  | _ => Raise AttributeError
  end.

Definition duplicate_keys (existing_defs new_defs : _SchemaDef) : list string :=
  filter (fun k => Py.mem k new_defs) (Py.keys existing_defs).

(** [_merge_defs]: the merged dictionary stands for the mutated
    [existing_defs]. *)
Definition _merge_defs (existing_defs : _SchemaDef) (new_defs : option _SchemaDef)
  : result _SchemaDef :=
  match new_defs with
  | None => Ok existing_defs
  | Some [] => Ok existing_defs
  | Some nd =>
      match duplicate_keys existing_defs nd with
      | [] => Ok (Py.update existing_defs nd)
      | _ :: _ => Raise (RuntimeError "Duplicate extracted definitions")
      end
  end.

Definition void_spec : json := JDict [("not", JDict [])].
Definition null_spec : json := JDict [("type", JStr "null")].
Definition allows_omission : list json := [void_spec; null_spec].

(** [_is_void_union]; [JNull] is Python's [None]. *)
Definition _is_void_union (union_members : list json) : json :=
  match union_members with
  | [first; second] =>
      if py_in first allows_omission then
        if negb (py_in second allows_omission) then second else JNull
      else if py_in second allows_omission then first
      else JNull
  | _ => JNull
  end.

(** [spec["anyOf"]] where the code goes on to use it as a list. *)
Definition anyOf_list (spec : json) : result (list json) :=
  v <- subscript spec "anyOf" ;;
  match v with
  | JList l => Ok l
  | _ => Raise TypeError
  end.

Definition ref_to (spec_ref : string) : json := JDict [("$ref", JStr spec_ref)].

(** [_process_rpc_result_union] on the union stored at [spec_path] of the
    document: the synthesized definitions, if any, and the document after
    the mutation. *)
Definition _process_rpc_result_union (name : string) (spec_path : path)
    (schema : json) : result (option _SchemaDef * json) :=
  spec <- get_path spec_path schema ;;
  union_member_specs <- anyOf_list spec ;;
  let result_spec := _is_void_union union_member_specs in
  if is_none result_spec then Ok (None, schema) else
  let result_spec_name := (removesuffix name "/returns" ++ "ReturnValue")%string in
  let result_spec_ref := ("#/definitions/" ++ result_spec_name)%string in
  schema' <- update_path spec_path
               (on_dict (fun d =>
                  Ok (Py.set "anyOf"
                        (JList [ref_to result_spec_ref; null_spec]) d)))
               schema ;;
  Ok (Some [(result_spec_name, result_spec)], schema').

(** How a union member was resolved by the first loop of
    [_extract_union_variants]: through a reference (the object lives in the
    document, at the path of the reference) or not at all (the member is the
    anonymous object in the [anyOf] list). *)
Inductive resolved :=
| ByRef (spec_ref : string) (p : path)
| Inline.

Definition spec_ref_of (r : resolved) : option string :=
  match r with ByRef ref _ => Some ref | Inline => None end.

Fixpoint resolve_members (schema : json) (union_member_specs : list json)
  : result (list (resolved * json)) :=
  match union_member_specs with
  | [] => Ok []
  | member_spec :: rest =>
      existing_ref <- py_get member_spec "$ref" ;;
      r <- (if truthy existing_ref then
              match existing_ref with
              | JStr ref =>
                  '(p, resolved_spec) <- _resolve_json_ref schema ref ;;
                  Ok (ByRef ref p, resolved_spec)
              | _ => Raise AttributeError
              end
            else Ok (Inline, member_spec)) ;;
      rs <- resolve_members schema rest ;;
      Ok (r :: rs)
  end.

Fixpoint find_discriminator (tag_fields : list string)
    (resolved_specs : list json) : result (option string) :=
  match tag_fields with
  | [] => Ok None
  | tag_field :: rest =>
      b <- _check_discriminator tag_field resolved_specs ;;
      if b then Ok (Some tag_field)
      else find_discriminator rest resolved_specs
  end.

(** The key under which a tag value enters [discriminator_map]: lists and
    dictionaries are not hashable, every other value is a key. *)
Definition tag_key (tag_value : json) : result json :=
  match tag_value with
  | JList _ | JDict _ => Raise TypeError
  | _ => Ok tag_value
  end.

(** [discriminator_map[key] = spec_ref]: the keys of a dictionary are
    compared with [==], so a key equal to the new one ([1] and [True] are
    equal) keeps its place and gets the value. *)
Fixpoint map_set (key : json) (spec_ref : string) (m : list (json * string))
  : list (json * string) :=
  match m with
  | [] => [(key, spec_ref)]
  | (k, v) :: rest =>
      if py_eq k key then (k, spec_ref) :: rest
      else (k, v) :: map_set key spec_ref rest
  end.

(** [discriminator_map] as the dictionary of a JSON object, which it is
    when all its keys are strings. *)
Fixpoint string_keys (m : list (json * string)) : option (dict string) :=
  match m with
  | [] => Some []
  | (JStr s, v) :: rest => option_map (cons (s, v)) (string_keys rest)
  | _ => None
  end.

(** [tag_spec.setdefault("default", tag_value)] then
    [tag_spec.setdefault("title", tag_title)] *)
Definition set_tag_defaults (tag_value : json) (tag_title : string)
    (tag_spec : json) : result json :=
  on_dict (fun d =>
    Ok (Py.setdefault "title" (JStr tag_title)
          (Py.setdefault "default" tag_value d))) tag_spec.

Record variant_state := {
  vs_schema : json;
  vs_new_defs : _SchemaDef;
  vs_map : list (json * string)
}.

(** One round of the second loop of [_extract_union_variants].

    The Python loop holds the objects [resolved_spec] the first loop found.
    Here a referenced object is read again through the path of its
    reference, and an anonymous member through its index in the [anyOf]
    list.  That is the same object: between the two loops and the rounds
    the script only replaces elements of this [anyOf] list (which no
    reference reaches, a path of keys does not enter a list) and adds keys
    to tag-field subschemas; no key on a path is assigned a new object. *)
Definition variant_step (name discriminator tag_title : string)
    (spec_path : path) (idx : nat) (r : resolved) (st : variant_state)
  : result variant_state :=
  match r with
  | Inline =>
      spec <- get_path spec_path (vs_schema st) ;;
      union_member_specs <- anyOf_list spec ;;
      resolved_spec <- list_item idx union_member_specs ;;
      tag_spec <- get_path ["properties"; discriminator] resolved_spec ;;
      tag_value <- subscript tag_spec "const" ;;
      new_spec_name <- _make_spec_name name tag_value ;;
      let spec_ref := ("#/definitions/" ++ new_spec_name)%string in
      members' <- list_set idx (ref_to spec_ref) union_member_specs ;;
      schema' <- update_path spec_path
                   (on_dict (fun d => Ok (Py.set "anyOf" (JList members') d)))
                   (vs_schema st) ;;
      key <- tag_key tag_value ;;
      resolved_spec' <- update_path ["properties"; discriminator]
                          (set_tag_defaults tag_value tag_title)
                          resolved_spec ;;
      Ok {| vs_schema := schema';
            vs_new_defs := Py.set new_spec_name resolved_spec' (vs_new_defs st);
            vs_map := map_set key spec_ref (vs_map st) |}
  | ByRef spec_ref p =>
      resolved_spec <- get_path p (vs_schema st) ;;
      tag_spec <- get_path ["properties"; discriminator] resolved_spec ;;
      tag_value <- subscript tag_spec "const" ;;
      key <- tag_key tag_value ;;
      schema' <- update_path (p ++ ["properties"; discriminator])
                   (set_tag_defaults tag_value tag_title) (vs_schema st) ;;
      Ok {| vs_schema := schema';
            vs_new_defs := vs_new_defs st;
            vs_map := map_set key spec_ref (vs_map st) |}
  end.

Fixpoint variant_loop (name discriminator tag_title : string)
    (spec_path : path) (idx : nat) (rs : list resolved) (st : variant_state)
  : result variant_state :=
  match rs with
  | [] => Ok st
  | r :: rest =>
      st' <- variant_step name discriminator tag_title spec_path idx r st ;;
      variant_loop name discriminator tag_title spec_path (S idx) rest st'
  end.

Definition discriminator_spec (discriminator_map : dict string)
    (discriminator : string) : json :=
  JDict [("mapping", JDict (map (fun kv => (fst kv, JStr (snd kv)))
                               discriminator_map));
         ("propertyName", JStr discriminator)].

(** [_extract_union_variants] on the union stored at [spec_path].  The
    object stored under ["discriminator"] holds [discriminator_map]; with a
    key that is not a string it is no JSON object, and [json] has no value
    for it. *)
Definition _extract_union_variants (name : string) (spec_path : path)
    (schema : json) : result (option _SchemaDef * json) :=
  spec <- get_path spec_path schema ;;
  union_member_specs <- anyOf_list spec ;;
  members <- resolve_members schema union_member_specs ;;
  found <- find_discriminator _POTENTIAL_TAG_FIELDS (map snd members) ;;
  match found with
  | None =>
      if endswith name "/returns"
      then _process_rpc_result_union name spec_path schema
      else Ok (None, schema)
  | Some discriminator =>
      let tag_title := capitalize discriminator in
      st <- variant_loop name discriminator tag_title spec_path 0
              (map fst members)
              {| vs_schema := schema; vs_new_defs := []; vs_map := [] |} ;;
      discriminator_map <-
        match string_keys (vs_map st) with
        | Some m => Ok m
        | None =>
            Raise (Unmodelled
                     "discriminator mapping with a key that is not a string")
        end ;;
      schema' <- update_path spec_path
                   (on_dict (fun d =>
                      Ok (Py.set "discriminator"
                            (discriminator_spec discriminator_map discriminator)
                            d)))
                   (vs_schema st) ;;
      Ok (Some (vs_new_defs st), schema')
  end.

(** The cases of the [match spec] statements. *)
Inductive shape :=
| IsUnion
| IsArray
| IsObject (field_names : list string)
| IsOther.

Definition is_union (spec : json) : bool :=
  match spec with
  | JDict d => match Py.get "anyOf" d with Some (JList _) => true | _ => false end
  | _ => false
  end.

Definition classify (spec : json) : shape :=
  match spec with
  | JDict d =>
      if is_union spec then IsUnion else
      match Py.get "type" d, Py.get "items" d, Py.get "properties" d with
      | Some ty, items, properties =>
          match py_eq ty (JStr "array"), items with
          | true, Some (JDict _) => IsArray
          | _, _ =>
              match py_eq ty (JStr "object"), properties with
              | true, Some (JDict field_defs) => IsObject (Py.keys field_defs)
              | _, _ => IsOther
              end
          end
      | None, _, _ => IsOther
      end
  | _ => IsOther
  end.

(** The loop over [field_defs.items()] of [_process_subschema];
    [process_field] is the recursive call. *)
Fixpoint process_fields
    (process_field : string -> path -> json -> result (option _SchemaDef * json))
    (name : string) (spec_path : path) (field_names : list string)
    (extracted_defs : _SchemaDef) (schema : json)
  : result (option _SchemaDef * json) :=
  match field_names with
  | [] => Ok (Some extracted_defs, schema)
  | field_name :: rest =>
      field_spec_name <- _make_spec_name name (JStr field_name) ;;
      '(defs, schema1) <-
         process_field field_spec_name
           (spec_path ++ ["properties"; field_name]) schema ;;
      extracted_defs1 <- _merge_defs extracted_defs defs ;;
      process_fields process_field name spec_path rest extracted_defs1 schema1
  end.

(** [_process_subschema] on the schema stored at [spec_path]; the recursion
    follows the nesting of the document and is cut by [fuel]. *)
Fixpoint _process_subschema (fuel : nat) (name : string) (spec_path : path)
    (schema : json) {struct fuel} : result (option _SchemaDef * json) :=
  match fuel with
  | O => Raise OutOfFuel
  | S fuel' =>
      spec <- get_path spec_path schema ;;
      match classify spec with
      | IsOther => Ok (None, schema)
      | IsArray =>
          _process_subschema fuel' (name ++ "Item")%string
            (spec_path ++ ["items"]) schema
      | IsObject field_names =>
          process_fields (_process_subschema fuel') name spec_path
            field_names [] schema
      | IsUnion =>
          '(union_member_defs, schema1) <-
             _extract_union_variants name spec_path schema ;;
          match union_member_defs with
          | None => Ok (None, schema1)
          | Some member_defs =>
              let named_union_ref := ("#/definitions/" ++ name)%string in
              spec_copy <- get_path spec_path schema1 ;;
              schema2 <- update_path spec_path
                           (fun _ => Ok (ref_to named_union_ref)) schema1 ;;
              union_defs <- _merge_defs [(name, spec_copy)] (Some member_defs) ;;
              Ok (Some union_defs, schema2)
          end
      end
  end.

Definition _process_named_spec (fuel : nat) (name : string) (spec_path : path)
    (schema : json) : result (option _SchemaDef * json) :=
  spec <- get_path spec_path schema ;;
  if is_union spec
  then _extract_union_variants name spec_path schema
  else _process_subschema fuel name spec_path schema.

(** [del obj[k]] *)
Definition del_item (k : string) (obj : json) : result json :=
  match obj with
  | JDict d => d' <- Py.del k d ;; Ok (JDict d')
  | _ => Raise TypeError
  end.

Fixpoint delete_excluded (excluded : list string) (schema : json)
  : result json :=
  match excluded with
  | [] => Ok schema
  | excluded_def :: rest =>
      schema' <- update_path ["definitions"] (del_item excluded_def) schema ;;
      delete_excluded rest schema'
  end.

Fixpoint process_defs (fuel : nat) (names : list string) (new_defs : _SchemaDef)
    (schema : json) : result (_SchemaDef * json) :=
  match names with
  | [] => Ok (new_defs, schema)
  | name :: rest =>
      '(defs, schema1) <-
         _process_named_spec fuel name ["definitions"; name] schema ;;
      new_defs1 <- _merge_defs new_defs defs ;;
      process_defs fuel rest new_defs1 schema1
  end.

Definition def_names (schema : json) : result (list string) :=
  schema_defs <- subscript schema "definitions" ;;
  match schema_defs with
  | JDict d => Ok (Py.keys d)
  | _ => Raise AttributeError
  end.

(** [_SchemaProcessor._process_schema]: the document after the pass. *)
Definition _process_schema (fuel : nat) (schema : json) : result json :=
  _ <- subscript schema "definitions" ;;
  schema1 <- delete_excluded _EXCLUDE_EXPORTED_SCHEMAS schema ;;
  names <- def_names schema1 ;;
  '(new_defs, schema2) <- process_defs fuel names [] schema1 ;;
  update_path ["definitions"]
    (on_dict (fun schema_defs => _merge_defs schema_defs (Some new_defs)))
    schema2.

Record _SchemaProcessor := {
  _schema : json;
  _processed : bool
}.

(** [_SchemaProcessor.infer_unions]: the returned document and the
    processor afterwards. *)
Definition infer_unions (fuel : nat) (self : _SchemaProcessor)
  : result (json * _SchemaProcessor) :=
  if negb (_processed self) then
    schema' <- _process_schema fuel (_schema self) ;;
    Ok (schema', {| _schema := schema'; _processed := true |})
  else Ok (_schema self, self).

End Infer.

(* ===================================================================== *)
(** ** Python abstract syntax                                             *)
(* ===================================================================== *)

Module PyAst.

(** The node classes of the [ast] module that occur in the generated data
    model module: imports, class definitions with annotated fields and a
    docstring, and type alias assignments. *)

Inductive expr_context := Load | Store | Del.

Inductive operator := BitOr | BitAnd | Add | Sub.

Inductive constant :=
| CNone
| CStr (s : string)
| CBool (b : bool)
| CInt (z : Z)
| CEllipsis.

Inductive expr :=
| Name (id : string) (ctx : expr_context)
| Constant (value : constant)
| Subscript (value : expr) (slice : expr) (ctx : expr_context)
| Tuple (elts : list expr) (ctx : expr_context)
| BinOp (left : expr) (op : operator) (right : expr)
| Attribute (value : expr) (attr : string) (ctx : expr_context)
| Call (func : expr) (args : list expr) (keywords : list (option string * expr)).

Inductive stmt :=
| ClassDef (name : string) (bases : list expr)
           (keywords : list (option string * expr))
           (body : list stmt) (decorator_list : list expr)
| Assign (targets : list expr) (value : expr)
| AnnAssign (target : expr) (annotation : expr) (value : option expr)
| Expr (value : expr)
| ImportFrom (module : option string) (names : list (string * option string))
| Pass.

(** The nodes [ast.walk] yields below an expression: expressions, their
    contexts, operators and keyword arguments. *)
Inductive node :=
| NExpr (e : expr)
| NCtx (c : expr_context)
| NOp (o : operator)
| NKeyword (k : option string * expr).

(** [ast.iter_child_nodes]: the child nodes in the order of [_fields]. *)
Definition iter_child_nodes (n : node) : list node :=
  match n with
  | NExpr (Name _ ctx) => [NCtx ctx]
  | NExpr (Constant _) => []
  | NExpr (Subscript v s ctx) => [NExpr v; NExpr s; NCtx ctx]
  | NExpr (Tuple elts ctx) => map NExpr elts ++ [NCtx ctx]
  | NExpr (BinOp l o r) => [NExpr l; NOp o; NExpr r]
  | NExpr (Attribute v _ ctx) => [NExpr v; NCtx ctx]
  | NExpr (Call f args kws) => NExpr f :: map NExpr args ++ map NKeyword kws
  | NKeyword (_, v) => [NExpr v]
  | NCtx _ => []
  | NOp _ => []
  end.

(** Number of nodes of the tree below (and with) a node. *)
Fixpoint expr_size (e : expr) : nat :=
  match e with
  | Name _ _ => 2
  | Constant _ => 1
  | Subscript v s _ => 2 + expr_size v + expr_size s
  | Tuple elts _ => 2 + fold_right (fun x acc => expr_size x + acc) 0 elts
  | BinOp l _ r => 2 + expr_size l + expr_size r
  | Attribute v _ _ => 2 + expr_size v
  | Call f args kws =>
      1 + expr_size f
      + fold_right (fun x acc => expr_size x + acc) 0 args
      + fold_right (fun k acc => 1 + expr_size (snd k) + acc) 0 kws
  end.

(** [ast.walk]: breadth first, from a queue ([todo.popleft()], then
    [todo.extend(iter_child_nodes(node))]).  One unit of fuel per node. *)
Fixpoint walk_queue (fuel : nat) (todo : list node) : list node :=
  match fuel, todo with
  | S fuel', n :: rest => n :: walk_queue fuel' (rest ++ iter_child_nodes n)
  | _, _ => []
  end.

Definition walk (e : expr) : list node := walk_queue (expr_size e) [NExpr e].

End PyAst.

Export PyAst.

(* ===================================================================== *)
(** ** Post-processing of the generated module                            *)
(* ===================================================================== *)

Module PostProc.

Definition _DATA_MODEL_NAME_OVERRIDES : dict string := [
  ("ChatMessageData", "AnyChatMessage");
  ("ChatMessageDataUser", "UserMessage");
  ("ChatMessageDataSystem", "SystemPrompt");
  ("ChatMessageDataAssistant", "AssistantResponse");
  ("ChatMessageDataTool", "ToolResultMessage");
  ("ChatMessageDataUserDict", "UserMessageDict");
  ("ChatMessageDataSystemDict", "SystemPromptDict");
  ("ChatMessageDataAssistantDict", "AssistantResponseDict");
  ("ChatMessageDataToolDict", "ToolResultMessageDict");
  ("ChatMessagePartFileData", "FileHandle");
  ("ChatMessagePartFileDataDict", "FileHandleDict");
  ("ChatMessagePartTextData", "TextData");
  ("ChatMessagePartTextDataDict", "TextDataDict");
  ("ChatMessagePartToolCallRequestData", "ToolCallRequestData");
  ("ChatMessagePartToolCallRequestDataDict", "ToolCallRequestDataDict");
  ("ChatMessagePartToolCallResultData", "ToolCallResultData");
  ("ChatMessagePartToolCallResultDataDict", "ToolCallResultDataDict");
  ("FunctionToolCallRequest", "ToolCallRequest");
  ("FunctionToolCallRequestDict", "ToolCallRequestDict");
  ("LlmChannelPredictCreationParameter", "PredictionChannelRequest");
  ("LlmChannelPredictCreationParameterDict", "PredictionChannelRequestDict");
  ("RepositoryChannelDownloadModelCreationParameter", "DownloadModelChannelRequest");
  ("RepositoryChannelDownloadModelCreationParameterDict", "DownloadModelChannelRequestDict");
  ("PluginsChannelSetPromptPreprocessorToClientPacketPreprocess", "PromptPreprocessingRequest");
  ("PluginsChannelSetPromptPreprocessorToClientPacketPreprocessDict", "PromptPreprocessingRequestDict");
  ("PluginsChannelSetPromptPreprocessorToServerPacketAborted", "PromptPreprocessingAborted");
  ("PluginsChannelSetPromptPreprocessorToServerPacketAbortedDict", "PromptPreprocessingAbortedDict");
  ("PluginsChannelSetPromptPreprocessorToServerPacketComplete", "PromptPreprocessingComplete");
  ("PluginsChannelSetPromptPreprocessorToServerPacketCompleteDict", "PromptPreprocessingCompleteDict");
  ("PluginsChannelSetPromptPreprocessorToServerPacketError", "PromptPreprocessingError");
  ("PluginsChannelSetPromptPreprocessorToServerPacketErrorDict", "PromptPreprocessingErrorDict");
  ("LlmRpcGetLoadConfigReturns", "SerializedKVConfigSettings");
  ("LlmRpcGetLoadConfigReturnsDict", "SerializedKVConfigSettingsDict")
].

(** *** The walk over all nodes (lines 439-450)

    [ast.walk] yields every node of the tree once, and the loop body only
    assigns to a field of the node it is given: the loop is a map over the
    tree.  [override] is the body's [_DATA_MODEL_NAME_OVERRIDES.get(name)]
    followed by the conditional assignment. *)

Definition override (name : string) : string :=
  match Py.get name _DATA_MODEL_NAME_OVERRIDES with
  | Some override_name => override_name
  | None => name
  end.

Definition override_constant (c : constant) : constant :=
  match c with
  | CStr name => CStr (override name)
  | _ => c
  end.

Fixpoint rename_expr (e : expr) : expr :=
  match e with
  | Name id ctx => Name (override id) ctx
  | Constant value => Constant (override_constant value)
  | Subscript v s ctx => Subscript (rename_expr v) (rename_expr s) ctx
  | Tuple elts ctx => Tuple (map rename_expr elts) ctx
  | BinOp l o r => BinOp (rename_expr l) o (rename_expr r)
  | Attribute v attr ctx => Attribute (rename_expr v) attr ctx
  | Call f args kws =>
      Call (rename_expr f) (map rename_expr args)
           (map (fun k => (fst k, rename_expr (snd k))) kws)
  end.

Fixpoint rename_stmt (s : stmt) : stmt :=
  match s with
  | ClassDef name bases kws body decos =>
      ClassDef name (map rename_expr bases)
               (map (fun k => (fst k, rename_expr (snd k))) kws)
               (map rename_stmt body) (map rename_expr decos)
  | Assign targets value => Assign (map rename_expr targets) (rename_expr value)
  | AnnAssign target annotation value =>
      AnnAssign (rename_expr target) (rename_expr annotation)
                (option_map rename_expr value)
  | Expr value => Expr (rename_expr value)
  | ImportFrom m names => ImportFrom m names
  | Pass => Pass
  end.

Definition rename_module (body : list stmt) : list stmt := map rename_stmt body.

(** *** The scan of the top level nodes (lines 451-563) *)

Record rewrite_state := {
  dict_token_replacements : dict string;
  exported_names : list string;
  declared_structs : list string;
  additional_nodes : list (nat * stmt)
}.

Definition initial_state : rewrite_state :=
  {| dict_token_replacements := [];
     exported_names := [];
     declared_structs := [];
     additional_nodes := [] |}.

Definition set_replacement (k v : string) (st : rewrite_state) : rewrite_state :=
  {| dict_token_replacements := Py.set k v (dict_token_replacements st);
     exported_names := exported_names st;
     declared_structs := declared_structs st;
     additional_nodes := additional_nodes st |}.

Definition in_set (x : string) (s : list string) : bool :=
  existsb (String.eqb x) s.

(** [case ast.ClassDef(name=name)] *)
Definition process_class (name : string) (bases : list expr)
    (kws : list (option string * expr)) (body : list stmt)
    (decos : list expr) (st : rewrite_state) : result (stmt * rewrite_state) :=
  let override_name := Py.get name _DATA_MODEL_NAME_OVERRIDES in
  let generated_name := name in
  let name := match override_name with Some o => o | None => name end in
  let exported := exported_names st ++ [name] in
  if negb (endswith name "Dict") then
    Ok (ClassDef name bases kws body decos,
        {| dict_token_replacements := dict_token_replacements st;
           exported_names := exported;
           declared_structs := declared_structs st ++ [name];
           additional_nodes := additional_nodes st |})
  else
    let struct_name := removesuffix name "Dict" in
    if negb (in_set struct_name (declared_structs st)) then Raise AssertionError
    else
      let st' :=
        {| dict_token_replacements :=
             Py.set struct_name name (dict_token_replacements st);
           exported_names := exported;
           declared_structs := declared_structs st;
           additional_nodes := additional_nodes st |} in
      match override_name with
      | None => Ok (ClassDef name bases kws body decos, st')
      | Some _ =>
          match body with
          | [] => Raise IndexError
          | Expr (Constant (CStr docstring)) :: rest =>
              Ok (ClassDef name bases kws
                    (Expr (Constant (CStr (Py.replace generated_name name docstring)))
                     :: rest) decos, st')
          | _ :: _ => Raise AssertionError
          end
      end.

Definition is_name (id : string) (e : expr) : bool :=
  match e with
  | Name id' _ => String.eqb id' id
  | _ => false
  end.

(** The name bound by [ast.Name(id=name)] or by
    [ast.Subscript(value=ast.Name(id="Annotated"),
                   slice=ast.Tuple(elts=[ast.Name(id=name), *_]))]. *)
Definition simple_alias (e : expr) : option string :=
  match e with
  | Name name _ => Some name
  | Subscript v (Tuple (Name name _ :: _) _) _ =>
      if is_name "Annotated" v then Some name else None
  | _ => None
  end.

Record union_scan := {
  named_union_members : list string;
  other_union_members : list expr;
  optional_union : bool;
  needs_dict_alias : bool
}.

Definition is_str_pair (elts : list expr) : bool :=
  match elts with
  | [a; b] => is_name "str" a && is_name "str" b
  | _ => false
  end.

(** The [match union_child] statement. *)
Definition scan_child (replacements : dict string) (union_child : node)
    (acc : union_scan) : result union_scan :=
  match union_child with
  | NExpr (Name name _) =>
      Ok {| named_union_members := named_union_members acc ++ [name];
            other_union_members := other_union_members acc;
            optional_union := optional_union acc;
            needs_dict_alias :=
              if negb (needs_dict_alias acc) then Py.mem name replacements
              else needs_dict_alias acc |}
  | NExpr (Subscript v sl ctx) =>
      if is_name "Mapping" v then
        Ok {| named_union_members := named_union_members acc;
              other_union_members := other_union_members acc ++ [Subscript v sl ctx];
              optional_union := optional_union acc;
              needs_dict_alias := needs_dict_alias acc |}
      else Raise (RuntimeError "Failed to parse union node")
  | NExpr (Constant CNone) =>
      Ok {| named_union_members := named_union_members acc;
            other_union_members := other_union_members acc;
            optional_union := true;
            needs_dict_alias := needs_dict_alias acc |}
  | NExpr (BinOp _ BitOr _) => Ok acc
  | NOp BitOr => Ok acc
  | NCtx Load => Ok acc
  | NCtx Store => Ok acc
  | NExpr (Tuple elts _) =>
      if is_str_pair elts then Ok acc
      else Raise (RuntimeError "Failed to parse union node")
  | _ => Raise (RuntimeError "Failed to parse union node")
  end.

Fixpoint scan_union (replacements : dict string) (children : list node)
    (acc : union_scan) : result union_scan :=
  match children with
  | [] => Ok acc
  | c :: rest =>
      acc' <- scan_child replacements c acc ;;
      scan_union replacements rest acc'
  end.

Definition dict_member (replacements : dict string) (struct_union_member : string)
  : string :=
  match Py.get struct_union_member replacements with
  | Some d => d
  | None => struct_union_member
  end.

(** The expression built for the dict alias (lines 535-557). *)
Definition build_dict_union (replacements : dict string) (sc : union_scan)
  : result expr :=
  match named_union_members sc with
  | [] => Raise IndexError
  | first :: rest =>
      let u0 := Name (dict_member replacements first) Load in
      let u1 := fold_left
                  (fun dict_union m =>
                     BinOp dict_union BitOr (Name (dict_member replacements m) Load))
                  rest u0 in
      let u2 := fold_left
                  (fun dict_union other => BinOp dict_union BitOr other)
                  (other_union_members sc) u1 in
      Ok (if optional_union sc then BinOp u2 BitOr (Constant CNone) else u2)
  end.

(** [case ast.Assign(targets=[ast.Name(id=alias)], value=expr)];
    [builtin_names] stands for the names of the [builtins] module. *)
Definition process_alias (builtin_names : list string) (body_idx : nat)
    (alias : string) (e : expr) (st : rewrite_state) : result rewrite_state :=
  match simple_alias e with
  | Some name =>
      if in_set name builtin_names then Ok (set_replacement alias name st)
      else match Py.get name (dict_token_replacements st) with
           | Some dict_name => Ok (set_replacement alias dict_name st)
           | None => Ok st
           end
  | None =>
      match e with
      | BinOp _ BitOr _ =>
          sc <- scan_union (dict_token_replacements st) (walk e)
                  {| named_union_members := [];
                     other_union_members := [];
                     optional_union := false;
                     needs_dict_alias := false |} ;;
          if needs_dict_alias sc then
            let dict_alias := (alias ++ "Dict")%string in
            let st1 := set_replacement alias dict_alias st in
            dict_union <- build_dict_union (dict_token_replacements st1) sc ;;
            let dict_alias_node := Assign [Name dict_alias Store] dict_union in
            Ok {| dict_token_replacements := dict_token_replacements st1;
                  exported_names := exported_names st1;
                  declared_structs := declared_structs st1;
                  additional_nodes :=
                    additional_nodes st1 ++ [(body_idx + 1, dict_alias_node)] |}
          else Ok st
      | _ => Ok st
      end
  end.

(** The [match node] statement of the scan of the top level nodes: the node
    as the scan leaves it and the updated bookkeeping. *)
Definition top_level_step (builtin_names : list string) (body_idx : nat)
    (n : stmt) (st : rewrite_state) : result (stmt * rewrite_state) :=
  match n with
  | ClassDef name bases kws body decos =>
      process_class name bases kws body decos st
  | Assign [Name alias _] e =>
      st' <- process_alias builtin_names body_idx alias e st ;;
      Ok (n, st')
  | _ => Ok (n, st)
  end.

Fixpoint top_level_scan (builtin_names : list string) (body_idx : nat)
    (body : list stmt) (st : rewrite_state)
  : result (list stmt * rewrite_state) :=
  match body with
  | [] => Ok ([], st)
  | n :: rest =>
      '(n', st1) <- top_level_step builtin_names body_idx n st ;;
      '(rest', st2) <- top_level_scan builtin_names (S body_idx) rest st1 ;;
      Ok (n' :: rest', st2)
  end.

(** [body[idx:idx] = (node,)] *)
Definition insert_at {A} (idx : nat) (x : A) (l : list A) : list A :=
  firstn idx l ++ x :: skipn idx l.

(** The loop over [reversed(additional_nodes)] (lines 566-567). *)
Definition splice (additional : list (nat * stmt)) (body : list stmt)
  : list stmt :=
  fold_left (fun b p => insert_at (fst p) (snd p) b) (rev additional) body.

(** The tree level of the post-processing, from the parsed module to the
    tree handed to [ast.unparse]. *)
Record rewritten := {
  rw_body : list stmt;
  rw_state : rewrite_state
}.

Definition rewrite_tree (builtin_names : list string) (model_ast : list stmt)
  : result rewritten :=
  '(body, st) <- top_level_scan builtin_names 0 (rename_module model_ast)
                   initial_state ;;
  Ok {| rw_body := body; rw_state := st |}.

Definition final_tree (r : rewritten) : list stmt :=
  splice (additional_nodes (rw_state r)) (rw_body r).

(** *** The token level (lines 572-598) *)

Inductive token_type :=
| NAME | NUMBER | STRING | OP | NEWLINE | NL
| INDENT | DEDENT | COMMENT | ENCODING | ENDMARKER.

Definition token_type_eqb (a b : token_type) : bool :=
  match a, b with
  | NAME, NAME | NUMBER, NUMBER | STRING, STRING | OP, OP
  | NEWLINE, NEWLINE | NL, NL | INDENT, INDENT | DEDENT, DEDENT
  | COMMENT, COMMENT | ENCODING, ENCODING | ENDMARKER, ENDMARKER => true
  | _, _ => false
  end.

(** The type and the string of a [TokenInfo]; the positions are carried
    along unchanged by the loop and left out. *)
Definition token_info := (token_type * string)%type.

Record scan_flags := {
  checking_class_header : bool;
  processing_typed_dict : bool
}.

Definition looking : scan_flags :=
  {| checking_class_header := false; processing_typed_dict := false |}.

(** The body of the loop over [model_tokens]: the flags afterwards and the
    token appended to [updated_tokens]. *)
Definition token_step (replacements : dict string) (fl : scan_flags)
    (info : token_info) : result (scan_flags * token_info) :=
  let '(ttype, token) := info in
  if checking_class_header fl then
    if negb (token_type_eqb ttype NAME) then Raise AssertionError
    else
      Ok ({| checking_class_header := false;
             processing_typed_dict :=
               if endswith token "Dict" then true
               else processing_typed_dict fl |},
          info)
  else if processing_typed_dict fl then
    if token_type_eqb ttype DEDENT then
      Ok ({| checking_class_header := false; processing_typed_dict := false |},
          info)
    else if token_type_eqb ttype NAME then
      Ok (fl, (ttype, dict_member replacements token))
    else Ok (fl, info)
  else
    if token_type_eqb ttype NAME && String.eqb token "class" then
      Ok ({| checking_class_header := true;
             processing_typed_dict := processing_typed_dict fl |},
          info)
    else Ok (fl, info).

Fixpoint rewrite_tokens (replacements : dict string) (fl : scan_flags)
    (model_tokens : list token_info) : result (list token_info) :=
  match model_tokens with
  | [] => Ok []
  | t :: rest =>
      '(fl', t') <- token_step replacements fl t ;;
      rest' <- rewrite_tokens replacements fl' rest ;;
      Ok (t' :: rest')
  end.

(** *** The [__all__] list (lines 599-607) *)

Fixpoint insert_sorted (x : string) (l : list string) : list string :=
  match l with
  | [] => [x]
  | y :: l' => if String.leb x y then x :: l else y :: insert_sorted x l'
  end.

(** [sorted(names)]: strings are ordered by their code points. *)
Definition sorted (names : list string) : list string :=
  fold_right insert_sorted [] names.

Definition dquote : string := String (ascii_of_nat 34) EmptyString.

Definition name_line (name : string) : string :=
  ("    " ++ dquote ++ name ++ dquote ++ ",")%string.

Definition lines_to_insert (exported : list string) : list string :=
  ["__all__ = ["] ++ map name_line (sorted exported)
  ++ ["]"; EmptyString; EmptyString].

(** The value of [idx] after the [for idx, line in enumerate(...)] loop
    with its [break]: [None] while the variable is unbound. *)
Fixpoint class_line_index (i : nat) (last : option nat) (lines : list string)
  : option nat :=
  match lines with
  | [] => last
  | line :: rest =>
      if startswith line "class" then Some i
      else class_line_index (S i) (Some i) rest
  end.

(** [l[idx:idx] = xs] *)
Definition insert_list {A} (idx : nat) (xs l : list A) : list A :=
  firstn idx l ++ xs ++ skipn idx l.

Definition insert_all (exported : list string)
    (updated_source_lines : list string) : result (list string) :=
  match class_line_index 0 None updated_source_lines with
  | None => Raise NameError
  | Some idx =>
      Ok (insert_list idx (lines_to_insert exported) updated_source_lines)
  end.

End PostProc.

(* ===================================================================== *)
(** * Vocabulary of the properties                                        *)
(* ===================================================================== *)

Import Infer PostProc.

(** ** Union inference *)

(** The two encodings of "no value": the never schema and the null schema. *)
Definition no_value (x : json) : Prop := x = void_spec \/ x = null_spec.

(** A variant passes the three tests of [_check_discriminator] for a tag
    field: it has properties, the tag field is among them with type
    ["string"], and the tag field has a constant that is not [None]. *)
Definition tagged_variant (tag_field : string) (entry : json) : Prop :=
  exists d props field_def tag_value,
    entry = JDict d
    /\ Py.get "properties" d = Some (JDict props)
    /\ Py.get tag_field props = Some (JDict field_def)
    /\ Py.get "type" field_def = Some (JStr "string")
    /\ Py.get "const" field_def = Some tag_value
    /\ tag_value <> JNull.

(** A union of two error objects: the [code] property of the first is
    given by a reference and so has no ["type"] key, the second has no
    [code] property. *)
Definition message_schema : json := JDict [("type", JStr "string")].

Definition untyped_tag_union : list json :=
  [JDict [("type", JStr "object");
          ("properties", JDict [
             ("code", ref_to "#/definitions/errorCode");
             ("message", message_schema)])];
   JDict [("type", JStr "object");
          ("properties", JDict [("message", message_schema)])]].

(** The optional-result rewrite of the union at [spec_path], whose
    dictionary was [d], with the payload [x]: the member list is the
    reference to [<prefix>ReturnValue] and the null schema, and the
    definition [<prefix>ReturnValue = x] is returned for registration. *)
Definition optional_result (name : string) (spec_path : path) (schema : json)
    (d : dict json) (x : json) : Prop :=
  let result_name := (removesuffix name "/returns" ++ "ReturnValue")%string in
  exists schema',
    _extract_union_variants name spec_path schema
    = Ok (Some [(result_name, x)], schema')
    /\ get_path spec_path schema'
       = Ok (JDict (Py.set "anyOf"
               (JList [ref_to ("#/definitions/" ++ result_name); null_spec])
               d)).

(** An optional result whose payload is an error object with a [code]
    property given by a reference, followed by the null schema. *)
Definition untyped_payload : json :=
  JDict [("type", JStr "object");
         ("properties", JDict [
            ("code", ref_to "#/definitions/errorCode");
            ("message", message_schema)])].

Definition untyped_result_document : json :=
  JDict [("definitions", JDict [
    ("errorCode", JDict [("type", JStr "string")]);
    ("Foo/returns", JDict [("anyOf", JList [untyped_payload; null_spec])])])].

(** ** Paths into the document *)

(** [p] is an initial part of [q]: the object at [p] holds the object at
    [q] (or is it). *)
Fixpoint is_prefix (p q : path) : bool :=
  match p, q with
  | [], _ => true
  | _ :: _, [] => false
  | a :: p', b :: q' => String.eqb a b && is_prefix p' q'
  end.

Definition path_eqb (p q : path) : bool :=
  if list_eq_dec string_dec p q then true else false.

(** The path of the tag-field subschema of the variant at [p]. *)
Definition tag_path (discriminator : string) (p : path) : path :=
  p ++ ["properties"; discriminator].

(** The tag-field subschema of the referenced variant at [p] stands apart:
    it holds neither the union nor the tag-field subschema of a variant
    referenced at another path. *)
Definition tag_apart (discriminator : string) (spec_path : path)
    (rs : list resolved) (p : path) : bool :=
  negb (is_prefix (tag_path discriminator p) spec_path)
  && forallb (fun r =>
                match r with
                | ByRef _ p' =>
                    path_eqb p' p
                    || negb (is_prefix (tag_path discriminator p)
                               (tag_path discriminator p'))
                | Inline => true
                end) rs.

(** What the two [setdefault] calls do to a tag-field subschema:
    ["default"] becomes the constant of the tag and ["title"] the given
    title, each only when the key was absent; every other key is kept. *)
Definition tag_defaults_set (tag_title : string) (before after : json) : Prop :=
  exists d d' tag_value,
    before = JDict d /\ after = JDict d'
    /\ Py.get "const" d = Some tag_value
    /\ Py.get "default" d'
       = Some (match Py.get "default" d with Some x => x | None => tag_value end)
    /\ Py.get "title" d'
       = Some (match Py.get "title" d with
               | Some x => x
               | None => JStr tag_title
               end)
    /\ (forall k, k <> "default" -> k <> "title" -> Py.get k d' = Py.get k d).

(** The mutation one round of the second loop performs on the tag-field
    subschema of its variant: for a referenced variant, on the object the
    reference resolves to; for an anonymous variant, on the member object,
    which the round registers as a new definition. *)
Definition variant_mutated (discriminator tag_title : string)
    (spec_path : path) (idx : nat) (r : resolved)
    (st st' : variant_state) : Prop :=
  match r with
  | ByRef _ p =>
      exists before after,
        get_path (p ++ ["properties"; discriminator]) (vs_schema st) = Ok before
        /\ get_path (p ++ ["properties"; discriminator]) (vs_schema st') = Ok after
        /\ tag_defaults_set tag_title before after
  | Inline =>
      exists spec members member new_spec_name extracted before after,
        get_path spec_path (vs_schema st) = Ok spec
        /\ anyOf_list spec = Ok members
        /\ nth_error members idx = Some member
        /\ get_path ["properties"; discriminator] member = Ok before
        /\ Py.get new_spec_name (vs_new_defs st') = Some extracted
        /\ get_path ["properties"; discriminator] extracted = Ok after
        /\ tag_defaults_set tag_title before after
  end.

(** The state the second loop of [_extract_union_variants] starts from. *)
Definition variant_start (schema : json) : variant_state :=
  {| vs_schema := schema; vs_new_defs := []; vs_map := [] |}.

(** The anonymous variant at index [i] of the member list is registered:
    the name made of the union's name and the variant's tag constant is
    among the new definitions. *)
Definition anonymous_registered (name discriminator : string)
    (union_member_specs : list json) (new_defs : _SchemaDef) (i : nat) : Prop :=
  exists member tag_value new_spec_name,
    nth_error union_member_specs i = Some member
    /\ get_path ["properties"; discriminator; "const"] member = Ok tag_value
    /\ _make_spec_name name tag_value = Ok new_spec_name
    /\ Py.mem new_spec_name new_defs = true.

(** The new definition [new_spec_name = extracted] is an anonymous variant
    of the member list, registered under the name made of the union's name
    and its tag constant, with the defaults of its tag-field subschema
    set. *)
Definition extracted_from (name discriminator tag_title : string)
    (rs : list resolved) (union_member_specs : list json)
    (new_spec_name : string) (extracted : json) : Prop :=
  exists i member before after tag_value,
    nth_error rs i = Some Inline
    /\ nth_error union_member_specs i = Some member
    /\ get_path ["properties"; discriminator] member = Ok before
    /\ subscript before "const" = Ok tag_value
    /\ _make_spec_name name tag_value = Ok new_spec_name
    /\ get_path ["properties"; discriminator] extracted = Ok after
    /\ tag_defaults_set tag_title before after.

(** The document of the example: [Shape] has a referenced variant that
    already has a title and an anonymous variant. *)
Definition shape_document : json :=
  JDict [("definitions", JDict [
    ("Shape", JDict [("anyOf", JList [
       ref_to "#/definitions/Circle";
       JDict [("type", JStr "object");
              ("properties", JDict [
                 ("type", JDict [("type", JStr "string");
                                 ("const", JStr "square")])])]])]);
    ("Circle", JDict [("type", JStr "object");
                      ("properties", JDict [
                         ("type", JDict [("type", JStr "string");
                                         ("const", JStr "circle");
                                         ("title", JStr "Kind")])])])])].

(** A union whose referenced variant has a number for its tag constant. *)
Definition numbered_document : json :=
  JDict [("definitions", JDict [
    ("Level", JDict [("anyOf", JList [ref_to "#/definitions/High"])]);
    ("High", JDict [("type", JStr "object");
                    ("properties", JDict [
                       ("type", JDict [("type", JStr "string");
                                       ("const", JInt 7)])])])])].

(** The rest of [_process_schema], once the excluded definitions are
    deleted: the loop over the definitions and the final merge. *)
Definition infer_after_exclusion (fuel : nat) (schema1 : json) : result json :=
  names <- def_names schema1 ;;
  '(new_defs, schema2) <- process_defs fuel names [] schema1 ;;
  update_path ["definitions"]
    (on_dict (fun schema_defs => _merge_defs schema_defs (Some new_defs)))
    schema2.

(** A document whose [llmContextReference] union has two anonymous
    variants, tagged [jsonFile] and [yamlFile]. *)
Definition tagged_object (tag : string) : json :=
  JDict [("type", JStr "object");
         ("properties", JDict [
            ("type", JDict [("type", JStr "string"); ("const", JStr tag)])])].

Definition context_reference_document : json :=
  JDict [("definitions", JDict [
    ("llmContextReferenceJsonFile", JDict [("type", JStr "string")]);
    ("llmContextReferenceYamlFile", JDict [("type", JStr "string")]);
    ("llmContextReference",
     JDict [("anyOf", JList [tagged_object "jsonFile";
                             tagged_object "yamlFile"])])])].

(** A document with the two excluded definitions and an optional result. *)
Definition excluded_only_document : json :=
  JDict [("definitions", JDict [
    ("llmContextReferenceJsonFile", JDict []);
    ("llmContextReferenceYamlFile", JDict []);
    ("Foo/returns",
     JDict [("anyOf", JList [void_spec; JDict [("type", JStr "number")]])])])].

(** ** Token rewriting *)

Definition is_class_keyword (t : token_info) : bool :=
  token_type_eqb (fst t) NAME && String.eqb (snd t) "class".

Definition is_dedent (t : token_info) : bool := token_type_eqb (fst t) DEDENT.

(** What the loop does to a token while [processing_typed_dict] is set. *)
Definition replace_name (replacements : dict string) (t : token_info)
  : token_info :=
  if token_type_eqb (fst t) NAME
  then (fst t, dict_member replacements (snd t))
  else t.

(** The flags inside a typed dict definition. *)
Definition in_typed_dict : scan_flags :=
  {| checking_class_header := false; processing_typed_dict := true |}.

Definition newline : string := String (ascii_of_nat 10) EmptyString.

(** The tokens of
<<
class ADict(A):
    x: int
>>
    The class body starts at the [INDENT] token, at index 7. *)
Definition subclass_tokens : list token_info :=
  [(NAME, "class"); (NAME, "ADict"); (OP, "("); (NAME, "A"); (OP, ")");
   (OP, ":"); (NEWLINE, newline); (INDENT, "    "); (NAME, "x"); (OP, ":");
   (NAME, "int"); (NEWLINE, newline); (DEDENT, EmptyString)].

(** ** Declared and exported names *)

Definition class_name_of (s : stmt) : list string :=
  match s with
  | ClassDef name _ _ _ _ => [name]
  | _ => []
  end.

(** The names of the top level class definitions, in order. *)
Definition class_names (body : list stmt) : list string :=
  flat_map class_name_of body.

(** The names a module declares at top level: its classes and the targets
    of its assignments. *)
Definition declared_name_of (s : stmt) : list string :=
  match s with
  | ClassDef name _ _ _ _ => [name]
  | Assign [Name alias _] _ => [alias]
  | _ => []
  end.

Definition declared_names (body : list stmt) : list string :=
  flat_map declared_name_of body.

Definition is_assign (s : stmt) : bool :=
  match s with Assign _ _ => true | _ => false end.

(** The order of [sorted] on strings. *)
Definition str_le (a b : string) : Prop := String.leb a b = true.

Definition docstring (s : string) : stmt := Expr (Constant (CStr s)).

(** The tree of
<<
class A(Struct): ...
class ADict(TypedDict): ...
class B(Struct): ...
class BDict(TypedDict): ...
AOrB = A | B
>>
 *)
Definition alias_module : list stmt :=
  [ClassDef "A" [Name "Struct" Load] [] [docstring "A."] [];
   ClassDef "ADict" [Name "TypedDict" Load] [] [docstring "Dict of A."] [];
   ClassDef "B" [Name "Struct" Load] [] [docstring "B."] [];
   ClassDef "BDict" [Name "TypedDict" Load] [] [docstring "Dict of B."] [];
   Assign [Name "AOrB" Store] (BinOp (Name "A" Load) BitOr (Name "B" Load))].


(** The tree of
<<
class A(Struct): ...
class ADict(TypedDict): ...
AOrMapping = A | Mapping[str, str]
>>
 *)
Definition mapping_union : expr :=
  BinOp (Name "A" Load) BitOr
        (Subscript (Name "Mapping" Load)
                   (Tuple [Name "str" Load; Name "str" Load] Load) Load).

Definition mapping_module : list stmt :=
  [ClassDef "A" [Name "Struct" Load] [] [docstring "A."] [];
   ClassDef "ADict" [Name "TypedDict" Load] [] [docstring "Dict of A."] [];
   Assign [Name "AOrMapping" Store] mapping_union].

(** ** Occurrences of names *)

(** [s] is a key of the Name Override Table. *)
Definition is_key (s : string) : bool := Py.mem s _DATA_MODEL_NAME_OVERRIDES.

(** The identifiers of the [Name] nodes of a tree, in source order. *)
Fixpoint expr_names (e : expr) : list string :=
  match e with
  | Name id _ => [id]
  | Constant _ => []
  | Subscript v s _ => expr_names v ++ expr_names s
  | Tuple elts _ => flat_map expr_names elts
  | BinOp l _ r => expr_names l ++ expr_names r
  | Attribute v _ _ => expr_names v
  | Call f args kws =>
      expr_names f ++ flat_map expr_names args
      ++ flat_map (fun k => expr_names (snd k)) kws
  end.

Definition constant_strings (c : constant) : list string :=
  match c with CStr s => [s] | _ => [] end.

(** The values of the string [Constant] nodes of a tree, in source order. *)
Fixpoint expr_strings (e : expr) : list string :=
  match e with
  | Name _ _ => []
  | Constant c => constant_strings c
  | Subscript v s _ => expr_strings v ++ expr_strings s
  | Tuple elts _ => flat_map expr_strings elts
  | BinOp l _ r => expr_strings l ++ expr_strings r
  | Attribute v _ _ => expr_strings v
  | Call f args kws =>
      expr_strings f ++ flat_map expr_strings args
      ++ flat_map (fun k => expr_strings (snd k)) kws
  end.

Definition option_list {A B} (f : A -> list B) (o : option A) : list B :=
  match o with Some a => f a | None => [] end.

(** The occurrences below a statement of what [sites] lists in an
    expression. *)
Fixpoint stmt_sites (sites : expr -> list string) (s : stmt) : list string :=
  match s with
  | ClassDef _ bases kws body decos =>
      flat_map sites bases ++ flat_map (fun k => sites (snd k)) kws
      ++ flat_map (stmt_sites sites) body ++ flat_map sites decos
  | Assign targets value => flat_map sites targets ++ sites value
  | AnnAssign target annotation value =>
      sites target ++ sites annotation ++ option_list sites value
  | Expr value => sites value
  | ImportFrom _ _ => []
  | Pass => []
  end.

Definition stmt_names : stmt -> list string := stmt_sites expr_names.
Definition stmt_strings : stmt -> list string := stmt_sites expr_strings.

Definition module_names (body : list stmt) : list string :=
  flat_map stmt_names body.
Definition module_strings (body : list stmt) : list string :=
  flat_map stmt_strings body.

(** The names of all class definitions, nested ones included. *)
Fixpoint all_class_names (s : stmt) : list string :=
  match s with
  | ClassDef name _ _ body _ => name :: flat_map all_class_names body
  | _ => []
  end.

(** ** Induction principles *)

(** Induction on expressions, with the hypothesis for the expressions in
    the lists of a node. *)
Fixpoint expr_nested_ind (P : expr -> Prop)
    (HName : forall id ctx, P (Name id ctx))
    (HConstant : forall c, P (Constant c))
    (HSubscript : forall v s ctx, P v -> P s -> P (Subscript v s ctx))
    (HTuple : forall elts ctx, Forall P elts -> P (Tuple elts ctx))
    (HBinOp : forall l o r, P l -> P r -> P (BinOp l o r))
    (HAttribute : forall v attr ctx, P v -> P (Attribute v attr ctx))
    (HCall : forall f args kws,
        P f -> Forall P args -> Forall (fun k => P (snd k)) kws ->
        P (Call f args kws))
    (e : expr) {struct e} : P e :=
  let rec := expr_nested_ind P HName HConstant HSubscript HTuple HBinOp
               HAttribute HCall in
  match e with
  | Name id ctx => HName id ctx
  | Constant c => HConstant c
  | Subscript v s ctx => HSubscript v s ctx (rec v) (rec s)
  | Tuple elts ctx =>
      HTuple elts ctx
        ((fix all (l : list expr) : Forall P l :=
            match l with
            | [] => Forall_nil P
            | x :: l' => Forall_cons x (rec x) (all l')
            end) elts)
  | BinOp l o r => HBinOp l o r (rec l) (rec r)
  | Attribute v attr ctx => HAttribute v attr ctx (rec v)
  | Call f args kws =>
      HCall f args kws (rec f)
        ((fix all (l : list expr) : Forall P l :=
            match l with
            | [] => Forall_nil P
            | x :: l' => Forall_cons x (rec x) (all l')
            end) args)
        ((fix all (l : list (option string * expr))
            : Forall (fun k => P (snd k)) l :=
            match l with
            | [] => Forall_nil _
            | x :: l' => Forall_cons x (rec (snd x)) (all l')
            end) kws)
  end.

(** Induction on statements, with the hypothesis for the body of a class. *)
Fixpoint stmt_nested_ind (P : stmt -> Prop)
    (HClassDef : forall name bases kws body decos,
        Forall P body -> P (ClassDef name bases kws body decos))
    (HAssign : forall targets value, P (Assign targets value))
    (HAnnAssign : forall target annotation value,
        P (AnnAssign target annotation value))
    (HExpr : forall value, P (Expr value))
    (HImportFrom : forall m names, P (ImportFrom m names))
    (HPass : P Pass)
    (s : stmt) {struct s} : P s :=
  match s with
  | ClassDef name bases kws body decos =>
      HClassDef name bases kws body decos
        ((fix all (l : list stmt) : Forall P l :=
            match l with
            | [] => Forall_nil P
            | x :: l' =>
                Forall_cons x
                  (stmt_nested_ind P HClassDef HAssign HAnnAssign HExpr
                     HImportFrom HPass x)
                  (all l')
            end) body)
  | Assign targets value => HAssign targets value
  | AnnAssign target annotation value => HAnnAssign target annotation value
  | Expr value => HExpr value
  | ImportFrom m names => HImportFrom m names
  | Pass => HPass
  end.

(** ** Trees without keys of the Name Override Table *)

(** No name of the list is a key of the table. *)
Definition clean (l : list string) : Prop :=
  Forall (fun s => is_key s = false) l.

(** The identifiers below a node of the walk. *)
Definition node_names (n : node) : list string :=
  match n with
  | NExpr e => expr_names e
  | NKeyword k => expr_names (snd k)
  | NCtx _ => []
  | NOp _ => []
  end.

(** What the scan of a union has collected holds no key. *)
Definition scan_clean (sc : union_scan) : Prop :=
  clean (named_union_members sc)
  /\ Forall (fun e => clean (expr_names e)) (other_union_members sc).

(** The bookkeeping of the top level scan holds no key: neither among the
    replacement names nor in the synthesized nodes. *)
Definition state_clean (st : rewrite_state) : Prop :=
  clean (map snd (dict_token_replacements st))
  /\ Forall (fun p => clean (stmt_names (snd p))) (additional_nodes st).

(** The tree of
<<
class Chat(Struct):
    class ChatMessageData(Struct): ...
    first: ChatMessageData
ChatMessageDataUser = "ChatMessageDataUser"
>>
 *)
Definition nested_module : list stmt :=
  [ClassDef "Chat" [Name "Struct" Load] []
     [ClassDef "ChatMessageData" [Name "Struct" Load] [] [Pass] [];
      AnnAssign (Name "first" Store) (Name "ChatMessageData" Load) None] [];
   Assign [Name "ChatMessageDataUser" Store]
          (Constant (CStr "ChatMessageDataUser"))].

(** ** Size of the walk *)

(** Number of nodes the walk yields from a node. *)
Definition node_size (n : node) : nat :=
  match n with
  | NExpr e => expr_size e
  | NKeyword k => 1 + expr_size (snd k)
  | NCtx _ => 1
  | NOp _ => 1
  end.

Definition queue_size (todo : list node) : nat :=
  fold_right (fun n acc => node_size n + acc) 0 todo.

(** ** Further vocabulary *)

(** [c in s] for a character. *)
Fixpoint has_char (c : ascii) (s : string) : bool :=
  match s with
  | EmptyString => false
  | String c' rest => Ascii.eqb c' c || has_char c rest
  end.

(** The definitions a step returns have distinct names. *)
Definition distinct_defs (r : option _SchemaDef) : Prop :=
  match r with
  | Some d => NoDup (Py.keys d)
  | None => True
  end.

(** Number of scheduled insertions at an index up to [k]. *)
Definition count_le {A} (additional : list (nat * A)) (k : nat) : nat :=
  List.length (filter (fun p => Nat.leb (fst p) k) additional).

(** [splice] for any type of nodes. *)
Definition splice_gen {A} (additional : list (nat * A)) (body : list A)
  : list A :=
  fold_left (fun b p => insert_at (fst p) (snd p) b) (rev additional) body.

(** The insertion indices grow along the list. *)
Definition increasing {A} (additional : list (nat * A)) : Prop :=
  StronglySorted (fun p q => fst p < fst q) additional.

(** A scheduled node is the dict alias of the alias assignment that stands
    at index [fst p - 1 - offset] of [body]. *)
Definition dict_alias_of (body : list stmt) (offset : nat) (p : nat * stmt)
  : Prop :=
  exists alias ctx e u,
    nth_error body (fst p - 1 - offset) = Some (Assign [Name alias ctx] e)
    /\ snd p = Assign [Name (alias ++ "Dict") Store] u.

(** Every [NAME] token ["class"] that has a successor is followed by a
    [NAME] token, as in the token stream of a Python source text. *)
Fixpoint class_followed_by_name (toks : list token_info) : bool :=
  match toks with
  | t :: rest =>
      match rest with
      | t' :: _ => negb (is_class_keyword t) || token_type_eqb (fst t') NAME
      | [] => true
      end && class_followed_by_name rest
  | [] => true
  end.

(** Every target of a discriminator mapping is the reference of a member
    of the union or points at one of the synthesized definitions. *)
Definition targets_defined (members : list resolved) (new_defs : _SchemaDef)
    (mapping : dict string) : Prop :=
  forall tag target,
    Py.get tag mapping = Some target ->
    (exists p, In (ByRef target p) members)
    \/ (exists n, target = ("#/definitions/" ++ n)%string
                  /\ Py.mem n new_defs = true).

(** What the scan of the top level may do to a statement: a class
    definition gets its final name, and its docstring may be rewritten
    with that name; any other statement is kept. *)
Definition scanned (n n' : stmt) : Prop :=
  match n with
  | ClassDef name bases kws body decos =>
      exists body',
        n' = ClassDef (override name) bases kws body' decos
        /\ (body' = body
            \/ exists doc rest,
                 body = Expr (Constant (CStr doc)) :: rest
                 /\ body' = Expr (Constant
                                    (CStr (Py.replace name (override name) doc)))
                            :: rest)
  | _ => n' = n
  end.

(** The definitions a pass synthesizes: what [_process_named_spec] returns
    for each of the named definitions in turn, in that order. *)
Fixpoint synthesized (fuel : nat) (names : list string) (schema : json)
  : result (list (string * json)) :=
  match names with
  | [] => Ok []
  | name :: rest =>
      '(defs, schema1) <-
         _process_named_spec fuel name ["definitions"; name] schema ;;
      more <- synthesized fuel rest schema1 ;;
      Ok (match defs with Some ds => ds | None => [] end ++ more)
  end.

(* ===================================================================== *)
(** * Properties                                                          *)
(* ===================================================================== *)

(** ** Dictionaries and paths *)

Section DictFacts.
Context {V : Type}.
Implicit Types (d : dict V) (k : string) (v : V).

Lemma get_set_eq k v d : Py.get k (Py.set k v d) = Some v.
Proof.
  induction d as [|[k' v'] d IH]; simpl.
  - now rewrite String.eqb_refl.
  - destruct (String.eqb k k') eqn:E; simpl; rewrite E; auto.
Qed.

Lemma get_set_neq k k' v d :
  k <> k' -> Py.get k' (Py.set k v d) = Py.get k' d.
Proof.
  intros Hne. induction d as [|[k0 v0] d IH]; simpl.
  - destruct (String.eqb k' k) eqn:E; auto.
    apply String.eqb_eq in E. congruence.
  - destruct (String.eqb k k0) eqn:E; simpl.
    + apply String.eqb_eq in E. subst k0.
      destruct (String.eqb k' k) eqn:E'; auto.
      apply String.eqb_eq in E'. congruence.
    + destruct (String.eqb k' k0); auto.
Qed.

Lemma keys_set_present k v d :
  Py.mem k d = true -> Py.keys (Py.set k v d) = Py.keys d.
Proof.
  unfold Py.mem, Py.keys. induction d as [|[k' v'] d IH]; simpl.
  - discriminate.
  - destruct (String.eqb k k') eqn:E; simpl; intros H; auto.
    now rewrite IH.
Qed.

Lemma keys_set_absent k v d :
  Py.mem k d = false -> Py.keys (Py.set k v d) = Py.keys d ++ [k].
Proof.
  unfold Py.mem, Py.keys. induction d as [|[k' v'] d IH]; simpl; auto.
  destruct (String.eqb k k') eqn:E; simpl; intros H.
  - discriminate.
  - now rewrite IH.
Qed.

Lemma mem_get k d : Py.mem k d = true <-> exists v, Py.get k d = Some v.
Proof.
  unfold Py.mem. destruct (Py.get k d); split; intros H; eauto.
  - discriminate.
  - destruct H; discriminate.
Qed.

Lemma get_setdefault_eq k v d :
  Py.get k (Py.setdefault k v d)
  = Some (match Py.get k d with Some x => x | None => v end).
Proof.
  unfold Py.setdefault, Py.mem.
  destruct (Py.get k d) eqn:E; auto using get_set_eq.
Qed.

Lemma get_setdefault_neq k k' v d :
  k <> k' -> Py.get k' (Py.setdefault k v d) = Py.get k' d.
Proof.
  intros. unfold Py.setdefault. destruct (Py.mem k d); auto using get_set_neq.
Qed.

Lemma get_in_keys k d : Py.get k d <> None <-> In k (Py.keys d).
Proof.
  unfold Py.keys. induction d as [|[k' v'] d IH]; simpl.
  - split; [congruence | tauto].
  - destruct (String.eqb k k') eqn:E.
    + apply String.eqb_eq in E. subst. split; [auto | congruence].
    + apply String.eqb_neq in E. rewrite IH. split; [auto | ].
      intros [H|H]; [congruence | auto].
Qed.

Lemma del_absent k d : Py.get k d = None -> Py.del k d = Raise (KeyError k).
Proof.
  induction d as [|[k' v'] d IH]; simpl; auto.
  destruct (String.eqb k k'); [discriminate|].
  intros H. now rewrite IH.
Qed.

Lemma del_present k d :
  Py.get k d <> None ->
  exists d', Py.del k d = Ok d'
    /\ (forall k', k' <> k -> Py.get k' d' = Py.get k' d)
    /\ (NoDup (Py.keys d) -> Py.get k d' = None).
Proof.
  induction d as [|[k0 v0] d IH]; simpl; [congruence|].
  destruct (String.eqb k k0) eqn:E; intros H.
  - apply String.eqb_eq in E. subst k0. exists d. split; [reflexivity|]. split.
    + intros k' Hk'. apply String.eqb_neq in Hk'. now rewrite Hk'.
    + intros Hnd. inversion Hnd as [|? ? Hnin _]; subst.
      destruct (Py.get k d) eqn:G; auto.
      exfalso. apply Hnin. apply get_in_keys. congruence.
  - destruct (IH H) as [d' [Hd [Hother Hk]]]. rewrite Hd. simpl.
    exists ((k0, v0) :: d'). split; [reflexivity|]. split.
    + intros k' Hk'. simpl. destruct (String.eqb k' k0); auto.
    + intros Hnd. simpl. rewrite E. apply Hk. now inversion Hnd.
Qed.

End DictFacts.

Lemma bind_ok {A B} (c : result A) (k : A -> result B) (b : B) :
  Py.bind c k = Ok b -> exists a, c = Ok a /\ k a = Ok b.
Proof. destruct c; simpl; [eauto | discriminate]. Qed.

Lemma bind_raise {A B} (c : result A) (k : A -> result B) (e : exn) :
  c = Raise e -> Py.bind c k = Raise e.
Proof. now intros ->. Qed.

(** Splits a successful sequence of binds in the hypothesis [H]. *)
Ltac bind_inv H :=
  let a := fresh "a" in
  let E := fresh "E" in
  apply bind_ok in H; destruct H as [a [E H]].

Lemma item_ok {V} (k : string) (d : dict V) (v : V) :
  Py.item k d = Ok v <-> Py.get k d = Some v.
Proof.
  unfold Py.item. destruct (Py.get k d); split; intros H;
    try discriminate; congruence.
Qed.

Lemma get_path_app (p q : path) (j : json) :
  get_path (p ++ q) j = (v <- get_path p j ;; get_path q v).
Proof.
  revert j. induction p as [|k p IH]; intros j; simpl; auto.
  destruct (subscript j k); simpl; auto.
Qed.

(** A mutation through a path reads the object found at the path and leaves
    the mutated object at that path. *)
Lemma update_path_get (p : path) (f : json -> result json) (j j' : json) :
  update_path p f j = Ok j' ->
  exists v v', get_path p j = Ok v /\ f v = Ok v' /\ get_path p j' = Ok v'.
Proof.
  revert j j'. induction p as [|k p IH]; intros j j' H; simpl in *.
  - exists j, j'. auto.
  - destruct j; try discriminate.
    bind_inv H. bind_inv H. inversion H; subst; clear H.
    destruct (IH _ _ E0) as [v [v' [G [F G']]]].
    exists v, v'. simpl. rewrite E. simpl. rewrite G.
    unfold Py.item. rewrite get_set_eq. simpl. auto.
Qed.

Lemma update_path_ok (p : path) (f : json -> result json) (j v v' : json) :
  get_path p j = Ok v -> f v = Ok v' ->
  exists j', update_path p f j = Ok j'.
Proof.
  revert j. induction p as [|k p IH]; intros j G F; simpl in *.
  - inversion G; subst. eauto.
  - destruct j; simpl in G; try discriminate.
    bind_inv G. rewrite E. simpl.
    destruct (IH _ G F) as [j' ->]. simpl. eauto.
Qed.

(** ** The "no value" encodings *)

Lemma py_eq_void_spec (x : json) : py_eq x void_spec = true <-> x = void_spec.
Proof.
  split; [|intros ->; reflexivity].
  unfold void_spec. destruct x as [| | | |l|d]; simpl; try discriminate.
  destruct d as [|[k v] [|? ?]]; simpl; try discriminate.
  destruct (String.eqb k "not") eqn:E; simpl; try discriminate.
  apply String.eqb_eq in E. subst k.
  destruct v as [| | | |l|[|? ?]]; simpl; try discriminate.
  reflexivity.
Qed.

Lemma py_eq_null_spec (x : json) : py_eq x null_spec = true <-> x = null_spec.
Proof.
  split; [|intros ->; reflexivity].
  unfold null_spec. destruct x as [| | | |l|d]; simpl; try discriminate.
  destruct d as [|[k v] [|? ?]]; simpl; try discriminate.
  destruct (String.eqb k "type") eqn:E; simpl; try discriminate.
  apply String.eqb_eq in E. subst k.
  destruct v as [| | |s| |]; simpl; try discriminate.
  rewrite andb_true_r. intros H. apply String.eqb_eq in H. now subst.
Qed.

Lemma py_in_allows_omission (x : json) :
  py_in x allows_omission = true <-> no_value x.
Proof.
  unfold py_in, allows_omission, no_value. simpl.
  rewrite orb_false_r, orb_true_iff, py_eq_void_spec, py_eq_null_spec.
  tauto.
Qed.

Lemma py_in_allows_omission_false (x : json) :
  py_in x allows_omission = false <-> ~ no_value x.
Proof.
  rewrite <- py_in_allows_omission.
  destruct (py_in x allows_omission); split; congruence.
Qed.

(** The members of a union that went through the first loop of
    [_extract_union_variants] are dictionaries. *)
Lemma resolve_members_dicts (schema : json) (members : list json) rm :
  resolve_members schema members = Ok rm ->
  Forall (fun m => exists d, m = JDict d) members.
Proof.
  revert rm. induction members as [|m members IH]; intros rm H; simpl in H.
  - constructor.
  - bind_inv H. bind_inv H. bind_inv H.
    constructor; [|eauto].
    destruct m; simpl in E; try discriminate. eauto.
Qed.

(** ** The optional-result rewrite *)

Lemma anyOf_list_dict (d : dict json) (members : list json) :
  Py.get "anyOf" d = Some (JList members) ->
  anyOf_list (JDict d) = Ok members.
Proof.
  intros H. unfold anyOf_list, subscript, Py.item. now rewrite H.
Qed.

Lemma is_void_union_result (nv x : json) :
  no_value nv -> ~ no_value x ->
  _is_void_union [nv; x] = x /\ _is_void_union [x; nv] = x.
Proof.
  intros Hnv Hx.
  apply py_in_allows_omission in Hnv. apply py_in_allows_omission_false in Hx.
  unfold _is_void_union. now rewrite Hnv, Hx.
Qed.

Lemma is_void_union_none (members : list json) :
  List.length members <> 2
  \/ (exists a b, members = [a; b] /\ no_value a /\ no_value b)
  \/ (exists a b, members = [a; b] /\ ~ no_value a /\ ~ no_value b) ->
  _is_void_union members = JNull.
Proof.
  intros [Hlen | [[a [b [-> [Ha Hb]]]] | [a [b [-> [Ha Hb]]]]]].
  - destruct members as [|a [|b [|c l]]]; simpl in *; try reflexivity.
    congruence.
  - apply py_in_allows_omission in Ha, Hb.
    unfold _is_void_union. now rewrite Ha, Hb.
  - apply py_in_allows_omission_false in Ha, Hb.
    unfold _is_void_union. now rewrite Ha, Hb.
Qed.


(** ** The discriminator detector *)

Lemma py_eq_string (x : json) (s : string) :
  py_eq x (JStr s) = true <-> x = JStr s.
Proof.
  destruct x; simpl; split; intros H; try discriminate.
  - apply String.eqb_eq in H. now subst.
  - inversion H. apply String.eqb_refl.
Qed.

Lemma check_discriminator_true (tag_field : string) (union_array : list json) :
  _check_discriminator tag_field union_array = Ok true
  <-> Forall (tagged_variant tag_field) union_array.
Proof.
  induction union_array as [|entry rest IH]; simpl.
  - split; auto.
  - split.
    + intros H.
      destruct entry as [| | | | |d]; simpl in H; try discriminate.
      destruct (Py.get "properties" d) as [props|] eqn:Hp; simpl in H;
        [|discriminate].
      destruct props as [| | | | |props]; simpl in H; try discriminate.
      destruct (Py.get tag_field props) as [field_def|] eqn:Hf; simpl in H;
        [|discriminate].
      destruct field_def as [| | | | |fd]; simpl in H; try discriminate.
      unfold Py.item in H.
      destruct (Py.get "type" fd) as [ty|] eqn:Ht; simpl in H; [|discriminate].
      destruct (py_eq ty (JStr "string")) eqn:Hty; simpl in H; [|discriminate].
      apply py_eq_string in Hty. subst ty.
      destruct (Py.get "const" fd) as [c|] eqn:Hc; simpl in H; [|discriminate].
      destruct (is_none c) eqn:Hn; [discriminate|].
      constructor; [|now apply IH].
      exists d, props, fd, c. repeat split; auto.
      intros ->. discriminate.
    + intros H. inversion H as [|? ? Hv Hrest]; subst.
      destruct Hv as [d [props [fd [c [-> [Hp [Hf [Ht [Hc Hn]]]]]]]]].
      simpl. rewrite Hp. simpl. rewrite Hf. simpl.
      unfold Py.item. rewrite Ht. simpl. rewrite Hc.
      destruct c; try congruence; simpl; now apply IH.
Qed.

(** C2, at the failing input: the second variant lacks the tag field
    [code], so the claim has the detector return false for every
    candidate; [field_def["type"]] on the first variant raises [KeyError],
    so the detector returns nothing for the candidate [code], and the
    search over the candidates fails with it. *)
Theorem check_discriminator_untyped_tag :
  _check_discriminator "code" untyped_tag_union = Raise (KeyError "type")
  /\ find_discriminator _POTENTIAL_TAG_FIELDS untyped_tag_union
     = Raise (KeyError "type")
  /\ Exists (fun entry => ~ tagged_variant "code" entry) untyped_tag_union.
Proof.
  repeat split; try reflexivity.
  apply Exists_cons_tl, Exists_cons_hd.
  intros [d [props [fd [c [Hd [Hp [Hf _]]]]]]].
  inversion Hd; subst d. simpl in Hp. inversion Hp; subst props.
  discriminate Hf.
Qed.

(** ** The optional-result rewrite in the inference *)

Lemma check_discriminator_no_value (tag_field : string) (nv : json)
    (rest : list json) :
  no_value nv -> _check_discriminator tag_field (nv :: rest) = Ok false.
Proof. intros [-> | ->]; reflexivity. Qed.

Lemma find_discriminator_no_value (tag_fields : list string) (nv : json)
    (rest : list json) :
  no_value nv -> find_discriminator tag_fields (nv :: rest) = Ok None.
Proof.
  intros Hnv. induction tag_fields as [|t tags IH]; [reflexivity|].
  cbn [find_discriminator].
  rewrite (check_discriminator_no_value t nv rest Hnv). exact IH.
Qed.

Lemma find_discriminator_found (tag_fields : list string)
    (resolved_specs : list json) (tag_field : string) :
  find_discriminator tag_fields resolved_specs = Ok (Some tag_field) ->
  In tag_field tag_fields
  /\ _check_discriminator tag_field resolved_specs = Ok true.
Proof.
  induction tag_fields as [|t tags IH]; cbn [find_discriminator];
    [discriminate|].
  destruct (_check_discriminator t resolved_specs) as [[|]|e] eqn:E;
    cbn [Py.bind]; intros H.
  - inversion H; subst. split; [now left | exact E].
  - destruct (IH H). split; [now right | assumption].
  - discriminate.
Qed.

Lemma no_value_untagged (tag_field : string) (nv : json) :
  no_value nv -> ~ tagged_variant tag_field nv.
Proof.
  intros [-> | ->] [d [props [fd [c [Hd [Hp _]]]]]];
    inversion Hd; subst d; discriminate Hp.
Qed.

Lemma resolve_members_no_value (schema : json) (nv : json)
    (rest : list json) :
  no_value nv ->
  resolve_members schema (nv :: rest)
  = (rs <- resolve_members schema rest ;; Ok ((Inline, nv) :: rs)).
Proof. intros [-> | ->]; reflexivity. Qed.

Lemma resolve_members_second (schema : json) (x nv : json)
    (rm : list (resolved * json)) :
  no_value nv ->
  resolve_members schema [x; nv] = Ok rm ->
  exists r x', rm = [(r, x'); (Inline, nv)].
Proof.
  intros Hnv H.
  change (resolve_members schema [x; nv])
    with (existing_ref <- py_get x "$ref" ;;
          r <- (if truthy existing_ref then
                  match existing_ref with
                  | JStr ref =>
                      '(p, resolved_spec) <- _resolve_json_ref schema ref ;;
                      Ok (ByRef ref p, resolved_spec)
                  | _ => Raise AttributeError
                  end
                else Ok (Inline, x)) ;;
          rs <- resolve_members schema [nv] ;;
          Ok (r :: rs)) in H.
  bind_inv H. bind_inv H. bind_inv H.
  rewrite (resolve_members_no_value _ _ _ Hnv) in E1.
  cbn [resolve_members Py.bind] in E1.
  inversion E1; subst. inversion H; subst.
  destruct a0 as [r x']. eauto.
Qed.

(** C1: the union of a schema named [.../returns], with the references of
    its members resolved.  When it has exactly two members, a "no value"
    encoding (the never schema or the null schema) followed by a member
    [x] that is none, the search for a discriminator finds nothing and the
    optional-result rewrite takes place: the member list becomes
    [[{"$ref": "#/definitions/<prefix>ReturnValue"}, {"type": "null"}]] and
    the definition [<prefix>ReturnValue = x] is returned.  When [x] comes
    first, the union is never found discriminated, and the rewrite takes
    place whenever the search for a discriminator returns; when the search
    raises on [x], [_extract_union_variants] raises with it and nothing is
    rewritten.  When both members are "no value" encodings the document is
    left as it is and nothing is synthesized; so it is when neither member
    is one, or the union does not have exactly two members, and the search
    returns without a discriminator. *)
Theorem optional_result_rewrite
    (name : string) (spec_path : path) (schema : json)
    (d : dict json) (members : list json) (rm : list (resolved * json))
    (Hspec : get_path spec_path schema = Ok (JDict d))
    (Hany : Py.get "anyOf" d = Some (JList members))
    (Hres : resolve_members schema members = Ok rm)
    (Hname : endswith name "/returns" = true) :
  let found := find_discriminator _POTENTIAL_TAG_FIELDS (map snd rm) in
  (forall nv x, no_value nv -> ~ no_value x -> members = [nv; x] ->
     found = Ok None /\ optional_result name spec_path schema d x)
  /\ (forall nv x, no_value nv -> ~ no_value x -> members = [x; nv] ->
        match found with
        | Ok found_field =>
            found_field = None /\ optional_result name spec_path schema d x
        | Raise e => _extract_union_variants name spec_path schema = Raise e
        end)
  /\ (forall a b, no_value a -> no_value b -> members = [a; b] ->
        found = Ok None
        /\ _extract_union_variants name spec_path schema = Ok (None, schema))
  /\ (List.length members <> 2
      \/ (exists a b, members = [a; b] /\ ~ no_value a /\ ~ no_value b) ->
      (forall tag_field, found <> Ok (Some tag_field)) ->
      match found with
      | Ok _ =>
          _extract_union_variants name spec_path schema = Ok (None, schema)
      | Raise e => _extract_union_variants name spec_path schema = Raise e
      end).
Proof.
  intros found.
  assert (Hext : _extract_union_variants name spec_path schema
                 = match found with
                   | Ok None => _process_rpc_result_union name spec_path schema
                   | Ok (Some discriminator) =>
                       _extract_union_variants name spec_path schema
                   | Raise e => Raise e
                   end).
  { unfold _extract_union_variants at 1. rewrite Hspec. cbn [Py.bind].
    rewrite (anyOf_list_dict _ _ Hany). cbn [Py.bind].
    rewrite Hres. cbn [Py.bind]. fold found.
    destruct found as [[t|]|e] eqn:Hfound; cbn [Py.bind].
    - unfold _extract_union_variants. rewrite Hspec. cbn [Py.bind].
      rewrite (anyOf_list_dict _ _ Hany). cbn [Py.bind].
      rewrite Hres. cbn [Py.bind]. fold found. rewrite Hfound.
      reflexivity.
    - now rewrite Hname.
    - reflexivity. }
  assert (Hrpc : _process_rpc_result_union name spec_path schema
                 = let result_spec := _is_void_union members in
                   if is_none result_spec then Ok (None, schema) else
                   let result_spec_name :=
                     (removesuffix name "/returns" ++ "ReturnValue")%string in
                   schema' <- update_path spec_path
                     (on_dict (fun d0 =>
                        Ok (Py.set "anyOf"
                              (JList [ref_to ("#/definitions/"
                                              ++ result_spec_name);
                                      null_spec]) d0))) schema ;;
                   Ok (Some [(result_spec_name, result_spec)], schema')).
  { unfold _process_rpc_result_union. rewrite Hspec. cbn [Py.bind].
    rewrite (anyOf_list_dict _ _ Hany). reflexivity. }
  assert (Hrewrite : forall nv x, no_value nv -> ~ no_value x ->
             members = [nv; x] \/ members = [x; nv] ->
             found = Ok None -> optional_result name spec_path schema d x).
  { intros nv x Hnv Hx Hm Hfound. unfold optional_result.
    rewrite Hext, Hfound, Hrpc. cbv zeta.
    assert (Hvoid : _is_void_union members = x).
    { destruct (is_void_union_result nv x Hnv Hx). destruct Hm; now subst. }
    assert (Hdict : exists dx, x = JDict dx).
    { pose proof (resolve_members_dicts _ _ _ Hres) as Hall.
      rewrite Forall_forall in Hall. apply Hall.
      destruct Hm; subst; simpl; auto. }
    destruct Hdict as [dx ->]. rewrite Hvoid. cbn [is_none].
    destruct (update_path_ok spec_path
                (on_dict (fun d0 => Ok (Py.set "anyOf"
                   (JList [ref_to ("#/definitions/"
                                   ++ (removesuffix name "/returns"
                                       ++ "ReturnValue"));
                           null_spec])
                   d0)))
                schema (JDict d) _ Hspec eq_refl) as [schema' Hupd].
    rewrite Hupd. cbn [Py.bind]. exists schema'. split; [reflexivity|].
    destruct (update_path_get _ _ _ _ Hupd) as [v [v' [G [F G']]]].
    rewrite Hspec in G. inversion G; subst v. cbn [on_dict Py.bind] in F.
    inversion F; subst v'. exact G'. }
  split; [|split; [|split]].
  - intros nv x Hnv Hx Hm.
    assert (Hfound : found = Ok None).
    { subst members. rewrite (resolve_members_no_value _ _ _ Hnv) in Hres.
      bind_inv Hres. inversion Hres; subst rm. unfold found. cbn [map snd].
      now apply find_discriminator_no_value. }
    split; [exact Hfound|]. eapply Hrewrite; eauto.
  - intros nv x Hnv Hx Hm.
    destruct found as [[t|]|e] eqn:Hfound.
    + exfalso. destruct (find_discriminator_found _ _ _ Hfound) as [_ Hc].
      apply check_discriminator_true in Hc.
      subst members.
      destruct (resolve_members_second _ _ _ _ Hnv Hres) as [r [x' ->]].
      cbn [map snd] in Hc.
      inversion Hc as [|? ? _ Hc']; subst. inversion Hc' as [|? ? Hnvt _]; subst.
      exact (no_value_untagged _ _ Hnv Hnvt).
    + split; [reflexivity|]. eapply Hrewrite; eauto.
    + rewrite Hext. reflexivity.
  - intros a b Ha Hb Hm.
    assert (Hfound : found = Ok None).
    { subst members. rewrite (resolve_members_no_value _ _ _ Ha) in Hres.
      bind_inv Hres. inversion Hres; subst rm. unfold found. cbn [map snd].
      now apply find_discriminator_no_value. }
    split; [exact Hfound|].
    rewrite Hext, Hfound, Hrpc. cbv zeta.
    rewrite (is_void_union_none members); [reflexivity|].
    right. left. eauto.
  - intros Hcase Hnone. destruct found as [[t|]|e] eqn:Hfound.
    + now destruct (Hnone t).
    + rewrite Hext, Hrpc. cbv zeta.
      rewrite (is_void_union_none members); [reflexivity|].
      destruct Hcase as [Hlen | Hcase]; [now left | now right; right].
    + rewrite Hext. reflexivity.
Qed.

Lemma optional_result_rewrite_witness :
  find_discriminator _POTENTIAL_TAG_FIELDS
    [void_spec; JDict [("type", JStr "number")]] = Ok None
  /\ optional_result "Foo/returns" ["definitions"; "Foo/returns"]
       (JDict [("definitions", JDict [("Foo/returns",
          JDict [("anyOf",
                  JList [void_spec; JDict [("type", JStr "number")]])])])])
       [("anyOf", JList [void_spec; JDict [("type", JStr "number")]])]
       (JDict [("type", JStr "number")]).
Proof.
  refine (proj1 (optional_result_rewrite "Foo/returns"
            ["definitions"; "Foo/returns"]
            (JDict [("definitions", JDict [("Foo/returns",
               JDict [("anyOf",
                       JList [void_spec; JDict [("type", JStr "number")]])])])])
            [("anyOf", JList [void_spec; JDict [("type", JStr "number")]])]
            [void_spec; JDict [("type", JStr "number")]]
            [(Inline, void_spec); (Inline, JDict [("type", JStr "number")])]
            eq_refl eq_refl eq_refl eq_refl)
          void_spec (JDict [("type", JStr "number")]) _ _ eq_refl).
  - left; reflexivity.
  - intros [H | H]; discriminate H.
Defined.

(** C1, at the failing input: the union of [Foo/returns] has two members,
    the payload and the null schema, and no candidate tag field has every
    member pass the three tests, so the claim has the union rewritten.
    The test of the candidate [code] evaluates [field_def["type"]] on the
    payload, whose [code] property is a reference: the search for a
    discriminator raises [KeyError], and [_extract_union_variants] with
    it.  With the null schema first the union is rewritten. *)
Theorem optional_result_untyped_tag :
  endswith "Foo/returns" "/returns" = true
  /\ no_value null_spec /\ ~ no_value untyped_payload
  /\ (forall tag_field,
        ~ Forall (tagged_variant tag_field) [untyped_payload; null_spec])
  /\ _extract_union_variants "Foo/returns" ["definitions"; "Foo/returns"]
       untyped_result_document
     = Raise (KeyError "type")
  /\ ~ optional_result "Foo/returns" ["definitions"; "Foo/returns"]
         untyped_result_document
         [("anyOf", JList [untyped_payload; null_spec])] untyped_payload.
Proof.
  split; [reflexivity|]. split; [right; reflexivity|].
  split; [intros [H | H]; discriminate H|].
  split.
  - intros tag_field H. inversion H as [|? ? _ H']; subst.
    inversion H' as [|? ? Hnv _]; subst.
    refine (no_value_untagged _ _ _ Hnv). right; reflexivity.
  - split; [reflexivity|].
    intros [schema' [H _]]. discriminate H.
Qed.

(** ** Tag defaults of a discriminated union *)

Lemma set_tag_defaults_spec (tag_value : json) (tag_title : string)
    (tag_spec after : json) :
  subscript tag_spec "const" = Ok tag_value ->
  set_tag_defaults tag_value tag_title tag_spec = Ok after ->
  tag_defaults_set tag_title tag_spec after.
Proof.
  intros Hc H. destruct tag_spec as [| | | | |d]; simpl in *; try discriminate.
  apply item_ok in Hc. inversion H; subst after; clear H.
  eexists d, _, tag_value. repeat split; eauto.
  - rewrite get_setdefault_neq by discriminate. apply get_setdefault_eq.
  - rewrite get_setdefault_eq.
    now rewrite get_setdefault_neq by discriminate.
  - intros k Hd Ht. rewrite !get_setdefault_neq by congruence. reflexivity.
Qed.

Lemma variant_step_mutates (name discriminator tag_title : string)
    (spec_path : path) (idx : nat) (r : resolved) (st st' : variant_state) :
  variant_step name discriminator tag_title spec_path idx r st = Ok st' ->
  variant_mutated discriminator tag_title spec_path idx r st st'.
Proof.
  unfold variant_step, variant_mutated. destruct r as [spec_ref p|]; intros H.
  - bind_inv H. rename a into resolved_spec.
    bind_inv H. rename a into tag_spec.
    bind_inv H. rename a into tag_value.
    bind_inv H. bind_inv H. rename a0 into schema'.
    inversion H; subst st'; clear H. cbn [vs_schema].
    destruct (update_path_get _ _ _ _ E3) as [v [v' [G [F G']]]].
    rewrite get_path_app, E in G. cbn [Py.bind] in G.
    rewrite E0 in G. inversion G; subst v.
    exists tag_spec, v'. repeat split; auto.
    + rewrite get_path_app, E. cbn [Py.bind]. exact E0.
    + eapply set_tag_defaults_spec; eauto.
  - bind_inv H. rename a into spec.
    bind_inv H. rename a into members.
    bind_inv H. rename a into resolved_spec.
    bind_inv H. rename a into tag_spec.
    bind_inv H. rename a into tag_value.
    bind_inv H. rename a into new_spec_name.
    bind_inv H. bind_inv H. bind_inv H. bind_inv H. rename a2 into extracted.
    inversion H; subst st'; clear H. cbn [vs_new_defs].
    destruct (update_path_get _ _ _ _ E8) as [v [v' [G [F G']]]].
    rewrite E2 in G. inversion G; subst v.
    exists spec, members, resolved_spec, new_spec_name, extracted, tag_spec, v'.
    repeat split; auto.
    + unfold list_item in E1. destruct (nth_error members idx); congruence.
    + apply get_set_eq.
    + eapply set_tag_defaults_spec; eauto.
Qed.

(** The second loop runs its rounds in order: the round of the [i]-th
    variant starts from the state the earlier rounds left. *)
Lemma variant_loop_round (name discriminator tag_title : string)
    (spec_path : path) (rs : list resolved) :
  forall (idx0 : nat) (st st_end : variant_state) (i : nat) (r : resolved),
    variant_loop name discriminator tag_title spec_path idx0 rs st = Ok st_end ->
    nth_error rs i = Some r ->
    exists st_a st_b,
      variant_loop name discriminator tag_title spec_path idx0 (firstn i rs) st
      = Ok st_a
      /\ variant_step name discriminator tag_title spec_path (idx0 + i) r st_a
         = Ok st_b
      /\ variant_loop name discriminator tag_title spec_path (S (idx0 + i))
           (skipn (S i) rs) st_b = Ok st_end.
Proof.
  induction rs as [|r0 rs IH]; intros idx0 st st_end i r H Hi.
  - destruct i; discriminate.
  - simpl in H. bind_inv H. destruct i as [|i]; simpl in Hi.
    + inversion Hi; subst r0. exists st, a. rewrite Nat.add_0_r. auto.
    + destruct (IH _ _ _ _ _ H Hi) as [st_a [st_b [Ha [Hb Hc]]]].
      exists st_a, st_b. simpl. rewrite E. cbn [Py.bind].
      rewrite Nat.add_succ_r. auto.
Qed.

Lemma mem_set_mono {V} (n k : string) (v : V) (d : dict V) :
  Py.mem n d = true -> Py.mem n (Py.set k v d) = true.
Proof.
  intros H. destruct (string_dec k n) as [->|Hne].
  - unfold Py.mem. now rewrite get_set_eq.
  - unfold Py.mem in *. now rewrite get_set_neq.
Qed.

(** ** Mutations elsewhere in the document *)

Lemma is_prefix_app (p : path) :
  forall q, is_prefix p q = true -> exists rest, q = p ++ rest.
Proof.
  induction p as [|a p IH]; intros q H; cbn [is_prefix] in H.
  - exists q. reflexivity.
  - destruct q as [|b q]; [discriminate|].
    apply andb_true_iff in H. destruct H as [Hab Hpq].
    apply String.eqb_eq in Hab. subst b.
    destruct (IH _ Hpq) as [rest ->]. exists rest. reflexivity.
Qed.

Lemma is_prefix_app_r (p rest : path) : is_prefix p (p ++ rest) = true.
Proof.
  induction p as [|a p IH]; cbn [is_prefix app]; [reflexivity|].
  now rewrite String.eqb_refl, IH.
Qed.

(** A mutation at the path [q] leaves what is read at a path [p] that is
    no initial part of [q], as long as the mutation itself keeps what [p]
    reads below [q]. *)
Lemma update_path_frame (f : json -> result json) (q : path) :
  forall (p : path) (s s' x : json),
    update_path q f s = Ok s' ->
    get_path p s = Ok x ->
    is_prefix p q = false ->
    (forall rest v v',
       p = q ++ rest -> get_path q s = Ok v -> f v = Ok v' ->
       get_path rest v = Ok x -> get_path rest v' = Ok x) ->
    get_path p s' = Ok x.
Proof.
  induction q as [|k q IH]; intros p s s' x Hupd Hget Hpre Hkeep.
  - cbn [update_path] in Hupd. exact (Hkeep p s s' eq_refl eq_refl Hupd Hget).
  - cbn [update_path] in Hupd. destruct s as [| | | | |d]; try discriminate.
    bind_inv Hupd. rename a into v. bind_inv Hupd. rename a into v'.
    inversion Hupd; subst s'; clear Hupd.
    destruct p as [|k' p]; [discriminate Hpre|].
    cbn [is_prefix] in Hpre. cbn [get_path subscript] in Hget |- *.
    destruct (String.eqb k' k) eqn:Ek.
    + apply String.eqb_eq in Ek. subst k'. cbn [andb] in Hpre.
      rewrite E in Hget. cbn [Py.bind] in Hget.
      unfold Py.item. rewrite get_set_eq. cbn [Py.bind].
      apply (IH p v v' x E0 Hget Hpre).
      intros rest w w' Hp Hw Hf Hr. apply (Hkeep rest w w'); auto.
      * now rewrite Hp.
      * cbn [get_path subscript]. rewrite E. exact Hw.
    + unfold Py.item in *. rewrite get_set_neq; [exact Hget|].
      intros ->. now rewrite String.eqb_refl in Ek.
Qed.

Lemma set_tag_defaults_keeps (tag_value : json) (tag_title : string)
    (v v' : json) (k : string) (w : json) :
  set_tag_defaults tag_value tag_title v = Ok v' ->
  subscript v k = Ok w -> subscript v' k = Ok w.
Proof.
  intros H Hk. destruct v as [| | | | |d]; try discriminate.
  cbn [set_tag_defaults on_dict Py.bind] in H. inversion H; subst v'; clear H.
  cbn [subscript] in *. apply item_ok in Hk. apply item_ok.
  assert (Hkeep : forall a (x : json) (e : dict json),
             Py.get k e = Some w -> Py.get k (Py.setdefault a x e) = Some w).
  { intros a x e He. destruct (string_dec a k) as [->|Hne].
    - now rewrite get_setdefault_eq, He.
    - now rewrite get_setdefault_neq. }
  now apply Hkeep, Hkeep.
Qed.

(** The two [setdefault] calls at [q] leave what is read at [p]. *)
Lemma frame_tag_defaults (tag_value : json) (tag_title : string)
    (p q : path) (s s' x : json) :
  update_path q (set_tag_defaults tag_value tag_title) s = Ok s' ->
  get_path p s = Ok x ->
  is_prefix p q = false ->
  get_path p s' = Ok x.
Proof.
  intros Hupd Hget Hpre. apply (update_path_frame _ _ _ _ _ _ Hupd Hget Hpre).
  intros rest v v' Hp Hv Hf Hr. destruct rest as [|k rest].
  - rewrite app_nil_r in Hp. subst p.
    rewrite <- (app_nil_r q) in Hpre at 2. rewrite is_prefix_app_r in Hpre.
    discriminate.
  - cbn [get_path] in Hr |- *. bind_inv Hr.
    now rewrite (set_tag_defaults_keeps _ _ _ _ _ _ Hf E).
Qed.

(** An assignment to the key [key] of the dictionary at [q] leaves what is
    read at [p], unless [p] goes through that key. *)
Lemma frame_set_key (key : string) (value : json)
    (p q : path) (s s' x : json) :
  update_path q (on_dict (fun d => Ok (Py.set key value d))) s = Ok s' ->
  get_path p s = Ok x ->
  is_prefix p q = false ->
  is_prefix (q ++ [key]) p = false ->
  get_path p s' = Ok x.
Proof.
  intros Hupd Hget Hpre Hkey.
  apply (update_path_frame _ _ _ _ _ _ Hupd Hget Hpre).
  intros rest v v' Hp Hv Hf Hr. destruct rest as [|k rest].
  - rewrite app_nil_r in Hp. subst p.
    rewrite <- (app_nil_r q) in Hpre at 2. rewrite is_prefix_app_r in Hpre.
    discriminate.
  - destruct v as [| | | | |d]; try discriminate.
    cbn [on_dict Py.bind] in Hf. inversion Hf; subst v'; clear Hf.
    cbn [get_path subscript] in Hr |- *. unfold Py.item in *.
    rewrite get_set_neq; [exact Hr|].
    intros ->. subst p.
    change (q ++ k :: rest) with (q ++ [k] ++ rest) in Hkey.
    rewrite app_assoc, is_prefix_app_r in Hkey. discriminate.
Qed.

Lemma anyOf_list_inv (spec : json) (ms : list json) :
  anyOf_list spec = Ok ms -> subscript spec "anyOf" = Ok (JList ms).
Proof.
  unfold anyOf_list. intros H. bind_inv H.
  destruct a; try discriminate. now inversion H; subst.
Qed.

(** The assignment to ["anyOf"] of the union at [spec_path] leaves what is
    read at [p], when that is no list. *)
Lemma frame_anyOf (members' : list json) (p spec_path : path)
    (s s' x spec : json) (ms : list json) :
  update_path spec_path
    (on_dict (fun d => Ok (Py.set "anyOf" (JList members') d))) s = Ok s' ->
  get_path spec_path s = Ok spec ->
  anyOf_list spec = Ok ms ->
  get_path p s = Ok x ->
  is_prefix p spec_path = false ->
  (forall l, x <> JList l) ->
  get_path p s' = Ok x.
Proof.
  intros Hupd Hspec Hany Hget Hpre Hx.
  apply (update_path_frame _ _ _ _ _ _ Hupd Hget Hpre).
  intros rest v v' Hp Hv Hf Hr. destruct rest as [|k rest].
  - rewrite app_nil_r in Hp. subst p.
    rewrite <- (app_nil_r spec_path) in Hpre at 2.
    rewrite is_prefix_app_r in Hpre. discriminate.
  - assert (v = spec) by congruence. subst v.
    apply anyOf_list_inv in Hany.
    destruct spec as [| | | | |d]; try discriminate.
    cbn [on_dict Py.bind] in Hf. inversion Hf; subst v'; clear Hf.
    cbn [get_path] in Hr |- *.
    destruct (string_dec k "anyOf") as [-> | Hne].
    + exfalso. rewrite Hany in Hr. cbn [Py.bind] in Hr.
      destruct rest as [|k2 rest]; cbn [get_path subscript Py.bind] in Hr.
      * inversion Hr. eapply Hx; eauto.
      * discriminate.
    + cbn [subscript] in *. unfold Py.item in *.
      rewrite get_set_neq; [exact Hr | congruence].
Qed.

Lemma tag_defaults_set_dict (tag_title : string) (before after : json) :
  tag_defaults_set tag_title before after ->
  (forall l, before <> JList l) /\ (forall l, after <> JList l).
Proof.
  intros [d [d' [tv [-> [-> _]]]]]. split; intros l; discriminate.
Qed.

(** Setting the defaults of a tag-field subschema a second time changes
    nothing. *)
Lemma tag_defaults_set_trans (tag_title : string) (a b c : json) :
  tag_defaults_set tag_title a b ->
  tag_defaults_set tag_title b c ->
  tag_defaults_set tag_title a c.
Proof.
  intros [d [d' [tv [-> [-> [Hc [Hd [Ht Ho]]]]]]]]
         [e [e' [tv' [He [-> [Hc' [Hd' [Ht' Ho']]]]]]]].
  inversion He; subst e; clear He.
  exists d, e', tv. repeat split; auto.
  - rewrite Hd', Hd. reflexivity.
  - rewrite Ht', Ht. reflexivity.
  - intros k Hk1 Hk2. rewrite Ho' by assumption. now apply Ho.
Qed.

(** The round of a variant referenced at [p'] leaves what is read at a
    path that is no initial part of its tag-field subschema. *)
Lemma variant_step_ref_frame name discriminator tag_title spec_path idx
    (spec_ref : string) (p' q : path) (st st' : variant_state) (x : json) :
  variant_step name discriminator tag_title spec_path idx (ByRef spec_ref p') st
  = Ok st' ->
  is_prefix q (tag_path discriminator p') = false ->
  get_path q (vs_schema st) = Ok x ->
  get_path q (vs_schema st') = Ok x.
Proof.
  intros H Hpre Hget. unfold variant_step in H.
  repeat bind_inv H. inversion H; subst st'; clear H. cbn [vs_schema].
  eapply frame_tag_defaults; eauto.
Qed.

(** The round of an anonymous variant leaves what is read at a path that
    is no initial part of the path of the union. *)
Lemma variant_step_inline_frame name discriminator tag_title spec_path idx
    (q : path) (st st' : variant_state) (x : json) :
  variant_step name discriminator tag_title spec_path idx Inline st = Ok st' ->
  is_prefix q spec_path = false ->
  (forall l, x <> JList l) ->
  get_path q (vs_schema st) = Ok x ->
  get_path q (vs_schema st') = Ok x.
Proof.
  intros H Hpre Hx Hget. unfold variant_step in H.
  repeat bind_inv H. inversion H; subst st'; clear H. cbn [vs_schema].
  eapply frame_anyOf; eauto.
Qed.

(** The tag-field subschema of a variant referenced at [p], from the
    document the loop starts with to the document it ends with. *)
Lemma variant_loop_tag name discriminator tag_title spec_path
    (p : path) (before : json) :
  is_prefix (tag_path discriminator p) spec_path = false ->
  (forall l, before <> JList l) ->
  forall rs idx st st_end,
    variant_loop name discriminator tag_title spec_path idx rs st = Ok st_end ->
    Forall (fun r =>
              match r with
              | ByRef _ p' =>
                  p' = p
                  \/ is_prefix (tag_path discriminator p)
                       (tag_path discriminator p') = false
              | Inline => True
              end) rs ->
    (exists after,
        get_path (tag_path discriminator p) (vs_schema st) = Ok after
        /\ tag_defaults_set tag_title before after)
    \/ (get_path (tag_path discriminator p) (vs_schema st) = Ok before
        /\ exists spec_ref, In (ByRef spec_ref p) rs) ->
    exists after,
      get_path (tag_path discriminator p) (vs_schema st_end) = Ok after
      /\ tag_defaults_set tag_title before after.
Proof.
  intros Hunion Hbefore.
  induction rs as [|r rs IH]; intros idx st st_end H Hall Hinv;
    cbn [variant_loop] in H.
  - inversion H; subst st_end.
    destruct Hinv as [Hpost | [_ [spec_ref []]]]. exact Hpost.
  - bind_inv H. rename a into st1.
    inversion Hall as [|? ? Hr Hrs]; subst.
    apply (IH _ _ _ H Hrs).
    destruct r as [spec_ref' p'|].
    + destruct (list_eq_dec string_dec p' p) as [-> | Hne].
      * left. pose proof (variant_step_mutates _ _ _ _ _ _ _ _ E) as Hm.
        cbn [variant_mutated] in Hm.
        destruct Hm as [b [a [Hb [Ha Hset]]]]. fold (tag_path discriminator p) in *.
        exists a. split; [exact Ha|].
        destruct Hinv as [[after [Hafter Hpost]] | [Hpre _]].
        -- assert (b = after) by congruence. subst b.
           eapply tag_defaults_set_trans; eauto.
        -- assert (b = before) by congruence. now subst b.
      * destruct Hr as [Heq | Hpre']; [congruence|].
        destruct Hinv as [[after [Hafter Hpost]] | [Hpre [spec_ref Hin]]].
        -- left. exists after. split; [|exact Hpost].
           eapply variant_step_ref_frame; eauto.
        -- right. split; [eapply variant_step_ref_frame; eauto|].
           exists spec_ref. destruct Hin as [Heq | Hin]; [|exact Hin].
           inversion Heq. congruence.
    + destruct Hinv as [[after [Hafter Hpost]] | [Hpre [spec_ref Hin]]].
      * left. exists after. split; [|exact Hpost].
        eapply variant_step_inline_frame; eauto.
        exact (proj2 (tag_defaults_set_dict _ _ _ Hpost)).
      * right. split; [eapply variant_step_inline_frame; eauto|].
        exists spec_ref. destruct Hin as [Heq | Hin]; [discriminate | exact Hin].
Qed.

Lemma list_set_nth {A} (v : A) :
  forall (i : nat) (l l' : list A),
    list_set i v l = Ok l' ->
    forall k, k <> i -> nth_error l' k = nth_error l k.
Proof.
  induction i as [|i IH]; intros l l' H k Hk; destruct l as [|x l];
    cbn [list_set] in H; try discriminate.
  - inversion H; subst. destruct k; [congruence | reflexivity].
  - bind_inv H. inversion H; subst.
    destruct k as [|k]; [reflexivity|]. cbn [nth_error].
    apply (IH _ _ E). congruence.
Qed.

Lemma nth_error_app_l {A} (l l' : list A) (i : nat) (x : A) :
  nth_error l i = Some x -> nth_error (l ++ l') i = Some x.
Proof.
  intros H. rewrite nth_error_app1; [exact H|].
  apply nth_error_Some. congruence.
Qed.

Lemma nth_error_snoc {A} (l : list A) (r x : A) (i : nat) :
  nth_error (l ++ [r]) i = Some x ->
  nth_error l i = Some x \/ (i = List.length l /\ x = r).
Proof.
  intros H. destruct (Nat.lt_ge_cases i (List.length l)) as [Hlt | Hge].
  - left. now rewrite nth_error_app1 in H.
  - right. rewrite nth_error_app2 in H by assumption.
    destruct (i - List.length l) as [|n] eqn:En; cbn in H.
    + inversion H. split; [lia | reflexivity].
    + destruct n; discriminate.
Qed.

(** One round of the second loop, for the anonymous variants: the member
    list of the union keeps the members of the rounds to come, every
    anonymous variant processed so far is registered, and every registered
    definition is such a variant with the defaults of its tag set. *)
Lemma variant_step_anonymous name discriminator tag_title spec_path
    (ms0 : list json) (done : list resolved) (r : resolved)
    (st st' : variant_state) :
  variant_step name discriminator tag_title spec_path (List.length done) r st
  = Ok st' ->
  (exists ms,
      get_path (spec_path ++ ["anyOf"]) (vs_schema st) = Ok (JList ms)
      /\ forall k, List.length done <= k -> nth_error ms k = nth_error ms0 k) ->
  (forall i, nth_error done i = Some Inline ->
     anonymous_registered name discriminator ms0 (vs_new_defs st) i) ->
  (forall n e, Py.get n (vs_new_defs st) = Some e ->
     extracted_from name discriminator tag_title done ms0 n e) ->
  (exists ms,
      get_path (spec_path ++ ["anyOf"]) (vs_schema st') = Ok (JList ms)
      /\ forall k, S (List.length done) <= k ->
                   nth_error ms k = nth_error ms0 k)
  /\ (forall i, nth_error (done ++ [r]) i = Some Inline ->
        anonymous_registered name discriminator ms0 (vs_new_defs st') i)
  /\ (forall n e, Py.get n (vs_new_defs st') = Some e ->
        extracted_from name discriminator tag_title (done ++ [r]) ms0 n e).
Proof.
  intros H [ms [Hms Hkeep]] Hreg Hext.
  assert (Hext' : forall n e,
             extracted_from name discriminator tag_title done ms0 n e ->
             extracted_from name discriminator tag_title (done ++ [r]) ms0 n e).
  { intros n e [i [m [b [a [tv [Hi Hrest]]]]]].
    exists i, m, b, a, tv. split; [now apply nth_error_app_l | exact Hrest]. }
  unfold variant_step in H. destruct r as [spec_ref p|].
  - bind_inv H. rename a into resolved_spec.
    bind_inv H. rename a into tag_spec.
    bind_inv H. rename a into tag_value.
    bind_inv H. bind_inv H. rename a0 into schema'.
    inversion H; subst st'; clear H. cbn [vs_schema vs_new_defs].
    split; [|split].
    + exists ms. split; [|intros k Hk; apply Hkeep; lia].
      eapply frame_tag_defaults; [exact E3 | exact Hms |].
      destruct (is_prefix (spec_path ++ ["anyOf"])
                  (p ++ ["properties"; discriminator])) eqn:Hpre;
        [|reflexivity].
      exfalso. apply is_prefix_app in Hpre. destruct Hpre as [rest Hrest].
      destruct (update_path_get _ _ _ _ E3) as [v [v' [G [F _]]]].
      rewrite Hrest, get_path_app, Hms in G. cbn [Py.bind] in G.
      destruct rest as [|k rest]; cbn [get_path subscript Py.bind] in G.
      * inversion G; subst v. discriminate F.
      * discriminate G.
    + intros i Hi. apply nth_error_snoc in Hi.
      destruct Hi as [Hi | [_ Hi]]; [now apply Hreg | discriminate Hi].
    + intros n e Hn. apply Hext'. now apply Hext.
  - bind_inv H. rename a into spec.
    bind_inv H. rename a into members.
    bind_inv H. rename a into resolved_spec.
    bind_inv H. rename a into tag_spec.
    bind_inv H. rename a into tag_value.
    bind_inv H. rename a into new_spec_name.
    bind_inv H. rename a into members'.
    bind_inv H. rename a into schema'.
    bind_inv H. bind_inv H. rename a0 into extracted.
    inversion H; subst st'; clear H. cbn [vs_schema vs_new_defs].
    assert (Hmembers : members = ms).
    { rewrite get_path_app, E in Hms. cbn [Py.bind get_path] in Hms.
      bind_inv Hms. apply anyOf_list_inv in E0. congruence. }
    subst members.
    assert (Hmember : nth_error ms0 (List.length done) = Some resolved_spec).
    { rewrite <- Hkeep by lia. unfold list_item in E1.
      destruct (nth_error ms (List.length done)); congruence. }
    assert (Hset : tag_defaults_set tag_title tag_spec
                     (match get_path ["properties"; discriminator] extracted
                      with Ok a => a | Raise _ => JNull end)
                   /\ exists a, get_path ["properties"; discriminator] extracted
                                = Ok a).
    { destruct (update_path_get _ _ _ _ E8) as [v [v' [G [F G']]]].
      rewrite E2 in G. inversion G; subst v. rewrite G'.
      split; [|eauto]. eapply set_tag_defaults_spec; eauto. }
    destruct Hset as [Hset [after Hafter]]. rewrite Hafter in Hset.
    split; [|split].
    + exists members'. split.
      * destruct (update_path_get _ _ _ _ E6) as [v [v' [G [F G']]]].
        rewrite get_path_app, G'. cbn [Py.bind].
        destruct v as [| | | | |d]; try discriminate F.
        cbn [on_dict Py.bind] in F. inversion F; subst v'.
        cbn [get_path subscript]. unfold Py.item. now rewrite get_set_eq.
      * intros k Hk. rewrite (list_set_nth _ _ _ _ E5) by lia.
        apply Hkeep. lia.
    + intros i Hi. apply nth_error_snoc in Hi. destruct Hi as [Hi | [-> _]].
      * destruct (Hreg i Hi) as [m [tv [n [Hm [Hc [Hname Hmem]]]]]].
        exists m, tv, n. repeat split; auto. now apply mem_set_mono.
      * exists resolved_spec, tag_value, new_spec_name. repeat split; auto.
        -- change ["properties"; discriminator; "const"]
             with (["properties"; discriminator] ++ ["const"]).
           rewrite get_path_app, E2. cbn [Py.bind get_path].
           now rewrite E3.
        -- unfold Py.mem. now rewrite get_set_eq.
    + intros n e Hn. destruct (string_dec new_spec_name n) as [-> | Hne].
      * rewrite get_set_eq in Hn. inversion Hn; subst e.
        exists (List.length done), resolved_spec, tag_spec, after, tag_value.
        repeat split; auto.
        rewrite nth_error_app2 by lia. now rewrite Nat.sub_diag.
      * rewrite get_set_neq in Hn by assumption. apply Hext'. now apply Hext.
Qed.

Lemma variant_loop_anonymous name discriminator tag_title spec_path
    (ms0 : list json) :
  forall (rs done : list resolved) (st st_end : variant_state),
    variant_loop name discriminator tag_title spec_path (List.length done) rs st
    = Ok st_end ->
    (exists ms,
        get_path (spec_path ++ ["anyOf"]) (vs_schema st) = Ok (JList ms)
        /\ forall k, List.length done <= k ->
                     nth_error ms k = nth_error ms0 k) ->
    (forall i, nth_error done i = Some Inline ->
       anonymous_registered name discriminator ms0 (vs_new_defs st) i) ->
    (forall n e, Py.get n (vs_new_defs st) = Some e ->
       extracted_from name discriminator tag_title done ms0 n e) ->
    (forall i, nth_error (done ++ rs) i = Some Inline ->
       anonymous_registered name discriminator ms0 (vs_new_defs st_end) i)
    /\ (forall n e, Py.get n (vs_new_defs st_end) = Some e ->
          extracted_from name discriminator tag_title (done ++ rs) ms0 n e).
Proof.
  induction rs as [|r rs IH]; intros done st st_end H Hms Hreg Hext;
    cbn [variant_loop] in H.
  - inversion H; subst st_end. rewrite app_nil_r. auto.
  - bind_inv H. rename a into st1.
    destruct (variant_step_anonymous _ _ _ _ _ _ _ _ _ E Hms Hreg Hext)
      as [Hms1 [Hreg1 Hext1]].
    replace (done ++ r :: rs) with ((done ++ [r]) ++ rs)
      by (rewrite <- app_assoc; reflexivity).
    apply (IH (done ++ [r]) st1 st_end).
    + rewrite length_app. cbn [List.length].
      now replace (List.length done + 1) with (S (List.length done)) by lia.
    + rewrite length_app. cbn [List.length].
      now replace (List.length done + 1) with (S (List.length done)) by lia.
    + exact Hreg1.
    + exact Hext1.
Qed.

Lemma resolve_json_ref_path (schema : json) (ref : string) (p : path)
    (target : json) :
  _resolve_json_ref schema ref = Ok (p, target) ->
  get_path p schema = Ok target.
Proof.
  unfold _resolve_json_ref. destruct (Py.split "/" ref) as [|p0 rest];
    [discriminate|].
  destruct (negb (String.eqb p0 "#")); [discriminate|].
  destruct rest as [|k rest]; [discriminate|].
  intros H. bind_inv H. inversion H; subst. exact E.
Qed.

(** A member resolved through a reference is the object found at the path
    of the reference. *)
Lemma resolve_members_ref (schema : json) :
  forall (union_member_specs : list json) (members : list (resolved * json))
         (i : nat) (spec_ref : string) (p : path),
    resolve_members schema union_member_specs = Ok members ->
    nth_error (map fst members) i = Some (ByRef spec_ref p) ->
    exists resolved_spec,
      nth_error (map snd members) i = Some resolved_spec
      /\ get_path p schema = Ok resolved_spec.
Proof.
  induction union_member_specs as [|m ms IH];
    intros members i spec_ref p H Hi; cbn [resolve_members] in H.
  - inversion H; subst. destruct i; discriminate.
  - bind_inv H. rename a into existing_ref. bind_inv H. rename a into r.
    bind_inv H. rename a into rs. inversion H; subst members; clear H.
    destruct i as [|i]; cbn [map nth_error] in Hi |- *.
    + destruct r as [r0 e]. cbn [fst snd] in *. inversion Hi; subst r0.
      exists e. split; [reflexivity|].
      destruct (truthy existing_ref); [|discriminate].
      destruct existing_ref; try discriminate.
      bind_inv E0. destruct a as [p' e']. inversion E0; subst.
      eapply resolve_json_ref_path; eauto.
    + eapply IH; eauto.
Qed.

(** When [_extract_union_variants] returns for a discriminated union, its
    second loop has run to its end. *)
Lemma extract_runs_loop
    (name : string) (spec_path : path) (schema schema' : json) (spec : json)
    (union_member_specs : list json) (members : list (resolved * json))
    (discriminator : string) (new_defs : option _SchemaDef) :
  get_path spec_path schema = Ok spec ->
  anyOf_list spec = Ok union_member_specs ->
  resolve_members schema union_member_specs = Ok members ->
  find_discriminator _POTENTIAL_TAG_FIELDS (map snd members)
  = Ok (Some discriminator) ->
  _extract_union_variants name spec_path schema = Ok (new_defs, schema') ->
  exists st_end,
    variant_loop name discriminator (capitalize discriminator) spec_path 0
      (map fst members) (variant_start schema) = Ok st_end.
Proof.
  intros Hspec Hany Hres Hdisc Hrun. unfold _extract_union_variants in Hrun.
  rewrite Hspec in Hrun. cbn [Py.bind] in Hrun.
  rewrite Hany in Hrun. cbn [Py.bind] in Hrun.
  rewrite Hres in Hrun. cbn [Py.bind] in Hrun.
  rewrite Hdisc in Hrun. cbn [Py.bind] in Hrun. cbv zeta in Hrun.
  bind_inv Hrun. exists a. exact E.
Qed.

(** C9: a union that [_extract_union_variants] infers as discriminated on a
    candidate tag field, with the second loop of the function run to its
    end, as it has whenever the function returns.  Every variant has had its round, and the round has set, in the
    tag-field subschema of the variant, ["default"] to the constant tag
    value and ["title"] to the capitalized tag-field name, each only if the
    key was absent (a present value is kept).  For a referenced variant
    whose tag-field subschema stands apart, the subschema in the document
    the loop ends with is the one of the input document with exactly these
    defaults set.  Every anonymous variant is registered under the name
    made of the union's name and its tag constant, and every registered
    definition is an anonymous variant with these defaults set.  What the
    function returns are these definitions and this document, which
    differs only in the ["discriminator"] of the union. *)
Theorem discriminated_union_sets_tag_defaults
    (name : string) (spec_path : path) (schema : json) (spec : json)
    (union_member_specs : list json) (members : list (resolved * json))
    (discriminator : string) (st_end : variant_state)
    (Hspec : get_path spec_path schema = Ok spec)
    (Hany : anyOf_list spec = Ok union_member_specs)
    (Hres : resolve_members schema union_member_specs = Ok members)
    (Hdisc : find_discriminator _POTENTIAL_TAG_FIELDS (map snd members)
             = Ok (Some discriminator))
    (Hloop : variant_loop name discriminator (capitalize discriminator)
               spec_path 0 (map fst members) (variant_start schema)
             = Ok st_end) :
  let tag_title := capitalize discriminator in
  (forall (i : nat) (r : resolved),
     nth_error (map fst members) i = Some r ->
     exists st st',
       variant_loop name discriminator tag_title spec_path 0
         (firstn i (map fst members)) (variant_start schema) = Ok st
       /\ variant_step name discriminator tag_title spec_path i r st = Ok st'
       /\ variant_mutated discriminator tag_title spec_path i r st st')
  /\ (forall (i : nat) (spec_ref : string) (p : path),
        nth_error (map fst members) i = Some (ByRef spec_ref p) ->
        tag_apart discriminator spec_path (map fst members) p = true ->
        exists before after,
          get_path (tag_path discriminator p) schema = Ok before
          /\ get_path (tag_path discriminator p) (vs_schema st_end) = Ok after
          /\ tag_defaults_set tag_title before after)
  /\ (forall i : nat,
        nth_error (map fst members) i = Some Inline ->
        anonymous_registered name discriminator union_member_specs
          (vs_new_defs st_end) i)
  /\ (forall (new_spec_name : string) (extracted : json),
        Py.get new_spec_name (vs_new_defs st_end) = Some extracted ->
        extracted_from name discriminator tag_title (map fst members)
          union_member_specs new_spec_name extracted)
  /\ (forall (new_defs : option _SchemaDef) (schema' : json),
        _extract_union_variants name spec_path schema = Ok (new_defs, schema') ->
        new_defs = Some (vs_new_defs st_end)
        /\ forall (spec_ref : string) (p : path) (x : json),
             In (ByRef spec_ref p) (map fst members) ->
             is_prefix (tag_path discriminator p) spec_path = false ->
             is_prefix (spec_path ++ ["discriminator"])
               (tag_path discriminator p) = false ->
             get_path (tag_path discriminator p) (vs_schema st_end) = Ok x ->
             get_path (tag_path discriminator p) schema' = Ok x).
Proof.
  intros tag_title. split; [|split; [|split; [|split]]].
  - intros i r Hi.
    destruct (variant_loop_round _ _ _ _ _ _ _ _ _ _ Hloop Hi)
      as [st_a [st_b [Ha [Hb _]]]].
    exists st_a, st_b. repeat split; auto.
    eapply variant_step_mutates; eauto.
  - intros i spec_ref p Hi Hapart.
    unfold tag_apart in Hapart. apply andb_true_iff in Hapart.
    destruct Hapart as [Hunion Hothers].
    apply negb_true_iff in Hunion.
    destruct (resolve_members_ref _ _ _ _ _ _ Hres Hi) as [e [He Hp]].
    destruct (find_discriminator_found _ _ _ Hdisc) as [_ Hcheck].
    apply check_discriminator_true in Hcheck.
    rewrite Forall_forall in Hcheck.
    destruct (Hcheck e (nth_error_In _ _ He))
      as [d [props [field_def [tv [-> [Hprops [Hfield _]]]]]]].
    assert (Hbefore : get_path (tag_path discriminator p) schema
                      = Ok (JDict field_def)).
    { unfold tag_path. rewrite get_path_app, Hp.
      cbn [Py.bind get_path subscript]. unfold Py.item.
      rewrite Hprops. cbn [Py.bind subscript]. unfold Py.item.
      now rewrite Hfield. }
    exists (JDict field_def). 
    destruct (variant_loop_tag name discriminator tag_title spec_path p
                (JDict field_def) Hunion ltac:(intros l; discriminate)
                _ _ _ _ Hloop) as [after [Hafter Hset]].
    + apply Forall_forall. intros r Hr.
      rewrite forallb_forall in Hothers. specialize (Hothers r Hr).
      destruct r as [ref' p'|]; [|exact I].
      apply orb_true_iff in Hothers. destruct Hothers as [Heq | Hpre].
      * left. unfold path_eqb in Heq.
        destruct (list_eq_dec string_dec p' p); [assumption | discriminate].
      * right. now apply negb_true_iff in Hpre.
    + right. split; [exact Hbefore|].
      exists spec_ref. eapply nth_error_In; eauto.
    + exists after. auto.
  - intros i Hi.
    destruct (variant_loop_anonymous name discriminator tag_title spec_path
                union_member_specs (map fst members) [] _ _ Hloop)
      as [Hreg _]; try (intros; discriminate).
    + exists union_member_specs. split; [|reflexivity].
      cbn [variant_start vs_schema]. rewrite get_path_app, Hspec.
      cbn [Py.bind get_path]. now rewrite (anyOf_list_inv _ _ Hany).
    + intros j Hj. destruct j; discriminate.
    + now apply Hreg.
  - intros n e Hn.
    destruct (variant_loop_anonymous name discriminator tag_title spec_path
                union_member_specs (map fst members) [] _ _ Hloop)
      as [_ Hext]; try (intros; discriminate).
    + exists union_member_specs. split; [|reflexivity].
      cbn [variant_start vs_schema]. rewrite get_path_app, Hspec.
      cbn [Py.bind get_path]. now rewrite (anyOf_list_inv _ _ Hany).
    + intros j Hj. destruct j; discriminate.
    + now apply Hext.
  - intros new_defs schema' Hrun.
    unfold _extract_union_variants in Hrun.
    rewrite Hspec in Hrun. cbn [Py.bind] in Hrun.
    rewrite Hany in Hrun. cbn [Py.bind] in Hrun.
    rewrite Hres in Hrun. cbn [Py.bind] in Hrun.
    rewrite Hdisc in Hrun. cbn [Py.bind] in Hrun. cbv zeta in Hrun.
    change {| vs_schema := schema; vs_new_defs := []; vs_map := [] |}
      with (variant_start schema) in Hrun.
    fold tag_title in Hrun. unfold tag_title in Hrun.
    rewrite Hloop in Hrun. cbn [Py.bind] in Hrun.
    bind_inv Hrun. bind_inv Hrun. inversion Hrun; subst; clear Hrun.
    split; [reflexivity|].
    intros spec_ref p x _ Hunion Hkey Hget.
    eapply frame_set_key; eauto.
Qed.

Lemma discriminated_union_sets_tag_defaults_witness :
  exists new_defs schema' after,
    _extract_union_variants "Shape" ["definitions"; "Shape"] shape_document
    = Ok (new_defs, schema')
    /\ get_path (tag_path "type" ["definitions"; "Circle"]) schema' = Ok after
    /\ tag_defaults_set "Type"
         (JDict [("type", JStr "string"); ("const", JStr "circle");
                 ("title", JStr "Kind")])
         after.
Proof.
  destruct (_extract_union_variants "Shape" ["definitions"; "Shape"]
              shape_document) as [[new_defs schema']|e] eqn:Hrun;
    [|discriminate Hrun].
  destruct (variant_loop "Shape" "type" (capitalize "type")
              ["definitions"; "Shape"] 0
              [ByRef "#/definitions/Circle" ["definitions"; "Circle"]; Inline]
              (variant_start shape_document)) as [st_end|e] eqn:Hloop;
    [|discriminate Hloop].
  destruct (discriminated_union_sets_tag_defaults "Shape"
              ["definitions"; "Shape"] shape_document _ _
              [(ByRef "#/definitions/Circle" ["definitions"; "Circle"],
                JDict [("type", JStr "object");
                       ("properties", JDict [
                          ("type", JDict [("type", JStr "string");
                                          ("const", JStr "circle");
                                          ("title", JStr "Kind")])])]);
               (Inline,
                JDict [("type", JStr "object");
                       ("properties", JDict [
                          ("type", JDict [("type", JStr "string");
                                          ("const", JStr "square")])])])]
              "type" st_end eq_refl eq_refl eq_refl eq_refl Hloop)
    as [_ [Hrefs [_ [_ Hret]]]].
  destruct (Hrefs 0 "#/definitions/Circle" ["definitions"; "Circle"]
              eq_refl eq_refl)
    as [before [after [Hbefore [Hafter Hset]]]].
  destruct (Hret new_defs schema' Hrun) as [_ Hkept].
  exists new_defs, schema', after. split; [reflexivity|]. split.
  - apply (Hkept "#/definitions/Circle" ["definitions"; "Circle"] after);
      [now left | reflexivity | reflexivity | exact Hafter].
  - assert (Hb : before = JDict [("type", JStr "string");
                                 ("const", JStr "circle");
                                 ("title", JStr "Kind")]).
    { vm_compute in Hbefore. now inversion Hbefore. }
    now rewrite <- Hb.
Defined.

(** A tag constant that is a number is a key of the mapping like any
    other, and the round goes on to set the defaults; the discriminator
    object built from such a mapping is no JSON object. *)
Example numbered_document_defaults :
  exists st_end,
    variant_loop "Level" "type" "Type" ["definitions"; "Level"] 0
      [ByRef "#/definitions/High" ["definitions"; "High"]]
      (variant_start numbered_document) = Ok st_end
    /\ vs_map st_end = [(JInt 7, "#/definitions/High")]
    /\ get_path (tag_path "type" ["definitions"; "High"]) (vs_schema st_end)
       = Ok (JDict [("type", JStr "string"); ("const", JInt 7);
                    ("default", JInt 7); ("title", JStr "Type")])
    /\ _extract_union_variants "Level" ["definitions"; "Level"]
         numbered_document
       = Raise (Unmodelled
                  "discriminator mapping with a key that is not a string").
Proof. eexists. repeat split; vm_compute; reflexivity. Qed.

Example shape_document_inferred :
  _extract_union_variants "Shape" ["definitions"; "Shape"] shape_document
  = Ok (Some [("ShapeSquare",
               JDict [("type", JStr "object");
                      ("properties", JDict [
                         ("type", JDict [("type", JStr "string");
                                         ("const", JStr "square");
                                         ("default", JStr "square");
                                         ("title", JStr "Type")])])])],
        JDict [("definitions", JDict [
          ("Shape", JDict [
             ("anyOf", JList [ref_to "#/definitions/Circle";
                              ref_to "#/definitions/ShapeSquare"]);
             ("discriminator", JDict [
                ("mapping", JDict [
                   ("circle", JStr "#/definitions/Circle");
                   ("square", JStr "#/definitions/ShapeSquare")]);
                ("propertyName", JStr "type")])]);
          ("Circle", JDict [("type", JStr "object");
                            ("properties", JDict [
                               ("type", JDict [("type", JStr "string");
                                               ("const", JStr "circle");
                                               ("title", JStr "Kind");
                                               ("default", JStr "circle")])])])])]).
Proof. vm_compute. reflexivity. Qed.

(** ** The excluded definitions *)

Lemma del_keys_subset {V} (k : string) (d d' : dict V) :
  Py.del k d = Ok d' -> forall x, In x (Py.keys d') -> In x (Py.keys d).
Proof.
  revert d'. induction d as [|[k0 v0] d IH]; intros d' H x Hx; simpl in H.
  - discriminate.
  - destruct (String.eqb k k0).
    + inversion H; subst. simpl. auto.
    + bind_inv H. inversion H; subst. simpl in *. destruct Hx; eauto.
Qed.

Lemma del_NoDup {V} (k : string) (d d' : dict V) :
  Py.del k d = Ok d' -> NoDup (Py.keys d) -> NoDup (Py.keys d').
Proof.
  revert d'. induction d as [|[k0 v0] d IH]; intros d' H Hnd; simpl in H.
  - discriminate.
  - inversion Hnd as [|? ? Hnin Hnd']; subst. destruct (String.eqb k k0).
    + now inversion H; subst.
    + bind_inv H. inversion H; subst. simpl. constructor; eauto.
      intros Hin. apply Hnin. eapply del_keys_subset; eauto.
Qed.

Lemma set_set {V} (k : string) (v v' : V) (d : dict V) :
  Py.set k v (Py.set k v' d) = Py.set k v d.
Proof.
  induction d as [|[k0 v0] d IH]; simpl.
  - now rewrite String.eqb_refl.
  - destruct (String.eqb k k0) eqn:E; simpl; rewrite E; auto.
    now rewrite IH.
Qed.

(** Deleting one definition from the document. *)
Lemma delete_definition (root : dict json) (defs : dict json) (k : string) :
  Py.get "definitions" root = Some (JDict defs) ->
  match Py.get k defs with
  | None =>
      update_path ["definitions"] (del_item k) (JDict root) = Raise (KeyError k)
  | Some _ =>
      exists defs',
        update_path ["definitions"] (del_item k) (JDict root)
        = Ok (JDict (Py.set "definitions" (JDict defs') root))
        /\ Py.del k defs = Ok defs'
  end.
Proof.
  intros Hd. simpl. unfold Py.item. rewrite Hd. simpl.
  destruct (Py.get k defs) eqn:G.
  - destruct (del_present k defs) as [defs' [Hdel _]]; [congruence|].
    exists defs'. rewrite Hdel. simpl. auto.
  - now rewrite (del_absent _ _ G).
Qed.

(** C10 (amended): [_process_schema] first deletes the definitions named
    [llmContextReferenceJsonFile] and [llmContextReferenceYamlFile]; union
    inference then runs on a definitions mapping that holds neither name
    and every other definition unchanged.  If either definition is absent
    from the input, the pass fails with a [KeyError] for an excluded name.
    Nothing is said on the names of the definitions inference adds. *)
Theorem excluded_definitions_deleted_first
    (fuel : nat) (root defs : dict json)
    (Hdefs : Py.get "definitions" root = Some (JDict defs))
    (Hnodup : NoDup (Py.keys defs)) :
  ((exists k, In k _EXCLUDE_EXPORTED_SCHEMAS /\ Py.get k defs = None) ->
   exists k, In k _EXCLUDE_EXPORTED_SCHEMAS
     /\ _process_schema fuel (JDict root) = Raise (KeyError k))
  /\ ((forall k, In k _EXCLUDE_EXPORTED_SCHEMAS -> Py.get k defs <> None) ->
      exists defs1,
        delete_excluded _EXCLUDE_EXPORTED_SCHEMAS (JDict root)
        = Ok (JDict (Py.set "definitions" (JDict defs1) root))
        /\ (forall k, In k _EXCLUDE_EXPORTED_SCHEMAS -> Py.get k defs1 = None)
        /\ (forall k, ~ In k _EXCLUDE_EXPORTED_SCHEMAS ->
                      Py.get k defs1 = Py.get k defs)
        /\ _process_schema fuel (JDict root)
           = infer_after_exclusion fuel
               (JDict (Py.set "definitions" (JDict defs1) root))).
Proof.
  set (e1 := "llmContextReferenceJsonFile").
  set (e2 := "llmContextReferenceYamlFile").
  assert (Hsub : subscript (JDict root) "definitions" = Ok (JDict defs)).
  { simpl. unfold Py.item. now rewrite Hdefs. }
  assert (Hne : e1 <> e2) by discriminate.
  unfold _process_schema. rewrite Hsub. cbn [Py.bind].
  unfold _EXCLUDE_EXPORTED_SCHEMAS. fold e1 e2. cbn [delete_excluded].
  pose proof (delete_definition root defs e1 Hdefs) as H1.
  split.
  - intros [k [Hin Hk]].
    destruct (Py.get e1 defs) eqn:G1.
    + destruct H1 as [defs' [-> Hdel]]. cbn [Py.bind].
      assert (Hk2 : Py.get e2 defs = None).
      { destruct Hin as [<-|[<-|[]]]; congruence. }
      destruct (del_present e1 defs) as [d' [Hd' [Hother _]]]; [congruence|].
      rewrite Hd' in Hdel. inversion Hdel; subst d'.
      pose proof (delete_definition (Py.set "definitions" (JDict defs') root)
                    defs' e2 (get_set_eq _ _ _)) as H2.
      rewrite (Hother e2), Hk2 in H2 by congruence.
      rewrite H2. cbn [Py.bind]. exists e2. simpl; auto.
    + rewrite H1. cbn [Py.bind]. exists e1. simpl; auto.
  - intros Hall.
    destruct (Py.get e1 defs) eqn:G1;
      [|exfalso; apply (Hall e1); simpl; auto].
    destruct H1 as [defs' [-> Hdel]]. cbn [Py.bind].
    destruct (del_present e1 defs) as [d' [Hd' [Hother Hgone]]]; [congruence|].
    rewrite Hd' in Hdel. inversion Hdel; subst d'.
    pose proof (delete_definition (Py.set "definitions" (JDict defs') root)
                  defs' e2 (get_set_eq _ _ _)) as H2.
    destruct (Py.get e2 defs') eqn:G2.
    2:{ exfalso. apply (Hall e2); [simpl; auto|].
        rewrite <- (Hother e2) by congruence. exact G2. }
    destruct H2 as [defs'' [-> Hdel2]]. cbn [Py.bind].
    destruct (del_present e2 defs') as [d'' [Hd'' [Hother2 Hgone2]]];
      [congruence|].
    rewrite Hd'' in Hdel2. inversion Hdel2; subst d''.
    assert (Hset : Py.set "definitions" (JDict defs'')
                     (Py.set "definitions" (JDict defs') root)
                   = Py.set "definitions" (JDict defs'') root).
    { apply set_set. }
    rewrite Hset. exists defs''. split; [reflexivity|]. split; [|split].
    + intros k [<-|[<-|[]]].
      * rewrite (Hother2 e1) by congruence. auto.
      * apply Hgone2. eapply del_NoDup; eauto.
    + intros k Hk. simpl in Hk.
      rewrite Hother2, Hother; auto.
    + reflexivity.
Qed.

Lemma excluded_definitions_deleted_first_witness :
  exists defs1,
    delete_excluded _EXCLUDE_EXPORTED_SCHEMAS context_reference_document
    = Ok (JDict [("definitions", JDict defs1)])
    /\ (forall k, In k _EXCLUDE_EXPORTED_SCHEMAS -> Py.get k defs1 = None).
Proof.
  destruct (proj2 (excluded_definitions_deleted_first 2
      [("definitions", JDict [
         ("llmContextReferenceJsonFile", JDict [("type", JStr "string")]);
         ("llmContextReferenceYamlFile", JDict [("type", JStr "string")]);
         ("llmContextReference",
          JDict [("anyOf", JList [tagged_object "jsonFile";
                                  tagged_object "yamlFile"])])])]
      [("llmContextReferenceJsonFile", JDict [("type", JStr "string")]);
       ("llmContextReferenceYamlFile", JDict [("type", JStr "string")]);
       ("llmContextReference",
        JDict [("anyOf", JList [tagged_object "jsonFile";
                                tagged_object "yamlFile"])])]
      eq_refl
      ltac:(repeat constructor; simpl; intuition discriminate)))
    as [defs1 [Hdel [Hgone _]]].
  - intros k [<-|[<-|[]]]; discriminate.
  - exists defs1. split; [exact Hdel | exact Hgone].
Defined.

(** C10, as stated, fails on [context_reference_document]: the pass
    succeeds and both excluded names are names of definitions of the
    processed document (the variants extracted from [llmContextReference]). *)
Lemma excluded_names_reappear :
  (schema' <- _process_schema 2 context_reference_document ;;
   def_names schema')
  = Ok ["llmContextReference"; "llmContextReferenceJsonFile";
        "llmContextReferenceYamlFile"].
Proof. vm_compute. reflexivity. Qed.

(** ** Running the inferencer again *)

(** C3, as stated, fails on [excluded_only_document]: the first pass
    succeeds, and a second pass over the document it produced fails, for
    any fuel. *)
Lemma second_pass_fails :
  exists once,
    _process_schema 2 excluded_only_document = Ok once
    /\ forall fuel,
         _process_schema fuel once
         = Raise (KeyError "llmContextReferenceJsonFile").
Proof.
  eexists. split; [vm_compute; reflexivity|].
  intros fuel. reflexivity.
Qed.

(** Without the deletion of the excluded definitions, the second pass over
    the output of the first still fails: the rewritten [Foo/returns] union
    is rewritten again and [FooReturnValue] is synthesized a second time. *)
Example second_inference_duplicates :
  forall once,
    _process_schema 2 excluded_only_document = Ok once ->
    infer_after_exclusion 2 once
    = Raise (RuntimeError "Duplicate extracted definitions").
Proof.
  intros once H. vm_compute in H. inversion H; subst once.
  vm_compute. reflexivity.
Qed.

(** C3 (amended): [infer_unions] on a processor whose pass is complete does
    no processing: it returns the document the first call produced and
    leaves the processor as it is, so no union is extracted, no definition
    is synthesized, and the call does not fail. *)
Theorem infer_unions_once
    (fuel fuel' : nat) (self self' : _SchemaProcessor) (schema : json) :
  infer_unions fuel self = Ok (schema, self') ->
  _processed self' = true
  /\ _schema self' = schema
  /\ infer_unions fuel' self' = Ok (schema, self').
Proof.
  unfold infer_unions. destruct (_processed self) eqn:Hp; simpl; intros H.
  - inversion H; subst. rewrite Hp. simpl. auto.
  - bind_inv H. inversion H; subst. simpl. auto.
Qed.

Lemma infer_unions_once_witness :
  exists schema self',
    infer_unions 2 {| _schema := excluded_only_document; _processed := false |}
    = Ok (schema, self')
    /\ _processed self' = true
    /\ _schema self' = schema
    /\ infer_unions 0 self' = Ok (schema, self').
Proof.
  destruct (infer_unions 2
              {| _schema := excluded_only_document; _processed := false |})
    as [[schema self']|e] eqn:H; [|discriminate H].
  exists schema, self'. split; [reflexivity|].
  exact (infer_unions_once 2 0 _ self' schema H).
Defined.

(** ** The token level rewriting *)

Lemma rewrite_tokens_looking (replacements : dict string)
    (pre rest : list token_info) :
  Forall (fun t => is_class_keyword t = false) pre ->
  rewrite_tokens replacements looking (pre ++ rest)
  = (rest' <- rewrite_tokens replacements looking rest ;; Ok (pre ++ rest')).
Proof.
  induction 1 as [|[ty s] pre Ht Hpre IH]; simpl.
  - destruct (rewrite_tokens replacements looking rest); reflexivity.
  - unfold is_class_keyword in Ht. simpl in Ht.
    unfold token_step. simpl. rewrite Ht. simpl.
    rewrite IH.
    destruct (rewrite_tokens replacements looking rest); reflexivity.
Qed.

Lemma rewrite_tokens_in_typed_dict (replacements : dict string)
    (region : list token_info) (closing : token_info)
    (rest : list token_info) :
  Forall (fun t => is_dedent t = false) region ->
  is_dedent closing = true ->
  rewrite_tokens replacements in_typed_dict (region ++ closing :: rest)
  = (rest' <- rewrite_tokens replacements looking rest ;;
     Ok (map (replace_name replacements) region ++ closing :: rest')).
Proof.
  intros Hregion Hclosing.
  induction Hregion as [|[ty s] region Ht Hregion IH]; simpl.
  - destruct closing as [cty cs]. unfold is_dedent in Hclosing.
    simpl in Hclosing. unfold token_step. simpl. rewrite Hclosing. simpl.
    fold looking.
    destruct (rewrite_tokens replacements looking rest); reflexivity.
  - unfold is_dedent in Ht. simpl in Ht.
    unfold token_step. simpl. rewrite Ht.
    unfold replace_name at 1. simpl fst. simpl snd.
    destruct (token_type_eqb ty NAME); simpl; rewrite IH;
      destruct (rewrite_tokens replacements looking rest); reflexivity.
Qed.

(** The loop changes nothing but the string of [NAME] tokens. *)
Lemma rewrite_tokens_names_only (replacements : dict string) :
  forall (toks : list token_info) (fl : scan_flags) (out : list token_info),
    rewrite_tokens replacements fl toks = Ok out ->
    Forall2 (fun t t' => fst t' = fst t /\ (fst t <> NAME -> t' = t)) toks out.
Proof.
  induction toks as [|[ty s] toks IH]; intros fl out H; simpl in H.
  - inversion H. constructor.
  - bind_inv H. destruct a as [fl' t']. bind_inv H.
    inversion H; subst out; clear H.
    constructor; [|eauto].
    unfold token_step in E.
    destruct (checking_class_header fl).
    + destruct (token_type_eqb ty NAME); simpl in E; inversion E; auto.
    + destruct (processing_typed_dict fl).
      * destruct (token_type_eqb ty DEDENT); [inversion E; auto|].
        destruct (token_type_eqb ty NAME) eqn:En; inversion E; simpl; auto.
        split; auto. intros Hn. destruct ty; try discriminate; congruence.
      * destruct (token_type_eqb ty NAME && String.eqb s "class");
          inversion E; auto.
Qed.

(** C8 (amended): outside a typed dict the pass looks for a [NAME] token
    ["class"] and copies the tokens before it.  When the [NAME] token after
    it ends with ["Dict"], every [NAME] token that follows, in the rest of
    the class header as well as in the class body, is replaced by its entry
    in DictTokenReplacements when it has one, up to the first [DEDENT]
    token; the [DEDENT] token is copied and the pass looks for the next
    ["class"].  When the name does not end with ["Dict"], the pass goes on
    looking.  Tokens that are not [NAME] tokens are never changed. *)
Theorem typed_dict_token_rewriting
    (replacements : dict string) (pre region rest : list token_info)
    (class_name : string) (closing : token_info)
    (Hpre : Forall (fun t => is_class_keyword t = false) pre)
    (Hregion : Forall (fun t => is_dedent t = false) region)
    (Hclosing : is_dedent closing = true) :
  (endswith class_name "Dict" = true ->
   rewrite_tokens replacements looking
     (pre ++ (NAME, "class") :: (NAME, class_name) :: region ++ closing :: rest)
   = (rest' <- rewrite_tokens replacements looking rest ;;
      Ok (pre ++ (NAME, "class") :: (NAME, class_name)
              :: map (replace_name replacements) region ++ closing :: rest')))
  /\ (endswith class_name "Dict" = false ->
      rewrite_tokens replacements looking
        (pre ++ (NAME, "class") :: (NAME, class_name) :: rest)
      = (rest' <- rewrite_tokens replacements looking rest ;;
         Ok (pre ++ (NAME, "class") :: (NAME, class_name) :: rest')))
  /\ rewrite_tokens replacements looking pre = Ok pre
  /\ (forall t, replace_name replacements t <> t -> fst t = NAME)
  /\ (forall toks out,
        rewrite_tokens replacements looking toks = Ok out ->
        Forall2 (fun t t' => fst t' = fst t /\ (fst t <> NAME -> t' = t))
                toks out).
Proof.
  split; [|split; [|split; [|split]]].
  - intros Hdict. rewrite (rewrite_tokens_looking _ _ _ Hpre).
    cbn [rewrite_tokens]. unfold token_step at 1. cbn - [rewrite_tokens endswith].
    rewrite Hdict. fold in_typed_dict.
    rewrite (rewrite_tokens_in_typed_dict _ _ _ _ Hregion Hclosing).
    destruct (rewrite_tokens replacements looking rest); reflexivity.
  - intros Hdict. rewrite (rewrite_tokens_looking _ _ _ Hpre).
    cbn [rewrite_tokens]. unfold token_step at 1. cbn - [rewrite_tokens endswith].
    rewrite Hdict. fold looking.
    destruct (rewrite_tokens replacements looking rest); reflexivity.
  - pose proof (rewrite_tokens_looking replacements pre [] Hpre) as H.
    rewrite app_nil_r in H. rewrite H. simpl. now rewrite app_nil_r.
  - intros [ty s]. unfold replace_name. simpl.
    destruct ty; simpl; congruence.
  - intros toks out. apply rewrite_tokens_names_only.
Qed.

Lemma typed_dict_token_rewriting_witness :
  rewrite_tokens [("A", "ADict")] looking
    ([] ++ (NAME, "class") :: (NAME, "ADict")
        :: [(OP, "("); (NAME, "A"); (OP, ")"); (OP, ":"); (NEWLINE, newline);
            (INDENT, "    "); (NAME, "x"); (OP, ":"); (NAME, "int");
            (NEWLINE, newline)]
        ++ (DEDENT, EmptyString) :: [])
  = (rest' <- rewrite_tokens [("A", "ADict")] looking [] ;;
     Ok ([] ++ (NAME, "class") :: (NAME, "ADict")
            :: map (replace_name [("A", "ADict")])
                 [(OP, "("); (NAME, "A"); (OP, ")"); (OP, ":");
                  (NEWLINE, newline); (INDENT, "    "); (NAME, "x");
                  (OP, ":"); (NAME, "int"); (NEWLINE, newline)]
            ++ (DEDENT, EmptyString) :: rest')).
Proof.
  apply (proj1 (typed_dict_token_rewriting [("A", "ADict")] []
                  [(OP, "("); (NAME, "A"); (OP, ")"); (OP, ":");
                   (NEWLINE, newline); (INDENT, "    "); (NAME, "x");
                   (OP, ":"); (NAME, "int"); (NEWLINE, newline)]
                  [] "ADict" (DEDENT, EmptyString)
                  (Forall_nil _)
                  ltac:(repeat constructor)
                  eq_refl)).
  reflexivity.
Defined.

(** C8, as stated, fails on [subclass_tokens]: the [NAME] token [A] at
    index 3 stands in the class header, before the class body, and the
    pass replaces it. *)
Lemma class_header_name_replaced :
  exists out,
    rewrite_tokens [("A", "ADict")] looking subclass_tokens = Ok out
    /\ nth_error subclass_tokens 7 = Some (INDENT, "    ")
    /\ nth_error subclass_tokens 3 = Some (NAME, "A")
    /\ nth_error out 3 = Some (NAME, "ADict").
Proof. eexists. repeat split. Qed.

(** ** The export list *)

Lemma process_class_exported name bases kws body decos st n' st' :
  process_class name bases kws body decos st = Ok (n', st') ->
  exported_names st' = exported_names st ++ class_name_of n'
  /\ additional_nodes st' = additional_nodes st.
Proof.
  unfold process_class.
  destruct (Py.get name _DATA_MODEL_NAME_OVERRIDES) as [o|];
    cbv zeta.
  - destruct (negb (endswith o "Dict")); [intros H; inversion H; auto|].
    destruct (negb (in_set _ _)); [discriminate|].
    destruct body as [|[| | |[|[]| | | | |]| |] rest];
      intros H; inversion H; auto.
  - destruct (negb (endswith name "Dict")); [intros H; inversion H; auto|].
    destruct (negb (in_set _ _)); [discriminate|].
    intros H; inversion H; auto.
Qed.

Lemma process_alias_exported builtin_names body_idx alias e st st' :
  process_alias builtin_names body_idx alias e st = Ok st' ->
  exported_names st' = exported_names st
  /\ (Forall (fun p => is_assign (snd p) = true) (additional_nodes st) ->
      Forall (fun p => is_assign (snd p) = true) (additional_nodes st')).
Proof.
  unfold process_alias. destruct (simple_alias e) as [name|].
  - destruct (in_set name builtin_names); [intros H; inversion H; auto|].
    destruct (Py.get name (dict_token_replacements st));
      intros H; inversion H; auto.
  - destruct e; try (intros H; inversion H; subst; auto; fail).
    destruct op; try (intros H; inversion H; subst; auto; fail).
    intros H. bind_inv H.
    destruct (needs_dict_alias a); [|inversion H; subst; auto].
    bind_inv H. inversion H; subst; clear H. simpl. split; auto.
    intros Hall. apply Forall_app. split; auto.
Qed.

Lemma top_level_step_exported builtin_names body_idx n st n' st' :
  top_level_step builtin_names body_idx n st = Ok (n', st') ->
  exported_names st' = exported_names st ++ class_name_of n'
  /\ (Forall (fun p => is_assign (snd p) = true) (additional_nodes st) ->
      Forall (fun p => is_assign (snd p) = true) (additional_nodes st')).
Proof.
  unfold top_level_step. destruct n.
  - intros H. destruct (process_class_exported _ _ _ _ _ _ _ _ H) as [-> ->].
    auto.
  - destruct targets as [|[] [|]];
      try (intros H; inversion H; subst; simpl; rewrite app_nil_r; auto; fail).
    intros H. bind_inv H. inversion H; subst; clear H.
    destruct (process_alias_exported _ _ _ _ _ _ E) as [-> Hadd].
    simpl. rewrite app_nil_r. auto.
  - intros H; inversion H; subst; simpl; rewrite app_nil_r; auto.
  - intros H; inversion H; subst; simpl; rewrite app_nil_r; auto.
  - intros H; inversion H; subst; simpl; rewrite app_nil_r; auto.
  - intros H; inversion H; subst; simpl; rewrite app_nil_r; auto.
Qed.

Lemma top_level_scan_exported builtin_names :
  forall body body_idx st body' st',
    top_level_scan builtin_names body_idx body st = Ok (body', st') ->
    exported_names st' = exported_names st ++ class_names body'
    /\ (Forall (fun p => is_assign (snd p) = true) (additional_nodes st) ->
        Forall (fun p => is_assign (snd p) = true) (additional_nodes st')).
Proof.
  induction body as [|n body IH]; intros body_idx st body' st' H; simpl in H.
  - inversion H; subst. simpl. rewrite app_nil_r. auto.
  - bind_inv H. destruct a as [n1 st1]. bind_inv H. destruct a as [rest' st2].
    inversion H; subst; clear H.
    destruct (top_level_step_exported _ _ _ _ _ _ E) as [E1 A1].
    destruct (IH _ _ _ _ E0) as [E2 A2].
    rewrite E2, E1. unfold class_names. simpl. rewrite app_assoc. auto.
Qed.

Lemma class_names_insert_at (i : nat) (n : stmt) (body : list stmt) :
  is_assign n = true ->
  class_names (insert_at i n body) = class_names body.
Proof.
  intros Hn. unfold insert_at, class_names.
  rewrite flat_map_app. simpl.
  replace (class_name_of n) with (@nil string)
    by (destruct n; simpl in *; congruence).
  simpl. rewrite <- flat_map_app. now rewrite firstn_skipn.
Qed.

Lemma class_names_splice (additional : list (nat * stmt)) (body : list stmt) :
  Forall (fun p => is_assign (snd p) = true) additional ->
  class_names (splice additional body) = class_names body.
Proof.
  intros Hall. unfold splice.
  apply Forall_rev in Hall. revert body.
  induction Hall as [|[i n] l Hn Hl IH]; intros body; simpl; auto.
  rewrite IH. now apply class_names_insert_at.
Qed.

Lemma insert_sorted_perm (x : string) (l : list string) :
  Permutation (insert_sorted x l) (x :: l).
Proof.
  induction l as [|y l IH]; simpl; auto.
  destruct (String.leb x y); auto.
  rewrite IH. apply perm_swap.
Qed.

Lemma insert_sorted_hd (x a : string) (l : list string) :
  str_le a x -> HdRel str_le a l -> HdRel str_le a (insert_sorted x l).
Proof.
  intros Hax Hl. destruct l as [|y l]; simpl.
  - constructor. exact Hax.
  - destruct (String.leb x y); constructor; auto.
    now inversion Hl.
Qed.

Lemma insert_sorted_sorted (x : string) (l : list string) :
  Sorted str_le l -> Sorted str_le (insert_sorted x l).
Proof.
  induction 1 as [|y l Hl IH Hhd]; simpl.
  - repeat constructor.
  - destruct (String.leb x y) eqn:E.
    + constructor; [constructor; auto|]. constructor. exact E.
    + constructor; auto. apply insert_sorted_hd; auto.
      destruct (String.leb_total x y) as [H|H]; [congruence | exact H].
Qed.

Lemma sorted_perm (names : list string) : Permutation (sorted names) names.
Proof.
  induction names as [|x names IH]; simpl; auto.
  rewrite insert_sorted_perm. now constructor.
Qed.

Lemma sorted_sorted (names : list string) : Sorted str_le (sorted names).
Proof.
  induction names as [|x names IH]; simpl.
  - constructor.
  - now apply insert_sorted_sorted.
Qed.

Lemma class_line_index_first (pre post : list string) (line : string) :
  Forall (fun l => startswith l "class" = false) pre ->
  startswith line "class" = true ->
  forall i last,
    class_line_index i last (pre ++ line :: post) = Some (i + List.length pre).
Proof.
  intros Hpre Hline.
  induction Hpre as [|l pre Hl Hpre IH]; intros i last; cbn [app class_line_index].
  - rewrite Hline. simpl. now rewrite Nat.add_0_r.
  - rewrite Hl, IH. simpl. now rewrite Nat.add_succ_r.
Qed.

Lemma insert_list_app {A} (pre post xs : list A) :
  insert_list (List.length pre) xs (pre ++ post) = pre ++ xs ++ post.
Proof.
  unfold insert_list.
  rewrite firstn_app, Nat.sub_diag, firstn_all. simpl. rewrite app_nil_r.
  rewrite skipn_app, Nat.sub_diag, skipn_all. reflexivity.
Qed.

(** C5 (amended): the [__all__] list holds the names of the top level
    class definitions of the final tree (after renaming; one entry per
    class definition, and no entry for a type alias or a synthesized Dict
    alias), in sorted order, and its lines are inserted immediately before
    the first line of the source text that starts with ["class"]. *)
Theorem export_list_of_classes
    (builtin_names : list string) (model_ast : list stmt) (r : rewritten)
    (pre post : list string) (line : string)
    (Hrun : rewrite_tree builtin_names model_ast = Ok r)
    (Hpre : Forall (fun l => startswith l "class" = false) pre)
    (Hline : startswith line "class" = true) :
  let exported := exported_names (rw_state r) in
  exported = class_names (final_tree r)
  /\ Permutation (sorted exported) exported
  /\ Sorted str_le (sorted exported)
  /\ insert_all exported (pre ++ line :: post)
     = Ok (pre ++ (["__all__ = ["] ++ map name_line (sorted exported)
                   ++ ["]"; EmptyString; EmptyString])
               ++ line :: post).
Proof.
  intros exported. unfold rewrite_tree in Hrun.
  bind_inv Hrun. destruct a as [body st]. inversion Hrun; subst r; clear Hrun.
  destruct (top_level_scan_exported _ _ _ _ _ _ E) as [Hexp Hadd].
  split; [|split; [|split]].
  - unfold exported, final_tree. cbn [rw_state rw_body].
    rewrite class_names_splice by (apply Hadd; constructor).
    exact Hexp.
  - apply sorted_perm.
  - apply sorted_sorted.
  - unfold insert_all.
    rewrite (class_line_index_first pre post line Hpre Hline).
    cbn [Nat.add]. now rewrite insert_list_app.
Qed.

Lemma export_list_of_classes_witness :
  exists r,
    rewrite_tree [] alias_module = Ok r
    /\ exported_names (rw_state r) = class_names (final_tree r)
    /\ insert_all (exported_names (rw_state r))
         (["from typing import TypedDict"] ++ "class A(Struct):" :: ["    pass"])
       = Ok (["from typing import TypedDict"]
             ++ (["__all__ = ["]
                 ++ map name_line (sorted (exported_names (rw_state r)))
                 ++ ["]"; EmptyString; EmptyString])
             ++ "class A(Struct):" :: ["    pass"]).
Proof.
  destruct (rewrite_tree [] alias_module) as [r|e] eqn:Hrun;
    [|discriminate Hrun].
  exists r. split; [reflexivity|].
  destruct (export_list_of_classes [] alias_module r
              ["from typing import TypedDict"] ["    pass"] "class A(Struct):"
              Hrun ltac:(repeat constructor) eq_refl)
    as [Hexp [_ [_ Hins]]].
  split; [exact Hexp | exact Hins].
Defined.

(** C5, as stated, fails on [alias_module]: the final tree declares the
    alias [AOrB] and the synthesized alias [AOrBDict] at top level, and
    neither is in the export list. *)
Lemma aliases_not_exported :
  exists r,
    rewrite_tree [] alias_module = Ok r
    /\ declared_names (final_tree r)
       = ["A"; "ADict"; "B"; "BDict"; "AOrB"; "AOrBDict"]
    /\ exported_names (rw_state r) = ["A"; "ADict"; "B"; "BDict"]
    /\ lines_to_insert (exported_names (rw_state r))
       = ["__all__ = ["; name_line "A"; name_line "ADict"; name_line "B";
          name_line "BDict"; "]"; EmptyString; EmptyString].
Proof. eexists. repeat split. Qed.

(** ** Renamed classes and their docstrings *)







(** ** Dict aliases of union aliases *)

(** C6, at the failing input: the union alias [A | Mapping[str, str]] has
    the member [A] with the mirror [ADict], and the claim has the dict
    alias be [ADict | Mapping[str, str]].  The walk over the union also
    yields the [Name] nodes inside the subscript, so the synthesized alias
    is [ADict | Mapping | str | str | Mapping[str, str]]. *)
Theorem mapping_union_dict_alias :
  exists r,
    rewrite_tree ["str"] mapping_module = Ok r
    /\ final_tree r
       = [ClassDef "A" [Name "Struct" Load] [] [docstring "A."] [];
          ClassDef "ADict" [Name "TypedDict" Load] [] [docstring "Dict of A."] [];
          Assign [Name "AOrMapping" Store] mapping_union;
          Assign [Name "AOrMappingDict" Store]
            (BinOp
               (BinOp
                  (BinOp
                     (BinOp (Name "ADict" Load) BitOr (Name "Mapping" Load))
                     BitOr (Name "str" Load))
                  BitOr (Name "str" Load))
               BitOr
               (Subscript (Name "Mapping" Load)
                          (Tuple [Name "str" Load; Name "str" Load] Load) Load))]
    /\ Py.get "AOrMapping" (dict_token_replacements (rw_state r))
       = Some "AOrMappingDict".
Proof. eexists. repeat split. Qed.

(** The members of a union of names come out in the order of the breadth
    first walk: [A | B | C] gives [C | ADict | BDict]. *)
Example name_union_dict_alias :
  process_alias [] 4 "AnyOf"
    (BinOp (BinOp (Name "A" Load) BitOr (Name "B" Load)) BitOr (Name "C" Load))
    {| dict_token_replacements := [("A", "ADict"); ("B", "BDict")];
       exported_names := []; declared_structs := []; additional_nodes := [] |}
  = Ok {| dict_token_replacements :=
            [("A", "ADict"); ("B", "BDict"); ("AnyOf", "AnyOfDict")];
          exported_names := []; declared_structs := [];
          additional_nodes :=
            [(5, Assign [Name "AnyOfDict" Store]
                   (BinOp (BinOp (Name "C" Load) BitOr (Name "ADict" Load))
                          BitOr (Name "BDict" Load)))] |}.
Proof. reflexivity. Qed.

(** ** Renaming *)

(** *** Strings *)

Lemma length_append (s t : string) :
  String.length (s ++ t) = String.length s + String.length t.
Proof. induction s; simpl; auto. Qed.

Lemma substring_all (t : string) : substring 0 (String.length t) t = t.
Proof. induction t; simpl; congruence. Qed.

Lemma substring_skip (s t : string) (m : nat) :
  substring (String.length s) m (s ++ t) = substring 0 m t.
Proof.
  induction s; simpl; auto.
Qed.

Lemma substring_prefix (s t : string) :
  substring 0 (String.length s) (s ++ t) = s.
Proof.
  induction s; simpl.
  - destruct t; reflexivity.
  - congruence.
Qed.

Lemma endswith_append (s t : string) : endswith (s ++ t) t = true.
Proof.
  unfold endswith. rewrite length_append.
  replace (String.length s + String.length t - String.length t)
    with (String.length s) by lia.
  rewrite substring_skip, substring_all, String.eqb_refl.
  rewrite andb_true_r. apply Nat.leb_le. lia.
Qed.

Lemma removesuffix_append (s t : string) : removesuffix (s ++ t) t = s.
Proof.
  unfold removesuffix. rewrite endswith_append, length_append.
  replace (String.length s + String.length t - String.length t)
    with (String.length s) by lia.
  apply substring_prefix.
Qed.

(** *** The Name Override Table *)

Lemma get_in_values {V} (k : string) (v : V) (d : dict V) :
  Py.get k d = Some v -> In v (map snd d).
Proof.
  induction d as [|[k' v'] d IH]; simpl; [discriminate|].
  destruct (String.eqb k k'); intros H; [inversion H|]; auto.
Qed.

Lemma is_key_get (s : string) :
  is_key s = false <-> Py.get s _DATA_MODEL_NAME_OVERRIDES = None.
Proof.
  unfold is_key, Py.mem.
  destruct (Py.get s _DATA_MODEL_NAME_OVERRIDES); split; congruence.
Qed.

(** No replacement name of the table is itself a key of the table. *)
Lemma override_values_not_keys (k v : string) :
  Py.get k _DATA_MODEL_NAME_OVERRIDES = Some v -> is_key v = false.
Proof.
  intros H. apply get_in_values in H.
  assert (Hall : forallb (fun v => negb (is_key v))
                   (map snd _DATA_MODEL_NAME_OVERRIDES) = true)
    by (vm_compute; reflexivity).
  rewrite forallb_forall in Hall. apply Hall in H.
  now apply negb_true_iff in H.
Qed.

Lemma is_key_override (s : string) : is_key (override s) = false.
Proof.
  unfold override.
  destruct (Py.get s _DATA_MODEL_NAME_OVERRIDES) eqn:E.
  - eapply override_values_not_keys; eauto.
  - now apply is_key_get.
Qed.

Lemma override_key (k v : string) :
  Py.get k _DATA_MODEL_NAME_OVERRIDES = Some v -> override k = v.
Proof. unfold override. now intros ->. Qed.

Lemma override_not_key (s : string) : is_key s = false -> override s = s.
Proof. intros H. apply is_key_get in H. unfold override. now rewrite H. Qed.

(** The keys of the table that end with ["Dict"] are the keys of the
    mirrors of renamed structured types: the name without the suffix is a
    key too. *)
Lemma dict_alias_not_key (alias : string) :
  is_key alias = false -> is_key (alias ++ "Dict") = false.
Proof.
  intros Halias. destruct (is_key (alias ++ "Dict")) eqn:E; auto.
  exfalso.
  assert (Hin : In (alias ++ "Dict")%string (Py.keys _DATA_MODEL_NAME_OVERRIDES)).
  { apply get_in_keys. unfold is_key, Py.mem in E.
    destruct (Py.get (alias ++ "Dict") _DATA_MODEL_NAME_OVERRIDES); congruence. }
  assert (Hall : forallb (fun k => negb (endswith k "Dict")
                                   || is_key (removesuffix k "Dict"))
                   (Py.keys _DATA_MODEL_NAME_OVERRIDES) = true)
    by (vm_compute; reflexivity).
  rewrite forallb_forall in Hall. apply Hall in Hin.
  rewrite endswith_append, removesuffix_append in Hin. simpl in Hin.
  congruence.
Qed.

(** *** The walk over all nodes *)

Lemma flat_map_map_sites {A} (f : A -> list string) (g : A -> A) (l : list A) :
  Forall (fun x => f (g x) = map override (f x)) l ->
  flat_map f (map g l) = map override (flat_map f l).
Proof.
  induction 1 as [|x l Hx Hl IH]; simpl; auto.
  now rewrite Hx, IH, map_app.
Qed.

Lemma flat_map_map_keywords (sites : expr -> list string)
    (kws : list (option string * expr)) :
  Forall (fun k => sites (rename_expr (snd k)) = map override (sites (snd k)))
         kws ->
  flat_map (fun k => sites (snd k))
           (map (fun k => (fst k, rename_expr (snd k))) kws)
  = map override (flat_map (fun k => sites (snd k)) kws).
Proof.
  induction 1 as [|k kws Hk Hkws IH]; simpl; auto.
  now rewrite Hk, IH, map_app.
Qed.

Lemma rename_expr_names (e : expr) :
  expr_names (rename_expr e) = map override (expr_names e).
Proof.
  induction e using expr_nested_ind; simpl; auto.
  - now rewrite IHe1, IHe2, map_app.
  - now apply flat_map_map_sites.
  - now rewrite IHe1, IHe2, map_app.
  - rewrite IHe, !map_app. f_equal. f_equal.
    + now apply flat_map_map_sites.
    + now apply flat_map_map_keywords.
Qed.

Lemma rename_expr_strings (e : expr) :
  expr_strings (rename_expr e) = map override (expr_strings e).
Proof.
  induction e using expr_nested_ind; simpl; auto.
  - destruct c; reflexivity.
  - now rewrite IHe1, IHe2, map_app.
  - now apply flat_map_map_sites.
  - now rewrite IHe1, IHe2, map_app.
  - rewrite IHe, !map_app. f_equal. f_equal.
    + now apply flat_map_map_sites.
    + now apply flat_map_map_keywords.
Qed.

Lemma rename_stmt_sites (sites : expr -> list string)
    (Hsites : forall e, sites (rename_expr e) = map override (sites e))
    (s : stmt) :
  stmt_sites sites (rename_stmt s) = map override (stmt_sites sites s).
Proof.
  assert (Hl : forall l, flat_map sites (map rename_expr l)
                         = map override (flat_map sites l)).
  { intros l. apply flat_map_map_sites. apply Forall_forall. auto. }
  induction s using stmt_nested_ind; simpl.
  - rewrite !map_app, !Hl. f_equal. f_equal; [|f_equal].
    + apply flat_map_map_keywords. apply Forall_forall. auto.
    + now apply flat_map_map_sites.
  - now rewrite map_app, Hl, Hsites.
  - rewrite !map_app, !Hsites. f_equal. f_equal.
    destruct value; simpl; auto.
  - apply Hsites.
  - reflexivity.
  - reflexivity.
Qed.

Lemma rename_module_names (body : list stmt) :
  module_names (rename_module body) = map override (module_names body).
Proof.
  unfold module_names, rename_module. apply flat_map_map_sites.
  apply Forall_forall. intros s _.
  apply rename_stmt_sites, rename_expr_names.
Qed.

Lemma rename_module_strings (body : list stmt) :
  module_strings (rename_module body) = map override (module_strings body).
Proof.
  unfold module_strings, rename_module. apply flat_map_map_sites.
  apply Forall_forall. intros s _.
  apply rename_stmt_sites, rename_expr_strings.
Qed.

Lemma overridden_not_keys (l : list string) :
  Forall (fun s => is_key s = false) (map override l).
Proof.
  apply Forall_forall. intros s Hs. apply in_map_iff in Hs.
  destruct Hs as [x [<- _]]. apply is_key_override.
Qed.

(** *** The scan of the top level nodes keeps keys out *)

Lemma clean_app (l m : list string) : clean (l ++ m) <-> clean l /\ clean m.
Proof. apply Forall_app. Qed.

Lemma clean_flat_map {A} (f : A -> list string) (l : list A) :
  clean (flat_map f l) <-> Forall (fun x => clean (f x)) l.
Proof.
  unfold clean. induction l as [|x l IH]; simpl.
  - split; constructor.
  - rewrite Forall_app, IH. split.
    + intros [H1 H2]. constructor; auto.
    + intros H. inversion H; auto.
Qed.

Lemma iter_child_nodes_clean (n : node) :
  clean (node_names n) ->
  Forall (fun c => clean (node_names c)) (iter_child_nodes n).
Proof.
  destruct n as [e|c|o|[a v]]; simpl; intros H; try constructor.
  - destruct e; simpl in *.
    + repeat constructor.
    + constructor.
    + apply clean_app in H. destruct H. repeat constructor; auto.
    + apply Forall_app. split; [|repeat constructor].
      apply clean_flat_map in H. apply Forall_map. exact H.
    + apply clean_app in H. destruct H. repeat constructor; auto.
    + repeat constructor; auto.
    + apply clean_app in H. destruct H as [Hf H].
      apply clean_app in H. destruct H as [Hargs Hkws].
      constructor; auto. apply Forall_app. split.
      * apply clean_flat_map in Hargs. apply Forall_map. exact Hargs.
      * apply clean_flat_map in Hkws. apply Forall_map. exact Hkws.
  - exact H.
  - constructor.
Qed.

Lemma walk_queue_clean (fuel : nat) :
  forall todo,
    Forall (fun c => clean (node_names c)) todo ->
    Forall (fun c => clean (node_names c)) (walk_queue fuel todo).
Proof.
  induction fuel as [|fuel IH]; intros todo H; simpl.
  - constructor.
  - destruct todo as [|n rest]; [constructor|].
    inversion H; subst. constructor; auto.
    apply IH. apply Forall_app. split; auto.
    now apply iter_child_nodes_clean.
Qed.

Lemma walk_clean (e : expr) :
  clean (expr_names e) -> Forall (fun c => clean (node_names c)) (walk e).
Proof.
  intros H. apply walk_queue_clean. repeat constructor. exact H.
Qed.

Lemma scan_child_clean (replacements : dict string) (c : node)
    (acc acc' : union_scan) :
  clean (node_names c) -> scan_clean acc ->
  scan_child replacements c acc = Ok acc' -> scan_clean acc'.
Proof.
  intros Hc [Hn Ho] H. unfold scan_child in H.
  destruct c as [e|ctx|o|k].
  - destruct e; try discriminate.
    + inversion H; subst; clear H. split; simpl; auto.
      apply clean_app. split; auto.
    + destruct value; inversion H; subst. split; auto.
    + destruct (is_name "Mapping" e1); inversion H; subst; clear H.
      split; simpl; auto. apply Forall_app. split; auto.
    + destruct (is_str_pair elts); inversion H; subst. split; auto.
    + destruct op; inversion H; subst. split; auto.
  - destruct ctx; inversion H; subst; split; auto.
  - destruct o; inversion H; subst; split; auto.
  - discriminate.
Qed.

Lemma scan_union_clean (replacements : dict string) :
  forall children acc acc',
    Forall (fun c => clean (node_names c)) children -> scan_clean acc ->
    scan_union replacements children acc = Ok acc' -> scan_clean acc'.
Proof.
  induction children as [|c children IH]; intros acc acc' Hc Hacc H;
    simpl in H.
  - now inversion H; subst.
  - bind_inv H. inversion Hc; subst.
    apply (IH a acc'); auto.
    apply (scan_child_clean replacements c acc a); auto.
Qed.

Lemma fold_union_names {A} (f : A -> expr) (l : list A) (u : expr) :
  expr_names (fold_left (fun acc x => BinOp acc BitOr (f x)) l u)
  = expr_names u ++ flat_map (fun x => expr_names (f x)) l.
Proof.
  revert u. induction l as [|x l IH]; intros u; simpl.
  - now rewrite app_nil_r.
  - rewrite IH. simpl. now rewrite app_assoc.
Qed.

Lemma get_value_clean (replacements : dict string) (k v : string) :
  clean (map snd replacements) -> Py.get k replacements = Some v ->
  is_key v = false.
Proof.
  intros Hc Hg. apply get_in_values in Hg.
  unfold clean in Hc. rewrite Forall_forall in Hc. auto.
Qed.

Lemma dict_member_clean (replacements : dict string) (m : string) :
  clean (map snd replacements) -> is_key m = false ->
  is_key (dict_member replacements m) = false.
Proof.
  intros Hc Hm. unfold dict_member.
  destruct (Py.get m replacements) eqn:E; auto.
  eapply get_value_clean; eauto.
Qed.

Lemma build_dict_union_clean (replacements : dict string) (sc : union_scan)
    (u : expr) :
  clean (map snd replacements) -> scan_clean sc ->
  build_dict_union replacements sc = Ok u -> clean (expr_names u).
Proof.
  intros Hr [Hn Ho] H. unfold build_dict_union in H.
  destruct (named_union_members sc) as [|first rest]; [discriminate|].
  inversion Hn; subst.
  assert (Hbase : clean (expr_names
            (fold_left (fun dict_union other => BinOp dict_union BitOr other)
               (other_union_members sc)
               (fold_left
                  (fun dict_union m =>
                     BinOp dict_union BitOr
                       (Name (dict_member replacements m) Load))
                  rest (Name (dict_member replacements first) Load))))).
  { rewrite (fold_union_names (fun e => e)).
    rewrite (fold_union_names (fun m => Name (dict_member replacements m) Load)).
    simpl. constructor; [now apply dict_member_clean|].
    apply clean_app. split.
    - apply clean_flat_map. apply Forall_forall. intros m Hm. simpl.
      constructor; [|constructor]. apply dict_member_clean; auto.
      unfold clean in *. rewrite Forall_forall in *. auto.
    - apply clean_flat_map. exact Ho. }
  destruct (optional_union sc); inversion H; subst; clear H; simpl.
  - now rewrite app_nil_r.
  - exact Hbase.
Qed.

Lemma set_values_clean (d : dict string) (k v : string) :
  clean (map snd d) -> is_key v = false -> clean (map snd (Py.set k v d)).
Proof.
  intros Hd Hv. induction d as [|[k' v'] d IH]; simpl.
  - repeat constructor. exact Hv.
  - simpl in Hd. inversion Hd; subst. destruct (String.eqb k k'); simpl.
    + constructor; auto.
    + constructor; auto. apply IH. assumption.
Qed.

Lemma process_class_clean name bases kws body decos st n' st' :
  state_clean st ->
  process_class name bases kws body decos st = Ok (n', st') ->
  state_clean st'
  /\ stmt_names n' = stmt_names (ClassDef name bases kws body decos)
  /\ class_name_of n' = [override name].
Proof.
  intros [Hd Ha]. unfold process_class, override.
  pose proof (is_key_override name) as Hname. unfold override in Hname.
  destruct (Py.get name _DATA_MODEL_NAME_OVERRIDES) as [o|]; cbv zeta.
  - destruct (negb (endswith o "Dict")).
    + intros H; inversion H; subst. repeat split; auto.
    + destruct (negb (in_set _ _)); [discriminate|].
      destruct body as [|[| | |[|[]| | | | |]| |] rest];
        intros H; inversion H; subst; clear H;
        (split; [split; cbn; auto using set_values_clean | split; reflexivity]).
  - destruct (negb (endswith name "Dict")).
    + intros H; inversion H; subst. repeat split; auto.
    + destruct (negb (in_set _ _)); [discriminate|].
      intros H; inversion H; subst; clear H.
      split; [split; cbn; auto using set_values_clean | split; reflexivity].
Qed.

Lemma simple_alias_name (e : expr) (name : string) :
  simple_alias e = Some name -> In name (expr_names e).
Proof.
  destruct e; simpl; try discriminate.
  - intros H; inversion H; auto.
  - destruct e2; try discriminate.
    destruct elts as [|[] elts]; try discriminate.
    destruct (is_name "Annotated" e1); [|discriminate].
    intros H; inversion H; subst. apply in_or_app. right. simpl. auto.
Qed.

Lemma process_alias_clean builtin_names body_idx alias e st st' :
  is_key alias = false -> clean (expr_names e) -> state_clean st ->
  process_alias builtin_names body_idx alias e st = Ok st' ->
  state_clean st'.
Proof.
  intros Halias He [Hd Ha]. unfold process_alias.
  destruct (simple_alias e) as [name|] eqn:Hs.
  - apply simple_alias_name in Hs.
    assert (Hname : is_key name = false).
    { unfold clean in He. rewrite Forall_forall in He. auto. }
    destruct (in_set name builtin_names).
    + intros H; inversion H; subst. split; cbn; auto using set_values_clean.
    + destruct (Py.get name (dict_token_replacements st)) eqn:G;
        intros H; inversion H; subst; [|split; auto].
      split; cbn; auto.
      apply set_values_clean; auto. eapply get_value_clean; eauto.
  - destruct e; try (intros H; inversion H; subst; split; auto; fail).
    destruct op; try (intros H; inversion H; subst; split; auto; fail).
    intros H. bind_inv H. rename a into sc.
    assert (Hsc : scan_clean sc).
    { eapply scan_union_clean; [apply walk_clean; exact He | | exact E].
      split; constructor. }
    destruct (needs_dict_alias sc); [|inversion H; subst; split; auto].
    bind_inv H. rename a into dict_union. inversion H; subst; clear H.
    assert (Hdict : is_key (alias ++ "Dict") = false)
      by now apply dict_alias_not_key.
    assert (Hd' : clean (map snd (Py.set alias (alias ++ "Dict")%string
                                    (dict_token_replacements st))))
      by now apply set_values_clean.
    split; cbn; auto.
    apply Forall_app. split; auto. constructor; [|constructor].
    cbn. constructor; auto.
    eapply build_dict_union_clean; eauto.
Qed.

Lemma top_level_step_clean builtin_names body_idx n st n' st' :
  clean (stmt_names n) -> state_clean st ->
  top_level_step builtin_names body_idx n st = Ok (n', st') ->
  state_clean st'
  /\ stmt_names n' = stmt_names n
  /\ class_name_of n' = map override (class_name_of n).
Proof.
  intros Hn Hst. unfold top_level_step. destruct n.
  - intros H. apply (process_class_clean _ _ _ _ _ _ _ _ Hst H).
  - destruct targets as [|[] [|]];
      try (intros H; inversion H; subst; auto; fail).
    intros H. bind_inv H. inversion H; subst; clear H.
    split; [|split; reflexivity].
    cbn in Hn. inversion Hn; subst.
    eapply process_alias_clean; eauto.
  - intros H; inversion H; subst; auto.
  - intros H; inversion H; subst; auto.
  - intros H; inversion H; subst; auto.
  - intros H; inversion H; subst; auto.
Qed.

Lemma top_level_scan_clean builtin_names :
  forall body body_idx st body' st',
    clean (module_names body) -> state_clean st ->
    top_level_scan builtin_names body_idx body st = Ok (body', st') ->
    state_clean st'
    /\ module_names body' = module_names body
    /\ class_names body' = map override (class_names body).
Proof.
  induction body as [|n body IH]; intros body_idx st body' st' Hb Hst H;
    simpl in H.
  - inversion H; subst. auto.
  - bind_inv H. destruct a as [n1 st1]. bind_inv H. destruct a as [rest' st2].
    inversion H; subst; clear H.
    unfold module_names in Hb. simpl in Hb. apply clean_app in Hb.
    destruct Hb as [Hn Hb].
    destruct (top_level_step_clean _ _ _ _ _ _ Hn Hst E) as [Hst1 [N1 C1]].
    destruct (IH _ _ _ _ Hb Hst1 E0) as [Hst2 [N2 C2]].
    split; auto. unfold module_names, class_names in *. simpl.
    now rewrite N1, N2, C1, C2, map_app.
Qed.

Lemma splice_names_clean (additional : list (nat * stmt)) (body : list stmt) :
  Forall (fun p => clean (stmt_names (snd p))) additional ->
  clean (module_names body) ->
  clean (module_names (splice additional body)).
Proof.
  intros Hall. unfold splice. apply Forall_rev in Hall. revert body.
  induction Hall as [|[i n] l Hn Hl IH]; intros body Hb; simpl; auto.
  apply IH. unfold insert_at, module_names.
  rewrite flat_map_app. simpl. apply clean_app. split; [|apply clean_app; split].
  - unfold module_names in Hb. rewrite <- (firstn_skipn i body) in Hb.
    rewrite flat_map_app in Hb. now apply clean_app in Hb.
  - exact Hn.
  - unfold module_names in Hb. rewrite <- (firstn_skipn i body) in Hb.
    rewrite flat_map_app in Hb. now apply clean_app in Hb.
Qed.

Lemma rename_module_class_names (body : list stmt) :
  class_names (rename_module body) = class_names body.
Proof.
  unfold class_names, rename_module.
  induction body as [|s body IH]; simpl; auto.
  rewrite IH. destruct s; reflexivity.
Qed.

(** C7 (amended): for every key of the Name Override Table, the walk over
    all nodes replaces the key by its mapped name at every [Name] node
    (looked up or assigned) and at every string constant equal to it, and
    the scan of the top level nodes does so at every top level class
    definition.  Afterwards no [Name] node of the final tree (the
    synthesized Dict aliases included) and no top level class definition
    carries a key, no string constant of the walked tree is a key, and no
    name the later passes write (a value of DictTokenReplacements, an
    exported name) is a key.  Class definitions nested in other statements
    keep their names. *)
Theorem rename_completeness
    (builtin_names : list string) (model_ast : list stmt) (r : rewritten)
    (Hrun : rewrite_tree builtin_names model_ast = Ok r) :
  (forall k v, Py.get k _DATA_MODEL_NAME_OVERRIDES = Some v ->
               override k = v /\ is_key v = false)
  /\ module_names (rename_module model_ast)
     = map override (module_names model_ast)
  /\ module_strings (rename_module model_ast)
     = map override (module_strings model_ast)
  /\ class_names (final_tree r) = map override (class_names model_ast)
  /\ clean (module_names (final_tree r))
  /\ clean (module_strings (rename_module model_ast))
  /\ clean (class_names (final_tree r))
  /\ clean (map snd (dict_token_replacements (rw_state r)))
  /\ clean (exported_names (rw_state r)).
Proof.
  unfold rewrite_tree in Hrun.
  bind_inv Hrun. destruct a as [body st]. inversion Hrun; subst r; clear Hrun.
  unfold final_tree. cbn [rw_body rw_state].
  assert (Hwalked : clean (module_names (rename_module model_ast))).
  { rewrite rename_module_names. apply overridden_not_keys. }
  assert (Hinit : state_clean initial_state) by (split; constructor).
  destruct (top_level_scan_clean _ _ _ _ _ _ Hwalked Hinit E)
    as [[Hd Ha] [Hnames Hclasses]].
  destruct (top_level_scan_exported _ _ _ _ _ _ E) as [Hexp Hassign].
  rewrite rename_module_class_names in Hclasses.
  assert (Hfinal : class_names (splice (additional_nodes st) body)
                   = map override (class_names model_ast)).
  { rewrite class_names_splice by (apply Hassign; constructor).
    exact Hclasses. }
  repeat split.
  - now apply override_key.
  - eapply override_values_not_keys; eauto.
  - apply rename_module_names.
  - apply rename_module_strings.
  - exact Hfinal.
  - apply splice_names_clean; auto. now rewrite Hnames.
  - rewrite rename_module_strings. apply overridden_not_keys.
  - rewrite Hfinal. apply overridden_not_keys.
  - exact Hd.
  - rewrite Hexp. simpl. rewrite Hclasses. apply overridden_not_keys.
Qed.

Lemma rename_completeness_witness :
  exists r,
    rewrite_tree [] nested_module = Ok r
    /\ module_names (final_tree r)
       = ["Struct"; "Struct"; "first"; "AnyChatMessage"; "UserMessage"]
    /\ clean (module_names (final_tree r)).
Proof.
  destruct (rewrite_tree [] nested_module) as [r|e] eqn:Hrun;
    [|discriminate Hrun].
  exists r. split; [reflexivity|]. split.
  - vm_compute in Hrun. inversion Hrun. reflexivity.
  - exact (proj1 (proj2 (proj2 (proj2 (proj2
             (rename_completeness [] nested_module r Hrun)))))).
Defined.

(** C7, as stated, fails on [nested_module]: the nested class definition
    keeps the name [ChatMessageData], a key of the table, while the
    annotation that refers to it is renamed. *)
Lemma nested_class_not_renamed :
  exists r,
    rewrite_tree [] nested_module = Ok r
    /\ final_tree r
       = [ClassDef "Chat" [Name "Struct" Load] []
            [ClassDef "ChatMessageData" [Name "Struct" Load] [] [Pass] [];
             AnnAssign (Name "first" Store) (Name "AnyChatMessage" Load) None]
            [];
          Assign [Name "UserMessage" Store] (Constant (CStr "UserMessage"))]
    /\ is_key "ChatMessageData" = true
    /\ In "ChatMessageData" (flat_map all_class_names (final_tree r)).
Proof. eexists. repeat split. simpl. auto. Qed.

(** ** The walk visits every node *)

Lemma queue_size_app (l m : list node) :
  queue_size (l ++ m) = queue_size l + queue_size m.
Proof. induction l; simpl; lia. Qed.

Lemma queue_size_exprs (l : list expr) :
  queue_size (map NExpr l) = fold_right (fun x acc => expr_size x + acc) 0 l.
Proof. induction l; simpl; auto. Qed.

Lemma queue_size_keywords (l : list (option string * expr)) :
  queue_size (map NKeyword l)
  = fold_right (fun k acc => 1 + expr_size (snd k) + acc) 0 l.
Proof. induction l; simpl; auto. Qed.

Lemma node_size_children (n : node) :
  node_size n = 1 + queue_size (iter_child_nodes n).
Proof.
  destruct n as [e|c|o|[a v]]; simpl; try lia.
  destruct e; simpl; try lia;
    rewrite ?queue_size_app, ?queue_size_exprs;
    try (pose proof (queue_size_keywords keywords) as Hk; simpl in Hk);
    simpl; lia.
Qed.

(** Fuel beyond the number of nodes in the queue changes nothing: the
    queue runs empty first. *)
Lemma walk_queue_enough (fuel extra : nat) :
  forall todo,
    queue_size todo <= fuel ->
    walk_queue (fuel + extra) todo = walk_queue fuel todo
    /\ List.length (walk_queue fuel todo) = queue_size todo.
Proof.
  induction fuel as [|fuel IH]; intros todo H.
  - destruct todo as [|n rest].
    + destruct extra; auto.
    + simpl in H. pose proof (node_size_children n). lia.
  - destruct todo as [|n rest]; simpl; auto.
    simpl in H. pose proof (node_size_children n) as Hn.
    destruct (IH (rest ++ iter_child_nodes n)) as [E L].
    { rewrite queue_size_app. lia. }
    rewrite E, L, queue_size_app. split; [reflexivity | lia].
Qed.

Lemma walk_complete (e : expr) (extra : nat) :
  walk_queue (expr_size e + extra) [NExpr e] = walk e
  /\ List.length (walk e) = expr_size e.
Proof.
  destruct (walk_queue_enough (expr_size e) extra [NExpr e]) as [E L].
  - simpl. lia.
  - split; [exact E|]. unfold walk. rewrite L. simpl. lia.
Qed.

(** ** Fuel *)

(** A result of [_process_subschema] that is not the cut of the model is
    the result for any larger fuel. *)
Lemma process_fields_fuel
    (f g : string -> path -> json -> result (option _SchemaDef * json))
    (Hfg : forall n p s r, f n p s = r -> r <> Raise OutOfFuel -> g n p s = r) :
  forall field_names name spec_path extracted_defs schema r,
    process_fields f name spec_path field_names extracted_defs schema = r ->
    r <> Raise OutOfFuel ->
    process_fields g name spec_path field_names extracted_defs schema = r.
Proof.
  induction field_names as [|field_name rest IH];
    intros name spec_path extracted_defs schema r H Hr;
    cbn [process_fields] in *; auto.
  destruct (_make_spec_name name (JStr field_name)) as [fsn|e];
    cbn [Py.bind] in *; auto.
  destruct (f fsn (spec_path ++ ["properties"; field_name]) schema)
    as [[defs schema1]|e] eqn:Ef; cbn [Py.bind] in H.
  - rewrite (Hfg _ _ _ _ Ef) by discriminate. cbn [Py.bind].
    destruct (_merge_defs extracted_defs defs) as [ed|e];
      cbn [Py.bind] in *; auto.
  - subst r. rewrite (Hfg _ _ _ _ Ef Hr). reflexivity.
Qed.

Lemma process_subschema_fuel (fuel : nat) :
  forall name spec_path schema r,
    _process_subschema fuel name spec_path schema = r ->
    r <> Raise OutOfFuel ->
    _process_subschema (S fuel) name spec_path schema = r.
Proof.
  induction fuel as [|fuel IH]; intros name spec_path schema r H Hr.
  - simpl in H. congruence.
  - remember (S fuel) as fuel1 eqn:Hfuel1.
    cbn [_process_subschema]. rewrite Hfuel1 in H. cbn [_process_subschema] in H.
    destruct (get_path spec_path schema) as [spec|e]; simpl in *; auto.
    destruct (classify spec); subst fuel1; auto.
    eapply process_fields_fuel; eauto.
Qed.

Lemma process_defs_fuel (fuel : nat) :
  forall names new_defs schema r,
    process_defs fuel names new_defs schema = r ->
    r <> Raise OutOfFuel ->
    process_defs (S fuel) names new_defs schema = r.
Proof.
  induction names as [|name rest IH]; intros new_defs schema r H Hr;
    cbn [process_defs] in *; auto.
  unfold _process_named_spec in *.
  destruct (get_path ["definitions"; name] schema) as [spec|e];
    cbn [Py.bind] in *; auto.
  destruct (is_union spec).
  - destruct (_extract_union_variants name ["definitions"; name] schema)
      as [[defs schema1]|e]; cbn [Py.bind] in *; auto.
    destruct (_merge_defs new_defs defs); cbn [Py.bind] in *; auto.
  - destruct (_process_subschema fuel name ["definitions"; name] schema)
      as [[defs schema1]|e] eqn:Ep.
    + rewrite (process_subschema_fuel _ _ _ _ _ Ep) by discriminate.
      cbn [Py.bind] in *.
      destruct (_merge_defs new_defs defs); cbn [Py.bind] in *; auto.
    + cbn [Py.bind] in H. subst r.
      rewrite (process_subschema_fuel _ _ _ _ _ Ep) by congruence.
      reflexivity.
Qed.

(** The pass does not depend on the fuel once the fuel is enough. *)
Lemma process_schema_fuel (fuel : nat) (schema : json) (r : result json) :
  _process_schema fuel schema = r -> r <> Raise OutOfFuel ->
  _process_schema (S fuel) schema = r.
Proof.
  unfold _process_schema. intros H Hr.
  destruct (subscript schema "definitions"); cbn [Py.bind] in *; auto.
  destruct (delete_excluded _EXCLUDE_EXPORTED_SCHEMAS schema) as [schema1|e];
    cbn [Py.bind] in *; auto.
  destruct (def_names schema1) as [names|e]; cbn [Py.bind] in *; auto.
  destruct (process_defs fuel names [] schema1) as [[new_defs schema2]|e] eqn:Ep.
  - rewrite (process_defs_fuel _ _ _ _ _ Ep) by discriminate. exact H.
  - cbn [Py.bind] in H. subst r.
    rewrite (process_defs_fuel _ _ _ _ _ Ep) by congruence.
    reflexivity.
Qed.

(* ===================================================================== *)
(** * Further properties of the script                                    *)
(* ===================================================================== *)

(** ** References *)

Lemma split_no_sep (sep : ascii) (s : string) :
  has_char sep s = false -> Py.split sep s = [s].
Proof.
  induction s as [|c s IH]; simpl; auto.
  intros H. apply orb_false_iff in H. destruct H as [Hc Hs].
  rewrite Hc, (IH Hs). reflexivity.
Qed.

Lemma split_app_sep (sep : ascii) (a b : string) :
  has_char sep a = false ->
  Py.split sep (a ++ String sep b) = a :: Py.split sep b.
Proof.
  induction a as [|c a IH]; simpl.
  - intros _. now rewrite Ascii.eqb_refl.
  - intros H. apply orb_false_iff in H. destruct H as [Hc Ha].
    rewrite Hc, (IH Ha). reflexivity.
Qed.

Lemma split_nonempty (sep : ascii) (s : string) :
  1 <= List.length (Py.split sep s).
Proof.
  induction s as [|c s IH]; simpl; auto.
  destruct (Ascii.eqb c sep); simpl; [lia|].
  destruct (Py.split sep s); simpl in *; lia.
Qed.

Lemma split_with_sep (sep : ascii) (s : string) :
  has_char sep s = true -> 2 <= List.length (Py.split sep s).
Proof.
  induction s as [|c s IH]; simpl; [discriminate|].
  destruct (Ascii.eqb c sep) eqn:E; simpl.
  - intros _. pose proof (split_nonempty sep s). lia.
  - intros H. specialize (IH H).
    destruct (Py.split sep s); simpl in *; lia.
Qed.

(** X1: the reference [#/definitions/<name>] that the inferencer writes for
    a definition resolves to that definition when the name holds no ["/"],
    and fails with a [KeyError] for the name when the document has no such
    definition. *)
Theorem resolve_definition_ref
    (root defs : dict json) (name : string)
    (Hname : has_char "/" name = false)
    (Hdefs : Py.get "definitions" root = Some (JDict defs)) :
  _resolve_json_ref (JDict root) ("#/definitions/" ++ name)
  = match Py.get name defs with
    | Some target => Ok (["definitions"; name], target)
    | None => Raise (KeyError name)
    end.
Proof.
  unfold _resolve_json_ref.
  change ("#/definitions/" ++ name)%string
    with ("#" ++ String "/" ("definitions" ++ String "/" name))%string.
  rewrite split_app_sep by reflexivity.
  rewrite split_app_sep by reflexivity.
  rewrite (split_no_sep _ _ Hname).
  change (negb (String.eqb "#" "#")) with false. cbv iota.
  cbn [get_path subscript Py.bind]. unfold Py.item. rewrite Hdefs.
  cbn [Py.bind subscript]. unfold Py.item.
  destruct (Py.get name defs); reflexivity.
Qed.

Lemma resolve_definition_ref_witness :
  _resolve_json_ref excluded_only_document
    ("#/definitions/" ++ "llmContextReferenceYamlFile")
  = Ok (["definitions"; "llmContextReferenceYamlFile"], JDict []).
Proof.
  exact (resolve_definition_ref
           [("definitions", JDict [
               ("llmContextReferenceJsonFile", JDict []);
               ("llmContextReferenceYamlFile", JDict []);
               ("Foo/returns",
                JDict [("anyOf", JList [void_spec;
                                        JDict [("type", JStr "number")]])])])]
           [("llmContextReferenceJsonFile", JDict []);
            ("llmContextReferenceYamlFile", JDict []);
            ("Foo/returns",
             JDict [("anyOf", JList [void_spec;
                                     JDict [("type", JStr "number")]])])]
           "llmContextReferenceYamlFile" eq_refl eq_refl).
Defined.

Lemma split_first_empty (sep : ascii) (s : string) (ps : list string) :
  Py.split sep s = EmptyString :: ps ->
  s = EmptyString \/ exists s', s = String sep s'.
Proof.
  destruct s as [|c s]; simpl; auto.
  destruct (Ascii.eqb c sep) eqn:E.
  - apply Ascii.eqb_eq in E. subst. eauto.
  - destruct (Py.split sep s); discriminate.
Qed.

(** X2: only references into the document itself are resolved.  A
    reference that is not ["#"] and does not start with ["#/"] (another
    file, a URL, a bare name) raises [RuntimeError] whatever the document
    holds, and the reference ["#"] alone raises [IndexError]. *)
Theorem resolve_foreign_ref (schema : json) (ref : string) :
  (ref <> "#" -> startswith ref "#/" = false ->
   _resolve_json_ref schema ref
   = Raise (RuntimeError "Only internal refs are supported"))
  /\ _resolve_json_ref schema "#" = Raise IndexError.
Proof.
  split; [|reflexivity].
  intros Hne Hpre. unfold _resolve_json_ref.
  pose proof (split_nonempty "/" ref) as Hlen.
  destruct (Py.split "/" ref) as [|p0 rest] eqn:Hs; [simpl in Hlen; lia|].
  destruct (String.eqb p0 "#") eqn:E; [|reflexivity].
  exfalso. apply String.eqb_eq in E. subst p0.
  destruct ref as [|c r]; simpl in Hs; [discriminate|].
  destruct (Ascii.eqb c "/") eqn:Ec; [discriminate|].
  pose proof (split_nonempty "/" r) as Hlen'.
  destruct (Py.split "/" r) as [|p ps] eqn:Hr; [simpl in Hlen'; lia|].
  inversion Hs; subst.
  destruct (split_first_empty _ _ _ Hr) as [-> | [r' ->]].
  - now apply Hne.
  - unfold startswith in Hpre. simpl in Hpre.
    destruct r'; discriminate Hpre.
Qed.

Lemma resolve_foreign_ref_witness :
  _resolve_json_ref excluded_only_document "other.json#/definitions/Foo"
  = Raise (RuntimeError "Only internal refs are supported").
Proof.
  apply (proj1 (resolve_foreign_ref excluded_only_document
                  "other.json#/definitions/Foo")).
  - discriminate.
  - reflexivity.
Defined.

(** ** The search for a discriminator *)

(** X3: the discriminator of a union is the first candidate, in the order
    of the candidate list, that every variant passes; every candidate
    before it was tried and rejected.  The search finds nothing exactly
    when every candidate is rejected. *)
Theorem find_discriminator_first
    (tag_fields : list string) (resolved_specs : list json) :
  (forall tag_field,
     find_discriminator tag_fields resolved_specs = Ok (Some tag_field) ->
     exists before after,
       tag_fields = before ++ tag_field :: after
       /\ Forall (tagged_variant tag_field) resolved_specs
       /\ Forall (fun t => _check_discriminator t resolved_specs = Ok false)
                 before)
  /\ (find_discriminator tag_fields resolved_specs = Ok None
      <-> Forall (fun t => _check_discriminator t resolved_specs = Ok false)
                 tag_fields).
Proof.
  induction tag_fields as [|t tags [IHsome IHnone]]; simpl.
  - split; [discriminate|]. split; auto.
  - destruct (_check_discriminator t resolved_specs) as [[|]|e] eqn:E; simpl.
    + split.
      * intros tag_field H. inversion H; subst.
        exists [], tags. repeat split; auto.
        now apply check_discriminator_true.
      * split; [discriminate|]. intros H. inversion H; congruence.
    + split.
      * intros tag_field H.
        destruct (IHsome _ H) as [before [after [-> [Hall Hbefore]]]].
        exists (t :: before), after. repeat split; auto.
      * rewrite IHnone. split; intros H.
        -- constructor; auto.
        -- now inversion H.
    + split; [discriminate|]. split; [discriminate|].
      intros H. inversion H; congruence.
Qed.

Lemma find_discriminator_first_witness :
  exists before after,
    ["type"; "kind"] = before ++ "kind" :: after
    /\ Forall (tagged_variant "kind")
         [JDict [("properties",
                  JDict [("kind", JDict [("type", JStr "string");
                                         ("const", JStr "a")])])]]
    /\ Forall (fun t =>
                 _check_discriminator t
                   [JDict [("properties",
                            JDict [("kind", JDict [("type", JStr "string");
                                                   ("const", JStr "a")])])]]
                 = Ok false)
              before.
Proof.
  exact (proj1 (find_discriminator_first ["type"; "kind"]
                  [JDict [("properties",
                           JDict [("kind", JDict [("type", JStr "string");
                                                  ("const", JStr "a")])])]])
               "kind" eq_refl).
Defined.

(** X4: a union without members passes the test of the first candidate
    vacuously: [_extract_union_variants] reports it as discriminated on
    ["type"], with an empty mapping and no extracted definition, whatever
    its name. *)
Theorem empty_union_discriminated
    (name : string) (spec_path : path) (schema : json) (d : dict json)
    (Hspec : get_path spec_path schema = Ok (JDict d))
    (Hany : Py.get "anyOf" d = Some (JList [])) :
  exists schema',
    _extract_union_variants name spec_path schema = Ok (Some [], schema')
    /\ get_path spec_path schema'
       = Ok (JDict (Py.set "discriminator" (discriminator_spec [] "type") d)).
Proof.
  destruct (update_path_ok spec_path
              (on_dict (fun d0 =>
                 Ok (Py.set "discriminator" (discriminator_spec [] "type") d0)))
              schema (JDict d) _ Hspec eq_refl) as [schema' Hupd].
  exists schema'. split.
  - unfold _extract_union_variants. rewrite Hspec. cbn [Py.bind].
    rewrite (anyOf_list_dict _ _ Hany).
    cbn [Py.bind resolve_members map].
    change (find_discriminator _POTENTIAL_TAG_FIELDS [])
      with (@Ok (option string) (Some "type")).
    cbn [Py.bind variant_loop vs_schema vs_map vs_new_defs]. cbv zeta.
    cbn [Py.bind variant_loop vs_schema vs_map vs_new_defs string_keys].
    rewrite Hupd. reflexivity.
  - destruct (update_path_get _ _ _ _ Hupd) as [v [v' [G [F G']]]].
    rewrite Hspec in G. inversion G; subst v.
    cbn [on_dict Py.bind] in F. inversion F; subst v'. exact G'.
Qed.

Lemma empty_union_discriminated_witness :
  exists schema',
    _extract_union_variants "Empty" ["definitions"; "Empty"]
      (JDict [("definitions", JDict [("Empty", JDict [("anyOf", JList [])])])])
    = Ok (Some [], schema')
    /\ get_path ["definitions"; "Empty"] schema'
       = Ok (JDict (Py.set "discriminator" (discriminator_spec [] "type")
                      [("anyOf", JList [])])).
Proof.
  exact (empty_union_discriminated "Empty" ["definitions"; "Empty"]
           (JDict [("definitions",
                    JDict [("Empty", JDict [("anyOf", JList [])])])])
           [("anyOf", JList [])] eq_refl eq_refl).
Defined.

(** ** Names of extracted schemas *)

Lemma append_empty_r (s : string) : (s ++ EmptyString)%string = s.
Proof. induction s; simpl; congruence. Qed.

Lemma append_assoc_str (a b c : string) :
  ((a ++ b) ++ c)%string = (a ++ (b ++ c))%string.
Proof. induction a; simpl; congruence. Qed.

Lemma split_app (sep : ascii) (a b : string) :
  Py.split sep (a ++ String sep b) = Py.split sep a ++ Py.split sep b.
Proof.
  induction a as [|c a IH]; simpl.
  - now rewrite Ascii.eqb_refl.
  - destruct (Ascii.eqb c sep); [now rewrite IH|].
    rewrite IH. pose proof (split_nonempty sep a) as Hlen.
    destruct (Py.split sep a); simpl in *; [lia | reflexivity].
Qed.

Lemma replace_char_app (x y : ascii) (s t : string) :
  replace_char x y (s ++ t) = (replace_char x y s ++ replace_char x y t)%string.
Proof. induction s; simpl; congruence. Qed.

Lemma camel_cased_app (l m : list string) :
  camel_cased (l ++ m)
  = (cl <- camel_cased l ;; cm <- camel_cased m ;; Ok (cl ++ cm)).
Proof.
  induction l as [|p l IH]; simpl.
  - destruct (camel_cased m); reflexivity.
  - destruct (camel_case p); simpl; auto.
    rewrite IH. destruct (camel_cased l); simpl; auto.
    destruct (camel_cased m); reflexivity.
Qed.

Lemma concat_empty_cons (h : string) (t : list string) :
  String.concat EmptyString (h :: t)
  = (h ++ String.concat EmptyString t)%string.
Proof.
  destruct t; simpl; [now rewrite append_empty_r | reflexivity].
Qed.

Lemma concat_empty_app (l m : list string) :
  String.concat EmptyString (l ++ m)
  = (String.concat EmptyString l ++ String.concat EmptyString m)%string.
Proof.
  induction l as [|h l IH]; [reflexivity|].
  change ((h :: l) ++ m) with (h :: (l ++ m)).
  now rewrite !concat_empty_cons, IH, append_assoc_str.
Qed.

(** X5: a suffix with a separator names what its parts name one after the
    other: [_make_spec_name parent "a.b"] is [_make_spec_name] of
    [_make_spec_name parent "a"] and ["b"], errors included (the same holds
    for ["/"]).  So the field ["a.b"] of a schema and the field ["b"] of
    its object field ["a"] get the same name. *)
Theorem make_spec_name_dotted (parent a b : string) :
  _make_spec_name parent (JStr (a ++ "." ++ b))
  = (n <- _make_spec_name parent (JStr a) ;; _make_spec_name n (JStr b))
  /\ _make_spec_name parent (JStr (a ++ "/" ++ b))
     = _make_spec_name parent (JStr (a ++ "." ++ b)).
Proof.
  assert (Hsplit : forall sepc,
             replace_char "." "/" (String sepc EmptyString) = "/" ->
             Py.split "/" (replace_char "." "/" (a ++ String sepc b))
             = Py.split "/" (replace_char "." "/" a)
               ++ Py.split "/" (replace_char "." "/" b)).
  { intros sepc Hsep. rewrite replace_char_app.
    change (String sepc b) with (String sepc EmptyString ++ b)%string.
    rewrite replace_char_app, Hsep. apply split_app. }
  unfold _make_spec_name.
  change (a ++ "." ++ b)%string with (a ++ String "." b)%string.
  change (a ++ "/" ++ b)%string with (a ++ String "/" b)%string.
  rewrite !Hsplit by reflexivity. split; [|reflexivity].
  rewrite camel_cased_app.
  destruct (camel_cased (Py.split "/" (replace_char "." "/" a))) as [ca|e];
    cbn [Py.bind]; auto.
  destruct (camel_cased (Py.split "/" (replace_char "." "/" b))) as [cb|e];
    cbn [Py.bind]; auto.
  now rewrite concat_empty_app, append_assoc_str.
Qed.

Lemma camel_cased_error (parts : list string) :
  (camel_cased parts = Raise IndexError <-> In EmptyString parts)
  /\ (~ In EmptyString parts -> exists cs, camel_cased parts = Ok cs).
Proof.
  induction parts as [|p parts [IHerr IHok]]; simpl.
  - split; [split; [discriminate | tauto] | eauto].
  - destruct p as [|c p]; simpl.
    + split; [split; auto | tauto].
    + split.
      * rewrite <- IHerr. destruct (camel_cased parts); simpl;
          split; intros H; try discriminate; auto.
        -- destruct H; discriminate.
        -- destruct H as [H|H]; [discriminate | exact H].
      * intros Hn. destruct IHok as [cs ->]; [tauto|]. simpl. eauto.
Qed.

(** X6: [_make_spec_name] fails, with [IndexError], exactly when a part of
    the suffix is empty - the suffix is empty, starts or ends with a
    separator, or has two separators in a row - and with [AttributeError]
    when the suffix is not a string; otherwise it returns a name that
    starts with the parent name. *)
Theorem make_spec_name_errors (parent : string) (suffix : json) :
  match suffix with
  | JStr s =>
      let parts := Py.split "/" (replace_char "." "/" s) in
      (_make_spec_name parent suffix = Raise IndexError
       <-> In EmptyString parts)
      /\ (~ In EmptyString parts ->
          exists rest, _make_spec_name parent suffix = Ok (parent ++ rest)%string)
  | _ => _make_spec_name parent suffix = Raise AttributeError
  end.
Proof.
  destruct suffix; try reflexivity. cbv zeta. unfold _make_spec_name.
  destruct (camel_cased_error (Py.split "/" (replace_char "." "/" s)))
    as [Herr Hok].
  split.
  - rewrite <- Herr.
    destruct (camel_cased (Py.split "/" (replace_char "." "/" s)));
      cbn [Py.bind]; split; intros H; try discriminate; congruence.
  - intros Hn. destruct (Hok Hn) as [cs ->]. cbn [Py.bind]. eauto.
Qed.

Lemma make_spec_name_errors_witness :
  exists rest, _make_spec_name "Foo" (JStr "a.b") = Ok ("Foo" ++ rest)%string.
Proof.
  pose proof (make_spec_name_errors "Foo" (JStr "a.b")) as H.
  cbv beta iota zeta in H. destruct H as [_ H]. apply H.
  vm_compute. intros [H1|[H1|[]]]; discriminate.
Defined.

(** ** Merging definitions *)

Lemma get_update {V} (e : dict V) :
  forall (d : dict V) (k : string),
    NoDup (Py.keys e) ->
    Py.get k (Py.update d e)
    = match Py.get k e with Some v => Some v | None => Py.get k d end.
Proof.
  unfold Py.update.
  induction e as [|[k0 v0] e IH]; intros d k Hnd; simpl; [reflexivity|].
  inversion Hnd as [|? ? Hnin Hnd']; subst.
  rewrite IH by assumption.
  destruct (String.eqb k k0) eqn:E.
  - apply String.eqb_eq in E. subst k0.
    destruct (Py.get k e) eqn:G.
    + exfalso. apply Hnin. apply get_in_keys. congruence.
    + apply get_set_eq.
  - destruct (Py.get k e); auto.
    apply get_set_neq. intros ->. now rewrite String.eqb_refl in E.
Qed.

Lemma mem_in_keys {V} (k : string) (d : dict V) :
  Py.mem k d = true <-> In k (Py.keys d).
Proof.
  rewrite <- get_in_keys. unfold Py.mem.
  destruct (Py.get k d); split; congruence.
Qed.

Lemma keys_update {V} (e : dict V) :
  forall d : dict V,
    NoDup (Py.keys e) ->
    (forall k, In k (Py.keys e) -> ~ In k (Py.keys d)) ->
    Py.keys (Py.update d e) = Py.keys d ++ Py.keys e.
Proof.
  unfold Py.update.
  induction e as [|[k0 v0] e IH]; intros d Hnd Hdis; simpl.
  - now rewrite app_nil_r.
  - inversion Hnd as [|? ? Hnin Hnd']; subst.
    assert (Habs : Py.mem k0 d = false).
    { destruct (Py.mem k0 d) eqn:M; auto.
      exfalso. apply (Hdis k0); [simpl; auto | now apply mem_in_keys]. }
    rewrite IH; auto.
    + rewrite (keys_set_absent _ _ _ Habs), <- app_assoc. reflexivity.
    + intros k Hk. rewrite (keys_set_absent _ _ _ Habs).
      intros Hin. apply in_app_or in Hin. destruct Hin as [Hin|[<-|[]]].
      * apply (Hdis k); simpl; auto.
      * auto.
Qed.

Lemma duplicate_keys_nil (existing_defs new_defs : _SchemaDef) :
  duplicate_keys existing_defs new_defs = []
  <-> forall k, In k (Py.keys new_defs) -> ~ In k (Py.keys existing_defs).
Proof.
  unfold duplicate_keys. split.
  - intros H k Hnew Hex.
    assert (Hin : In k (filter (fun k => Py.mem k new_defs)
                               (Py.keys existing_defs))).
    { apply filter_In. split; auto. now apply mem_in_keys. }
    rewrite H in Hin. exact Hin.
  - intros H.
    destruct (filter (fun k => Py.mem k new_defs) (Py.keys existing_defs))
      as [|k l] eqn:E; auto.
    exfalso.
    assert (Hin : In k (filter (fun k => Py.mem k new_defs)
                               (Py.keys existing_defs)))
      by (rewrite E; simpl; auto).
    apply filter_In in Hin. destruct Hin as [Hex Hm].
    apply (H k); auto. now apply mem_in_keys.
Qed.

Lemma merge_defs_spec
    (existing_defs new_defs : _SchemaDef)
    (Hnew : NoDup (Py.keys new_defs)) :
  (forall merged,
     _merge_defs existing_defs (Some new_defs) = Ok merged ->
     (forall k v, Py.get k existing_defs = Some v -> Py.get k merged = Some v)
     /\ (forall k v, Py.get k new_defs = Some v -> Py.get k merged = Some v)
     /\ Py.keys merged = Py.keys existing_defs ++ Py.keys new_defs)
  /\ ((exists k, In k (Py.keys new_defs) /\ In k (Py.keys existing_defs)) ->
      _merge_defs existing_defs (Some new_defs)
      = Raise (RuntimeError "Duplicate extracted definitions")).
Proof.
  split.
  - intros merged H. unfold _merge_defs in H.
    destruct new_defs as [|kv new_defs].
    { inversion H; subst. repeat split; auto.
      - discriminate.
      - now rewrite app_nil_r. }
    destruct (duplicate_keys existing_defs (kv :: new_defs)) eqn:Hdup;
      [|discriminate].
    assert (Hm : merged = Py.update existing_defs (kv :: new_defs))
      by congruence.
    subst merged. clear H.
    pose proof (proj1 (duplicate_keys_nil _ _) Hdup) as Hdis.
    repeat split.
    + intros k v Hk. rewrite get_update by assumption.
      destruct (Py.get k (kv :: new_defs)) eqn:G; auto.
      exfalso. apply (Hdis k); apply get_in_keys; congruence.
    + intros k v Hk. rewrite get_update by assumption. now rewrite Hk.
    + apply keys_update; auto.
  - intros [k [Hk Hex]]. unfold _merge_defs.
    destruct new_defs as [|kv new_defs]; [destruct Hk|].
    destruct (duplicate_keys existing_defs (kv :: new_defs)) eqn:Hdup; auto.
    exfalso. apply (proj1 (duplicate_keys_nil _ _) Hdup k); auto.
Qed.

(** X7: [_merge_defs] never overwrites.  When it returns, every existing
    definition is kept with its schema, every new definition is added with
    its schema, and the new names follow the existing names in their order;
    when a new name is already defined it raises [RuntimeError] and merges
    nothing. *)
Theorem merge_defs_never_overwrites
    (existing_defs new_defs : _SchemaDef)
    (Hnew : NoDup (Py.keys new_defs)) :
  (forall merged,
     _merge_defs existing_defs (Some new_defs) = Ok merged ->
     (forall k v, Py.get k existing_defs = Some v -> Py.get k merged = Some v)
     /\ (forall k v, Py.get k new_defs = Some v -> Py.get k merged = Some v)
     /\ Py.keys merged = Py.keys existing_defs ++ Py.keys new_defs)
  /\ ((exists k, In k (Py.keys new_defs) /\ In k (Py.keys existing_defs)) ->
      _merge_defs existing_defs (Some new_defs)
      = Raise (RuntimeError "Duplicate extracted definitions")).
Proof. exact (merge_defs_spec existing_defs new_defs Hnew). Qed.

Lemma merge_defs_never_overwrites_witness :
  _merge_defs [("Circle", JDict [])] (Some [("Circle", JNull)])
  = Raise (RuntimeError "Duplicate extracted definitions").
Proof.
  apply (proj2 (merge_defs_never_overwrites [("Circle", JDict [])]
                  [("Circle", JNull)]
                  ltac:(repeat constructor; simpl; tauto))).
  exists "Circle". simpl. auto.
Defined.

(** ** The optional-result rewrite, applied again *)

Lemma set_same {V} (k : string) (v : V) (d : dict V) :
  Py.get k d = Some v -> Py.set k v d = d.
Proof.
  induction d as [|[k0 v0] d IH]; simpl; [discriminate|].
  destruct (String.eqb k k0) eqn:E.
  - intros H. inversion H; subst. reflexivity.
  - intros H. now rewrite IH.
Qed.

Lemma update_path_fixed (p : path) (f : json -> result json) :
  forall j v,
    get_path p j = Ok v -> f v = Ok v -> update_path p f j = Ok j.
Proof.
  induction p as [|k p IH]; intros j v G F; simpl in *.
  - inversion G; subst. exact F.
  - destruct j; simpl in G; try discriminate.
    bind_inv G. rewrite E. cbn [Py.bind].
    rewrite (IH _ _ G F). cbn [Py.bind].
    apply item_ok in E. now rewrite (set_same _ _ _ E).
Qed.

(** X8: the optional-result rewrite does not recognise its own output.
    Applied to a union it has rewritten, it takes the reference it wrote
    for the result payload, leaves the document as it is, and returns a
    definition [<prefix>ReturnValue] whose schema is the reference to
    [<prefix>ReturnValue] itself. *)
Theorem rpc_result_rewrite_again
    (name : string) (spec_path : path) (schema schema1 : json)
    (defs1 : _SchemaDef)
    (Hfirst : _process_rpc_result_union name spec_path schema
              = Ok (Some defs1, schema1)) :
  let result_name := (removesuffix name "/returns" ++ "ReturnValue")%string in
  _process_rpc_result_union name spec_path schema1
  = Ok (Some [(result_name, ref_to ("#/definitions/" ++ result_name))],
        schema1).
Proof.
  intros result_name. unfold _process_rpc_result_union in Hfirst.
  bind_inv Hfirst. rename a into spec.
  bind_inv Hfirst. rename a into members.
  destruct (is_none (_is_void_union members)); [discriminate|].
  cbv zeta in Hfirst. fold result_name in Hfirst.
  bind_inv Hfirst. inversion Hfirst; subst a defs1; clear Hfirst.
  destruct (update_path_get _ _ _ _ E1) as [v [v' [G [F G']]]].
  rewrite E in G. inversion G; subst v; clear G.
  destruct spec as [| | | | |d]; try discriminate F.
  cbn [on_dict Py.bind] in F. inversion F; subst v'; clear F.
  unfold _process_rpc_result_union. rewrite G'. cbn [Py.bind].
  rewrite (anyOf_list_dict _ _ (get_set_eq _ _ _)). cbn [Py.bind].
  change (_is_void_union
            [ref_to ("#/definitions/" ++ result_name); null_spec])
    with (ref_to ("#/definitions/" ++ result_name)).
  cbn [is_none ref_to]. cbv zeta. fold result_name.
  rewrite (update_path_fixed _ _ _ _ G').
  - reflexivity.
  - cbn [on_dict Py.bind ref_to]. now rewrite set_set.
Qed.

Lemma rpc_result_rewrite_again_witness :
  exists schema1,
    _process_rpc_result_union "Foo/returns" ["definitions"; "Foo/returns"]
      excluded_only_document
    = Ok (Some [("FooReturnValue", JDict [("type", JStr "number")])], schema1)
    /\ _process_rpc_result_union "Foo/returns" ["definitions"; "Foo/returns"]
         schema1
       = Ok (Some [("FooReturnValue", ref_to "#/definitions/FooReturnValue")],
             schema1).
Proof.
  destruct (_process_rpc_result_union "Foo/returns"
              ["definitions"; "Foo/returns"] excluded_only_document)
    as [[[defs1|] schema1]|e] eqn:H; try discriminate H.
  exists schema1. split.
  - vm_compute in H. inversion H. reflexivity.
  - exact (rpc_result_rewrite_again "Foo/returns"
             ["definitions"; "Foo/returns"] excluded_only_document schema1
             defs1 H).
Defined.

(** ** The names of the definitions during inference *)

Lemma update_path_def_names (p : path) (f : json -> result json)
    (schema schema' : json) :
  2 <= List.length p ->
  update_path p f schema = Ok schema' ->
  def_names schema' = def_names schema.
Proof.
  destruct p as [|k1 [|k2 q]]; simpl; try lia. intros _ H.
  destruct schema as [| | | | |root]; try discriminate.
  bind_inv H. rename a into v1. bind_inv H. rename a into v1'.
  inversion H; subst schema'; clear H.
  destruct v1 as [| | | | |d1]; try discriminate.
  bind_inv E0. rename a into w. bind_inv E0. rename a into w'.
  inversion E0; subst v1'; clear E0.
  apply item_ok in E, E1.
  unfold def_names. cbn [subscript]. unfold Py.item.
  destruct (String.eqb k1 "definitions") eqn:Ek.
  - apply String.eqb_eq in Ek. subst k1.
    rewrite get_set_eq, E. cbn [Py.bind].
    rewrite keys_set_present; auto.
    unfold Py.mem. now rewrite E1.
  - rewrite get_set_neq; auto.
    intros ->. now rewrite String.eqb_refl in Ek.
Qed.

Lemma rpc_result_def_names name spec_path schema r schema' :
  2 <= List.length spec_path ->
  _process_rpc_result_union name spec_path schema = Ok (r, schema') ->
  def_names schema' = def_names schema.
Proof.
  intros Hlen H. unfold _process_rpc_result_union in H.
  bind_inv H. bind_inv H.
  destruct (is_none (_is_void_union a0)); [now inversion H|].
  cbv zeta in H. bind_inv H. inversion H; subst.
  eapply update_path_def_names; eauto.
Qed.

Lemma variant_step_def_names name discriminator tag_title spec_path idx r st st' :
  2 <= List.length spec_path ->
  variant_step name discriminator tag_title spec_path idx r st = Ok st' ->
  def_names (vs_schema st') = def_names (vs_schema st).
Proof.
  intros Hlen H. unfold variant_step in H. destruct r as [spec_ref p|].
  - repeat bind_inv H. inversion H; subst; clear H. cbn [vs_schema].
    eapply update_path_def_names; [|eauto].
    rewrite length_app. simpl. lia.
  - repeat bind_inv H. inversion H; subst; clear H. cbn [vs_schema].
    eapply update_path_def_names; eauto.
Qed.

Lemma variant_loop_def_names name discriminator tag_title spec_path :
  2 <= List.length spec_path ->
  forall rs idx st st',
    variant_loop name discriminator tag_title spec_path idx rs st = Ok st' ->
    def_names (vs_schema st') = def_names (vs_schema st).
Proof.
  intros Hlen. induction rs as [|r rs IH]; intros idx st st' H; simpl in H.
  - now inversion H.
  - bind_inv H. rewrite (IH _ _ _ H).
    eapply variant_step_def_names; eauto.
Qed.

Lemma extract_def_names name spec_path schema r schema' :
  2 <= List.length spec_path ->
  _extract_union_variants name spec_path schema = Ok (r, schema') ->
  def_names schema' = def_names schema.
Proof.
  intros Hlen H. unfold _extract_union_variants in H.
  bind_inv H. bind_inv H. bind_inv H. bind_inv H.
  destruct a2 as [discriminator|].
  - cbv zeta in H. bind_inv H. bind_inv H. bind_inv H.
    inversion H; subst; clear H.
    rewrite (update_path_def_names _ _ _ _ Hlen E5).
    apply (variant_loop_def_names _ _ _ _ Hlen _ _ _ _ E3).
  - destruct (endswith name "/returns").
    + eapply rpc_result_def_names; eauto.
    + now inversion H.
Qed.

Lemma process_fields_def_names
    (f : string -> path -> json -> result (option _SchemaDef * json))
    (Hf : forall n p s r s',
        2 <= List.length p -> f n p s = Ok (r, s') ->
        def_names s' = def_names s) :
  forall field_names name spec_path extracted_defs schema r schema',
    process_fields f name spec_path field_names extracted_defs schema
    = Ok (r, schema') ->
    def_names schema' = def_names schema.
Proof.
  induction field_names as [|field_name rest IH];
    intros name spec_path extracted_defs schema r schema' H;
    cbn [process_fields] in H.
  - now inversion H.
  - bind_inv H. bind_inv H. destruct a0 as [defs schema1]. bind_inv H.
    rewrite (IH _ _ _ _ _ _ H).
    eapply Hf; [|eauto]. rewrite length_app. simpl. lia.
Qed.

Lemma process_subschema_def_names (fuel : nat) :
  forall name spec_path schema r schema',
    2 <= List.length spec_path ->
    _process_subschema fuel name spec_path schema = Ok (r, schema') ->
    def_names schema' = def_names schema.
Proof.
  induction fuel as [|fuel IH]; intros name spec_path schema r schema' Hlen H;
    cbn [_process_subschema] in H; [discriminate|].
  bind_inv H. destruct (classify a).
  - bind_inv H. destruct a0 as [[member_defs|] schema1].
    + bind_inv H. bind_inv H. bind_inv H. inversion H; subst; clear H.
      rewrite (update_path_def_names _ _ _ _ Hlen E2).
      eapply extract_def_names; eauto.
    + inversion H; subst. eapply extract_def_names; eauto.
  - eapply IH; [|eauto]. rewrite length_app. simpl. lia.
  - eapply process_fields_def_names; [|eauto].
    intros n p s r0 s' Hp Hrun. eapply IH; eauto.
  - now inversion H.
Qed.

Lemma process_defs_def_names (fuel : nat) :
  forall names new_defs schema new_defs' schema',
    process_defs fuel names new_defs schema = Ok (new_defs', schema') ->
    def_names schema' = def_names schema.
Proof.
  induction names as [|name rest IH];
    intros new_defs schema new_defs' schema' H; cbn [process_defs] in H.
  - now inversion H.
  - bind_inv H. destruct a as [defs schema1]. bind_inv H.
    rewrite (IH _ _ _ _ H).
    unfold _process_named_spec in E. bind_inv E. rename a0 into spec.
    destruct (is_union spec).
    + eapply extract_def_names; [|eauto]. simpl. lia.
    + eapply process_subschema_def_names; [|eauto]. simpl. lia.
Qed.

Lemma set_NoDup {V} (k : string) (v : V) (d : dict V) :
  NoDup (Py.keys d) -> NoDup (Py.keys (Py.set k v d)).
Proof.
  intros H. destruct (Py.mem k d) eqn:M.
  - now rewrite keys_set_present.
  - rewrite keys_set_absent by assumption.
    apply NoDup_app; auto.
    + repeat constructor. simpl. tauto.
    + intros x Hx [<-|[]].
      apply mem_in_keys in Hx. congruence.
Qed.

Lemma merge_defs_NoDup (existing_defs : _SchemaDef)
    (new_defs : option _SchemaDef) (merged : _SchemaDef) :
  NoDup (Py.keys existing_defs) -> distinct_defs new_defs ->
  _merge_defs existing_defs new_defs = Ok merged ->
  NoDup (Py.keys merged).
Proof.
  intros Hex Hnew H. destruct new_defs as [nd|]; [|now inversion H; subst].
  simpl in Hnew.
  destruct (proj1 (merge_defs_spec existing_defs nd Hnew) merged H)
    as [_ [_ Hkeys]].
  rewrite Hkeys. apply NoDup_app; auto.
  intros k Hk Hk'. unfold _merge_defs in H.
  destruct nd as [|kv nd]; [destruct Hk'|].
  destruct (duplicate_keys existing_defs (kv :: nd)) eqn:Hdup; [|discriminate].
  apply (proj1 (duplicate_keys_nil _ _) Hdup k); auto.
Qed.

Lemma variant_loop_distinct name discriminator tag_title spec_path :
  forall rs idx st st',
    NoDup (Py.keys (vs_new_defs st)) ->
    variant_loop name discriminator tag_title spec_path idx rs st = Ok st' ->
    NoDup (Py.keys (vs_new_defs st')).
Proof.
  induction rs as [|r rs IH]; intros idx st st' Hnd H; simpl in H.
  - now inversion H; subst.
  - bind_inv H. eapply IH; [|exact H].
    unfold variant_step in E. destruct r as [spec_ref p|].
    + repeat bind_inv E. inversion E; subst. exact Hnd.
    + repeat bind_inv E. inversion E; subst. cbn [vs_new_defs].
      now apply set_NoDup.
Qed.

Lemma extract_distinct name spec_path schema r schema' :
  _extract_union_variants name spec_path schema = Ok (r, schema') ->
  distinct_defs r.
Proof.
  intros H. unfold _extract_union_variants in H.
  bind_inv H. bind_inv H. bind_inv H. bind_inv H.
  destruct a2 as [discriminator|].
  - cbv zeta in H. bind_inv H. bind_inv H. bind_inv H.
    inversion H; subst; clear H.
    simpl. eapply variant_loop_distinct; [|eauto]. constructor.
  - destruct (endswith name "/returns"); [|now inversion H; subst].
    unfold _process_rpc_result_union in H. bind_inv H. bind_inv H.
    destruct (is_none (_is_void_union a3)); [now inversion H; subst|].
    cbv zeta in H. bind_inv H. inversion H; subst. simpl.
    repeat constructor. simpl. tauto.
Qed.

Lemma process_fields_distinct
    (f : string -> path -> json -> result (option _SchemaDef * json))
    (Hf : forall n p s r s', f n p s = Ok (r, s') -> distinct_defs r) :
  forall field_names name spec_path extracted_defs schema r schema',
    NoDup (Py.keys extracted_defs) ->
    process_fields f name spec_path field_names extracted_defs schema
    = Ok (r, schema') ->
    distinct_defs r.
Proof.
  induction field_names as [|field_name rest IH];
    intros name spec_path extracted_defs schema r schema' Hnd H;
    cbn [process_fields] in H.
  - now inversion H; subst.
  - bind_inv H. bind_inv H. destruct a0 as [defs schema1]. bind_inv H.
    eapply IH; [|exact H].
    eapply merge_defs_NoDup; eauto.
Qed.

Lemma process_subschema_distinct (fuel : nat) :
  forall name spec_path schema r schema',
    _process_subschema fuel name spec_path schema = Ok (r, schema') ->
    distinct_defs r.
Proof.
  induction fuel as [|fuel IH]; intros name spec_path schema r schema' H;
    cbn [_process_subschema] in H; [discriminate|].
  bind_inv H. destruct (classify a).
  - bind_inv H. destruct a0 as [[member_defs|] schema1].
    + bind_inv H. bind_inv H. bind_inv H. inversion H; subst; clear H.
      simpl. eapply merge_defs_NoDup; [| |exact E3].
      * repeat constructor. simpl. tauto.
      * apply (extract_distinct _ _ _ _ _ E0).
    + now inversion H; subst.
  - eapply IH; eauto.
  - eapply process_fields_distinct; [| |exact H]; [exact (IH)|constructor].
  - now inversion H; subst.
Qed.

Lemma process_defs_distinct (fuel : nat) :
  forall names new_defs schema new_defs' schema',
    NoDup (Py.keys new_defs) ->
    process_defs fuel names new_defs schema = Ok (new_defs', schema') ->
    NoDup (Py.keys new_defs').
Proof.
  induction names as [|name rest IH];
    intros new_defs schema new_defs' schema' Hnd H; cbn [process_defs] in H.
  - now inversion H; subst.
  - bind_inv H. destruct a as [defs schema1]. bind_inv H.
    eapply IH; [|exact H].
    eapply merge_defs_NoDup; [exact Hnd| |exact E0].
    unfold _process_named_spec in E. bind_inv E. rename a0 into spec.
    destruct (is_union spec).
    + eapply extract_distinct; eauto.
    + eapply process_subschema_distinct; eauto.
Qed.

Lemma filter_all {A} (f : A -> bool) (l : list A) :
  (forall x, In x l -> f x = true) -> filter f l = l.
Proof.
  induction l as [|a l IH]; simpl; auto.
  intros H. rewrite (H a) by auto. f_equal. auto.
Qed.

Lemma del_keys {V} (k : string) (d d' : dict V) :
  NoDup (Py.keys d) -> Py.del k d = Ok d' ->
  Py.keys d' = filter (fun x => negb (String.eqb x k)) (Py.keys d).
Proof.
  revert d'. induction d as [|[k0 v0] d IH]; intros d' Hnd H; simpl in H.
  - discriminate.
  - inversion Hnd as [|? ? Hnin Hnd']; subst. simpl.
    destruct (String.eqb k k0) eqn:E.
    + inversion H; subst. apply String.eqb_eq in E. subst k0.
      rewrite String.eqb_refl. simpl.
      symmetry. apply filter_all. intros x Hx.
      apply negb_true_iff. apply String.eqb_neq. intros ->. auto.
    + bind_inv H. inversion H; subst. simpl.
      rewrite String.eqb_sym, E. simpl. f_equal. auto.
Qed.

Lemma delete_name (k : string) (schema schema1 : json) (names : list string) :
  update_path ["definitions"] (del_item k) schema = Ok schema1 ->
  def_names schema = Ok names -> NoDup names ->
  def_names schema1 = Ok (filter (fun x => negb (String.eqb x k)) names).
Proof.
  intros H Hn Hnd. simpl in H.
  destruct schema as [| | | | |root]; try discriminate.
  bind_inv H. bind_inv H. inversion H; subst schema1; clear H.
  destruct a as [| | | | |d]; try discriminate.
  simpl in E0. bind_inv E0. inversion E0; subst a0; clear E0.
  unfold def_names in *. cbn [subscript] in *. unfold Py.item in *.
  apply item_ok in E. rewrite E in Hn. cbn [Py.bind] in Hn.
  inversion Hn; subst names; clear Hn.
  rewrite get_set_eq. cbn [Py.bind].
  now rewrite (del_keys _ _ _ Hnd E1).
Qed.

Lemma filter_filter {A} (f g : A -> bool) (l : list A) :
  filter f (filter g l) = filter (fun x => g x && f x) l.
Proof.
  induction l as [|a l IH]; simpl; auto.
  destruct (g a); simpl; [destruct (f a)|]; simpl; congruence.
Qed.

Lemma delete_excluded_names (excluded : list string) :
  forall schema schema1 names,
    delete_excluded excluded schema = Ok schema1 ->
    def_names schema = Ok names -> NoDup names ->
    def_names schema1
    = Ok (filter (fun k => negb (in_set k excluded)) names).
Proof.
  induction excluded as [|e excluded IH]; intros schema schema1 names H Hn Hnd;
    simpl in H.
  - inversion H; subst. rewrite Hn. f_equal. symmetry.
    now apply filter_all.
  - bind_inv H.
    pose proof (delete_name _ _ _ _ E Hn Hnd) as Hn1.
    rewrite (IH _ _ _ H Hn1) by now apply NoDup_filter.
    f_equal. rewrite filter_filter. apply filter_ext.
    intros k. unfold in_set. simpl. now rewrite negb_orb.
Qed.

Lemma set_absent {V} (k : string) (v : V) (d : dict V) :
  Py.mem k d = false -> Py.set k v d = d ++ [(k, v)].
Proof.
  unfold Py.mem. induction d as [|[k' v'] d IH]; cbn; [reflexivity|].
  destruct (String.eqb k k') eqn:E; cbn; [discriminate|].
  intros H. now rewrite IH.
Qed.

Lemma update_app {V} (e : dict V) :
  forall d : dict V,
    NoDup (Py.keys e) ->
    (forall k, In k (Py.keys e) -> ~ In k (Py.keys d)) ->
    Py.update d e = d ++ e.
Proof.
  unfold Py.update.
  induction e as [|[k0 v0] e IH]; intros d Hnd Hdis; cbn.
  - now rewrite app_nil_r.
  - inversion Hnd as [|? ? Hnin Hnd']; subst.
    assert (Habs : Py.mem k0 d = false).
    { destruct (Py.mem k0 d) eqn:M; auto.
      exfalso. apply (Hdis k0); [cbn; auto | now apply mem_in_keys]. }
    rewrite (set_absent _ _ _ Habs). rewrite IH; auto.
    + now rewrite <- app_assoc.
    + intros k Hk Hin. unfold Py.keys in Hin. rewrite map_app in Hin.
      apply in_app_or in Hin. destruct Hin as [Hin|[<-|[]]].
      * apply (Hdis k); cbn; auto.
      * auto.
Qed.

Lemma merge_defs_app (existing_defs : _SchemaDef)
    (new_defs : option _SchemaDef) (merged : _SchemaDef) :
  distinct_defs new_defs ->
  _merge_defs existing_defs new_defs = Ok merged ->
  merged = existing_defs
           ++ match new_defs with Some ds => ds | None => [] end.
Proof.
  intros Hnew H. destruct new_defs as [nd|];
    [|inversion H; now rewrite app_nil_r].
  cbn in Hnew. unfold _merge_defs in H.
  destruct nd as [|kv nd]; [inversion H; now rewrite app_nil_r|].
  destruct (duplicate_keys existing_defs (kv :: nd)) eqn:Hdup; [|discriminate].
  assert (Hm : merged = Py.update existing_defs (kv :: nd)) by congruence.
  rewrite Hm. apply update_app; [exact Hnew|].
  exact (proj1 (duplicate_keys_nil _ _) Hdup).
Qed.

Lemma named_spec_distinct (fuel : nat) (name : string) (schema : json)
    (defs : option _SchemaDef) (schema1 : json) :
  _process_named_spec fuel name ["definitions"; name] schema
  = Ok (defs, schema1) ->
  distinct_defs defs.
Proof.
  intros E. unfold _process_named_spec in E. bind_inv E. rename a into spec.
  destruct (is_union spec).
  - eapply extract_distinct; eauto.
  - eapply process_subschema_distinct; eauto.
Qed.

(** The loop of [_process_schema] collects what the definitions return,
    one after the other. *)
Lemma process_defs_synthesized (fuel : nat) :
  forall names new_defs schema new_defs' schema',
    process_defs fuel names new_defs schema = Ok (new_defs', schema') ->
    exists more,
      synthesized fuel names schema = Ok more /\ new_defs' = new_defs ++ more.
Proof.
  induction names as [|name rest IH];
    intros new_defs schema new_defs' schema' H;
    cbn [process_defs synthesized] in *.
  - inversion H; subst. exists []. now rewrite app_nil_r.
  - bind_inv H. destruct a as [defs schema1]. bind_inv H.
    rename a into new_defs1.
    destruct (IH _ _ _ _ H) as [more [Hmore ->]].
    rewrite E. cbn [Py.bind]. rewrite Hmore. cbn [Py.bind].
    eexists. split; [reflexivity|].
    rewrite (merge_defs_app _ _ _ (named_spec_distinct _ _ _ _ _ E) E0).
    now rewrite <- app_assoc.
Qed.

Lemma get_of_in {V} (k : string) (v : V) (d : dict V) :
  NoDup (Py.keys d) -> In (k, v) d -> Py.get k d = Some v.
Proof.
  unfold Py.keys. induction d as [|[k' v'] d IH]; cbn; intros Hnd Hin;
    [destruct Hin|].
  inversion Hnd as [|? ? Hnin Hnd']; subst.
  destruct Hin as [Heq | Hin].
  - inversion Heq; subst. now rewrite String.eqb_refl.
  - destruct (String.eqb k k') eqn:E; [|now apply IH].
    apply String.eqb_eq in E. subst k'. exfalso. apply Hnin.
    apply in_map_iff. exists (k, v). auto.
Qed.

(** X9: a pass keeps the definitions it does not exclude under their names
    and in their order, and appends the definitions it synthesizes: the
    names after the kept ones are the names of what [_process_named_spec]
    returned for the kept definitions, one definition after the other, and
    each of these definitions stands in the returned document under its
    name, with the schema that was returned.  No name occurs twice. *)
Theorem inference_appends_definitions
    (fuel : nat) (root defs : dict json) (schema' : json)
    (Hdefs : Py.get "definitions" root = Some (JDict defs))
    (Hnodup : NoDup (Py.keys defs))
    (Hrun : _process_schema fuel (JDict root) = Ok schema') :
  let kept := filter (fun k => negb (in_set k _EXCLUDE_EXPORTED_SCHEMAS))
                     (Py.keys defs) in
  exists schema1 added,
    delete_excluded _EXCLUDE_EXPORTED_SCHEMAS (JDict root) = Ok schema1
    /\ synthesized fuel kept schema1 = Ok added
    /\ def_names schema' = Ok (kept ++ map fst added)
    /\ NoDup (kept ++ map fst added)
    /\ (forall k v, In (k, v) added ->
          get_path ["definitions"; k] schema' = Ok v).
Proof.
  intros kept. unfold _process_schema in Hrun.
  bind_inv Hrun. bind_inv Hrun. rename a0 into schema1.
  bind_inv Hrun. rename a0 into names.
  bind_inv Hrun. destruct a0 as [new_defs schema2].
  assert (Hn0 : def_names (JDict root) = Ok (Py.keys defs)).
  { unfold def_names. cbn [subscript]. unfold Py.item. now rewrite Hdefs. }
  pose proof (delete_excluded_names _ _ _ _ E0 Hn0 Hnodup) as Hn1.
  assert (Hnames : names = kept) by (unfold kept; congruence).
  subst names. clear Hn1.
  pose proof (process_defs_def_names _ _ _ _ _ _ E2) as Hn2.
  rewrite E1 in Hn2.
  assert (Hnew : NoDup (Py.keys new_defs)).
  { eapply process_defs_distinct; [|exact E2]. constructor. }
  destruct (process_defs_synthesized _ _ _ _ _ _ E2) as [added [Hsyn Hadded]].
  cbn [app] in Hadded. subst new_defs.
  assert (Hkept : NoDup kept) by now apply NoDup_filter.
  cbn [update_path] in Hrun.
  destruct schema2 as [| | | | |root2]; try discriminate.
  bind_inv Hrun. rename a0 into defs_value. bind_inv Hrun.
  inversion Hrun; subst schema'; clear Hrun.
  destruct defs_value as [| | | | |defs2]; try discriminate.
  cbn [on_dict] in E4. bind_inv E4. rename a1 into merged.
  inversion E4; subst a0; clear E4.
  apply item_ok in E3.
  unfold def_names in Hn2. cbn [subscript] in Hn2. unfold Py.item in Hn2.
  rewrite E3 in Hn2. cbn [Py.bind] in Hn2.
  assert (Hkeys2 : Py.keys defs2 = kept) by congruence.
  exists schema1, added.
  destruct (proj1 (merge_defs_spec defs2 added Hnew) merged E5)
    as [_ [Hget Hkeys]].
  split; [exact E0|]. split; [exact Hsyn|]. split; [|split].
  - unfold def_names. cbn [subscript]. unfold Py.item.
    rewrite get_set_eq. cbn [Py.bind]. now rewrite Hkeys, Hkeys2.
  - change (map fst added) with (Py.keys added).
    rewrite <- Hkeys2, <- Hkeys.
    eapply merge_defs_NoDup; [| |exact E5]; [|exact Hnew].
    rewrite Hkeys2. exact Hkept.
  - intros k v Hin. cbn [get_path subscript]. unfold Py.item.
    rewrite get_set_eq. cbn [Py.bind subscript]. unfold Py.item.
    now rewrite (Hget k v (get_of_in _ _ _ Hnew Hin)).
Qed.

Lemma inference_appends_definitions_witness :
  exists schema' schema1 variant_a variant_b,
    _process_schema 2 context_reference_document = Ok schema'
    /\ synthesized 2 ["llmContextReference"] schema1
       = Ok [("llmContextReferenceJsonFile", variant_a);
             ("llmContextReferenceYamlFile", variant_b)]
    /\ def_names schema'
       = Ok (["llmContextReference"]
             ++ ["llmContextReferenceJsonFile"; "llmContextReferenceYamlFile"])
    /\ get_path ["definitions"; "llmContextReferenceJsonFile"] schema'
       = Ok variant_a.
Proof.
  destruct (_process_schema 2 context_reference_document)
    as [schema'|e] eqn:Hrun; [|discriminate Hrun].
  destruct (inference_appends_definitions 2
              [("definitions", JDict [
                 ("llmContextReferenceJsonFile", JDict [("type", JStr "string")]);
                 ("llmContextReferenceYamlFile", JDict [("type", JStr "string")]);
                 ("llmContextReference",
                  JDict [("anyOf", JList [tagged_object "jsonFile";
                                          tagged_object "yamlFile"])])])]
              [("llmContextReferenceJsonFile", JDict [("type", JStr "string")]);
               ("llmContextReferenceYamlFile", JDict [("type", JStr "string")]);
               ("llmContextReference",
                JDict [("anyOf", JList [tagged_object "jsonFile";
                                        tagged_object "yamlFile"])])]
              schema' eq_refl
              ltac:(repeat constructor; simpl; intuition discriminate)
              Hrun) as [schema1 [added [Hdel [Hsyn [Hnames [Hnd Hget]]]]]].
  assert (Hadded : exists variant_a variant_b,
             added = [("llmContextReferenceJsonFile", variant_a);
                      ("llmContextReferenceYamlFile", variant_b)]).
  { pose proof Hdel as Hd. vm_compute in Hd. inversion Hd; subst schema1.
    pose proof Hsyn as Hs. vm_compute in Hs. inversion Hs. eauto. }
  destruct Hadded as [variant_a [variant_b ->]].
  exists schema', schema1, variant_a, variant_b.
  split; [reflexivity|]. split; [exact Hsyn|]. split; [exact Hnames|].
  apply Hget. now left.
Defined.

(** ** Where the dict aliases are inserted *)

Section Splice.
Context {A : Type}.
Implicit Types (l body : list A) (additional : list (nat * A)).

Lemma nth_insert_at_lt (i k : nat) (x : A) l :
  k < i -> i <= List.length l ->
  nth_error (insert_at i x l) k = nth_error l k.
Proof.
  intros Hk Hi. unfold insert_at.
  rewrite nth_error_app1 by (rewrite length_firstn; lia).
  rewrite nth_error_firstn.
  destruct (Nat.ltb_spec k i); [reflexivity | lia].
Qed.

Lemma nth_insert_at_eq (i : nat) (x : A) l :
  i <= List.length l -> nth_error (insert_at i x l) i = Some x.
Proof.
  intros Hi. unfold insert_at.
  rewrite nth_error_app2 by (rewrite length_firstn; lia).
  rewrite length_firstn, Nat.min_l, Nat.sub_diag by lia. reflexivity.
Qed.

Lemma nth_insert_at_gt (i k : nat) (x : A) l :
  i <= k -> i <= List.length l ->
  nth_error (insert_at i x l) (S k) = nth_error l k.
Proof.
  intros Hk Hi. unfold insert_at.
  rewrite nth_error_app2 by (rewrite length_firstn; lia).
  rewrite length_firstn, Nat.min_l by lia.
  replace (S k - i) with (S (k - i)) by lia. simpl.
  rewrite nth_error_skipn. f_equal. lia.
Qed.

Lemma length_insert_at (i : nat) (x : A) l :
  List.length (insert_at i x l) = S (List.length l).
Proof.
  unfold insert_at. rewrite length_app. simpl.
  rewrite <- (firstn_skipn i l) at 3. rewrite length_app. lia.
Qed.

Lemma splice_gen_snoc additional (p : nat * A) body :
  splice_gen (additional ++ [p]) body
  = splice_gen additional (insert_at (fst p) (snd p) body).
Proof. unfold splice_gen. now rewrite rev_unit. Qed.

Lemma count_le_app additional (more : list (nat * A)) (k : nat) :
  count_le (additional ++ more) k = count_le additional k + count_le more k.
Proof. unfold count_le. now rewrite filter_app, length_app. Qed.

Lemma count_le_all additional (k : nat) :
  Forall (fun p => fst p <= k) additional ->
  count_le additional k = List.length additional.
Proof.
  unfold count_le. induction 1 as [|p l Hp Hl IH]; simpl; auto.
  destruct (Nat.leb_spec (fst p) k); simpl; [congruence | lia].
Qed.

Lemma count_le_none additional (k : nat) :
  Forall (fun p => k < fst p) additional -> count_le additional k = 0.
Proof.
  unfold count_le. induction 1 as [|p l Hp Hl IH]; simpl; auto.
  destruct (Nat.leb_spec (fst p) k); simpl; [lia | assumption].
Qed.

Lemma increasing_snoc additional (p : nat * A) :
  increasing (additional ++ [p]) ->
  increasing additional /\ Forall (fun q => fst q < fst p) additional.
Proof.
  unfold increasing. induction additional as [|q l IH]; simpl; intros H.
  - split; constructor.
  - inversion H as [|? ? Hs Hall]; subst.
    destruct (IH Hs) as [Hl Hlt]. split.
    + constructor; auto. apply Forall_app in Hall. tauto.
    + constructor; auto. apply Forall_app in Hall.
      destruct Hall as [_ Hp]. now inversion Hp.
Qed.

(** The insertions, done from the highest index down, put the [j]-th
    scheduled node [j] places after its index, and shift every original
    node by the number of insertions scheduled up to its index. *)
Lemma splice_gen_positions additional :
  forall body,
    increasing additional ->
    Forall (fun p => fst p <= List.length body) additional ->
    (forall k x, nth_error body k = Some x ->
       nth_error (splice_gen additional body) (k + count_le additional k)
       = Some x)
    /\ (forall j i n, nth_error additional j = Some (i, n) ->
          nth_error (splice_gen additional body) (i + j) = Some n).
Proof.
  induction additional as [|[i0 n0] additional IH] using rev_ind;
    intros body Hinc Hbound.
  - split.
    + intros k x Hk. unfold count_le. simpl. now rewrite Nat.add_0_r.
    + intros j i n Hj. destruct j; discriminate.
  - apply increasing_snoc in Hinc. destruct Hinc as [Hinc Hlt]. simpl in Hlt.
    apply Forall_app in Hbound. destruct Hbound as [Hbound Hi0].
    inversion Hi0 as [|? ? Hi0' _]; subst. simpl in Hi0'.
    rewrite splice_gen_snoc. simpl fst. simpl snd.
    destruct (IH (insert_at i0 n0 body) Hinc) as [IHbody IHnode].
    { eapply Forall_impl; [|exact Hbound]. intros p Hp. simpl in Hp.
      rewrite length_insert_at. lia. }
    assert (Hall : forall k, i0 <= k ->
               count_le additional k = List.length additional).
    { intros k Hk. apply count_le_all.
      eapply Forall_impl; [|exact Hlt]. simpl. intros p Hp. lia. }
    split.
    + intros k x Hk. rewrite count_le_app.
      unfold count_le at 2. simpl.
      destruct (Nat.leb_spec i0 k) as [Hle|Hgt]; simpl.
      * replace (k + (count_le additional k + 1))
          with (S k + count_le additional (S k))
          by (rewrite !Hall by lia; lia).
        apply IHbody. now rewrite nth_insert_at_gt.
      * rewrite Nat.add_0_r. apply IHbody. now rewrite nth_insert_at_lt.
    + intros j i n Hj.
      destruct (Nat.lt_ge_cases j (List.length additional)) as [Hlt'|Hge].
      * rewrite nth_error_app1 in Hj by assumption. eauto.
      * rewrite nth_error_app2 in Hj by assumption.
        destruct (j - List.length additional) as [|m] eqn:Hm;
          [|destruct m; discriminate].
        inversion Hj; subst i n.
        replace j with (List.length additional) by lia.
        rewrite <- (Hall i0) by lia.
        apply IHbody. now apply nth_insert_at_eq.
Qed.

Lemma count_le_before additional (j : nat) (p : nat * A) :
  increasing additional -> nth_error additional j = Some p ->
  forall b, fst p = S b -> count_le additional b = j.
Proof.
  intros Hinc Hj b Hb. apply nth_error_split in Hj.
  destruct Hj as [l1 [l2 [-> Hlen]]].
  unfold increasing in Hinc.
  assert (H1 : Forall (fun q => fst q <= b) l1).
  { clear Hlen. induction l1 as [|q l1 IH]; [constructor|].
    simpl in Hinc. inversion Hinc as [|? ? Hs Hall]; subst.
    constructor; auto. apply Forall_app in Hall. destruct Hall as [_ Hp].
    inversion Hp; subst. lia. }
  assert (H2 : Forall (fun q => b < fst q) (p :: l2)).
  { clear Hlen H1. induction l1 as [|q l1 IH].
    - simpl in Hinc. inversion Hinc as [|? ? Hs Hall]; subst.
      constructor; [lia|]. eapply Forall_impl; [|exact Hall].
      simpl. intros q Hq. lia.
    - simpl in Hinc. inversion Hinc; subst. auto. }
  rewrite count_le_app, (count_le_all _ _ H1), (count_le_none _ _ H2). lia.
Qed.

End Splice.

Lemma process_alias_schedule builtin_names body_idx alias e st st' :
  process_alias builtin_names body_idx alias e st = Ok st' ->
  additional_nodes st' = additional_nodes st
  \/ exists u,
       additional_nodes st'
       = additional_nodes st
         ++ [(body_idx + 1, Assign [Name (alias ++ "Dict") Store] u)].
Proof.
  unfold process_alias. destruct (simple_alias e) as [name|].
  - destruct (in_set name builtin_names); [intros H; inversion H; auto|].
    destruct (Py.get name (dict_token_replacements st));
      intros H; inversion H; auto.
  - destruct e; try (intros H; inversion H; subst; auto; fail).
    destruct op; try (intros H; inversion H; subst; auto; fail).
    intros H. bind_inv H.
    destruct (needs_dict_alias a); [|inversion H; subst; auto].
    bind_inv H. inversion H; subst; clear H. simpl. right. eauto.
Qed.

Lemma top_level_step_schedule builtin_names body_idx n st n' st' :
  top_level_step builtin_names body_idx n st = Ok (n', st') ->
  additional_nodes st' = additional_nodes st
  \/ exists alias ctx e u,
       n' = Assign [Name alias ctx] e
       /\ additional_nodes st'
          = additional_nodes st
            ++ [(body_idx + 1, Assign [Name (alias ++ "Dict") Store] u)].
Proof.
  unfold top_level_step. destruct n.
  - intros H. left. apply (process_class_exported _ _ _ _ _ _ _ _ H).
  - destruct targets as [|[] [|]];
      try (intros H; inversion H; subst; auto; fail).
    intros H. bind_inv H. inversion H; subst; clear H.
    destruct (process_alias_schedule _ _ _ _ _ _ E) as [Hs|[u Hs]]; auto.
    right. eauto 6.
  - intros H; inversion H; subst; auto.
  - intros H; inversion H; subst; auto.
  - intros H; inversion H; subst; auto.
  - intros H; inversion H; subst; auto.
Qed.

(** What the scan of the top level nodes schedules: one node per alias
    that needs a dict alias, for the index after the alias, in the order of
    the aliases. *)
Lemma top_level_scan_schedule builtin_names :
  forall body body_idx st body' st',
    top_level_scan builtin_names body_idx body st = Ok (body', st') ->
    exists scheduled,
      additional_nodes st' = additional_nodes st ++ scheduled
      /\ increasing scheduled
      /\ Forall (fun p => body_idx < fst p <= body_idx + List.length body')
                scheduled
      /\ Forall (dict_alias_of body' body_idx) scheduled.
Proof.
  induction body as [|n body IH]; intros body_idx st body' st' H; simpl in H.
  - inversion H; subst. exists []. rewrite app_nil_r.
    repeat split; constructor.
  - bind_inv H. destruct a as [n1 st1]. bind_inv H. destruct a as [rest' st2].
    inversion H; subst; clear H.
    destruct (IH _ _ _ _ E0) as [sch2 [Hadd2 [Hinc2 [Hb2 Hd2]]]].
    assert (Hd2' : Forall (dict_alias_of (n1 :: rest') body_idx) sch2).
    { rewrite Forall_forall in *. intros p Hp.
      destruct (Hd2 p Hp) as [alias [ctx [e [u [Hn Hs]]]]].
      specialize (Hb2 p Hp).
      exists alias, ctx, e, u. split; auto.
      replace (fst p - 1 - body_idx) with (S (fst p - 1 - S body_idx)) by lia.
      exact Hn. }
    assert (Hb2' : Forall (fun p => body_idx < fst p
                                    <= body_idx + List.length (n1 :: rest'))
                          sch2).
    { eapply Forall_impl; [|exact Hb2]. simpl. intros p Hp. lia. }
    destruct (top_level_step_schedule _ _ _ _ _ _ E)
      as [Hadd1 | [alias [ctx [e [u [Hn1 Hadd1]]]]]].
    + exists sch2. rewrite Hadd2, Hadd1. repeat split; auto.
    + exists ((body_idx + 1, Assign [Name (alias ++ "Dict") Store] u) :: sch2).
      rewrite Hadd2, Hadd1, <- app_assoc. repeat split; auto.
      * constructor; auto.
        eapply Forall_impl; [|exact Hb2]. simpl. intros p Hp. lia.
      * constructor; auto. simpl. lia.
      * constructor; auto. exists alias, ctx, e, u. simpl.
        replace (body_idx + 1 - 1 - body_idx) with 0 by lia.
        subst n1. auto.
Qed.

(** X10: every dict alias the scan synthesizes ends up immediately after
    its alias: the [j]-th synthesized node, scheduled for index [idx], is
    the assignment to [<alias>Dict], it stands at index [idx + j] of the
    final tree, and the assignment to [<alias>] stands right before it. *)
Theorem dict_alias_follows_alias
    (builtin_names : list string) (model_ast : list stmt) (r : rewritten)
    (j idx : nat) (node : stmt)
    (Hrun : rewrite_tree builtin_names model_ast = Ok r)
    (Hnode : nth_error (additional_nodes (rw_state r)) j = Some (idx, node)) :
  exists alias ctx e u b,
    idx = S b
    /\ node = Assign [Name (alias ++ "Dict") Store] u
    /\ nth_error (rw_body r) b = Some (Assign [Name alias ctx] e)
    /\ nth_error (final_tree r) (b + j) = Some (Assign [Name alias ctx] e)
    /\ nth_error (final_tree r) (S b + j) = Some node.
Proof.
  unfold rewrite_tree in Hrun.
  bind_inv Hrun. destruct a as [body st]. inversion Hrun; subst r; clear Hrun.
  unfold final_tree. cbn [rw_body rw_state] in *.
  destruct (top_level_scan_schedule _ _ _ _ _ _ E)
    as [sch [Hadd [Hinc [Hbound Hdict]]]].
  simpl in Hadd. rewrite Hadd in *.
  pose proof (nth_error_In _ _ Hnode) as Hin.
  rewrite Forall_forall in Hbound, Hdict.
  pose proof (Hbound _ Hin) as Hb. simpl in Hb.
  destruct (Hdict _ Hin) as [alias [ctx [e [u [Halias Hu]]]]].
  simpl in Halias, Hu.
  destruct idx as [|b]; [lia|].
  replace (S b - 1 - 0) with b in Halias by lia.
  change (splice sch body) with (splice_gen sch body).
  destruct (splice_gen_positions sch body Hinc) as [Hbody Hnodes].
  { apply Forall_forall. intros p Hp. specialize (Hbound p Hp). lia. }
  exists alias, ctx, e, u, b. repeat split; auto.
  rewrite <- (count_le_before sch j (S b, node) Hinc Hnode b eq_refl) at 1.
  now apply Hbody.
Qed.

Lemma dict_alias_follows_alias_witness :
  exists r alias ctx e u b,
    rewrite_tree [] alias_module = Ok r
    /\ 5 = S b
    /\ nth_error (final_tree r) (b + 0) = Some (Assign [Name alias ctx] e)
    /\ nth_error (final_tree r) (S b + 0)
       = Some (Assign [Name (alias ++ "Dict") Store] u).
Proof.
  destruct (rewrite_tree [] alias_module) as [r|err] eqn:Hrun;
    [|discriminate Hrun].
  assert (Hnode : nth_error (additional_nodes (rw_state r)) 0
                  = Some (5, Assign [Name "AOrBDict" Store]
                               (BinOp (Name "ADict" Load) BitOr
                                      (Name "BDict" Load)))).
  { pose proof Hrun as Hc. vm_compute in Hc. inversion Hc. reflexivity. }
  destruct (dict_alias_follows_alias [] alias_module r 0 5 _ Hrun Hnode)
    as [alias [ctx [e [u [b [Hb [Hn [_ [Ha Hd]]]]]]]]].
  exists r, alias, ctx, e, u, b. rewrite <- Hn. auto.
Defined.

(** ** Dict mirrors follow their structured types *)

Lemma in_set_In (x : string) (s : list string) :
  in_set x s = true <-> In x s.
Proof.
  unfold in_set. rewrite existsb_exists. split.
  - intros [y [Hy E]]. apply String.eqb_eq in E. now subst.
  - intros H. exists x. split; auto. apply String.eqb_refl.
Qed.

Lemma process_class_declared name bases kws body decos st n' st' :
  process_class name bases kws body decos st = Ok (n', st') ->
  (forall x, In x (declared_structs st') ->
     In x (declared_structs st)
     \/ exists b k bd d, n' = ClassDef x b k bd d)
  /\ (forall cname b k bd d,
        n' = ClassDef cname b k bd d -> endswith cname "Dict" = true ->
        In (removesuffix cname "Dict") (declared_structs st)).
Proof.
  unfold process_class.
  destruct (Py.get name _DATA_MODEL_NAME_OVERRIDES) as [o|]; cbv zeta.
  - destruct (endswith o "Dict") eqn:Hd; cbn [negb].
    + destruct (in_set (removesuffix o "Dict") (declared_structs st)) eqn:Hin;
        cbn [negb]; [|discriminate].
      apply in_set_In in Hin.
      destruct body as [|[| | |[|[]| | | | |]| |] rest];
        intros H; inversion H; subst; clear H;
        (split; [cbn; auto | intros ? ? ? ? ? Hc _; inversion Hc; subst; auto]).
    + intros H; inversion H; subst; clear H. split.
      * cbn. intros x Hx. apply in_app_or in Hx.
        destruct Hx as [Hx|[<-|[]]]; eauto 6.
      * intros ? ? ? ? ? Hc Hd'. inversion Hc; subst. congruence.
  - destruct (endswith name "Dict") eqn:Hd; cbn [negb].
    + destruct (in_set (removesuffix name "Dict") (declared_structs st))
        eqn:Hin; cbn [negb]; [|discriminate].
      apply in_set_In in Hin.
      intros H; inversion H; subst; clear H.
      split; [cbn; auto | intros ? ? ? ? ? Hc _; inversion Hc; subst; auto].
    + intros H; inversion H; subst; clear H. split.
      * cbn. intros x Hx. apply in_app_or in Hx.
        destruct Hx as [Hx|[<-|[]]]; eauto 6.
      * intros ? ? ? ? ? Hc Hd'. inversion Hc; subst. congruence.
Qed.

Lemma process_alias_declared builtin_names body_idx alias e st st' :
  process_alias builtin_names body_idx alias e st = Ok st' ->
  declared_structs st' = declared_structs st.
Proof.
  unfold process_alias. destruct (simple_alias e) as [name|].
  - destruct (in_set name builtin_names); [intros H; inversion H; auto|].
    destruct (Py.get name (dict_token_replacements st));
      intros H; inversion H; auto.
  - destruct e; try (intros H; inversion H; subst; auto; fail).
    destruct op; try (intros H; inversion H; subst; auto; fail).
    intros H. bind_inv H.
    destruct (needs_dict_alias a); [|inversion H; subst; auto].
    bind_inv H. inversion H; subst; clear H. reflexivity.
Qed.

Lemma top_level_step_declared builtin_names body_idx n st n' st' :
  top_level_step builtin_names body_idx n st = Ok (n', st') ->
  (forall x, In x (declared_structs st') ->
     In x (declared_structs st)
     \/ exists b k bd d, n' = ClassDef x b k bd d)
  /\ (forall cname b k bd d,
        n' = ClassDef cname b k bd d -> endswith cname "Dict" = true ->
        In (removesuffix cname "Dict") (declared_structs st)).
Proof.
  unfold top_level_step. destruct n;
    try (intros H; inversion H; subst; split; [auto | discriminate]).
  - apply process_class_declared.
  - destruct targets as [|[] [|]];
      try (intros H; inversion H; subst; split; [auto | discriminate]).
    intros H. bind_inv H. inversion H; subst; clear H.
    rewrite (process_alias_declared _ _ _ _ _ _ E).
    split; [auto | discriminate].
Qed.

Lemma top_level_scan_declared builtin_names :
  forall body body_idx st body' st',
    top_level_scan builtin_names body_idx body st = Ok (body', st') ->
    forall i cname b k bd d,
      nth_error body' i = Some (ClassDef cname b k bd d) ->
      endswith cname "Dict" = true ->
      In (removesuffix cname "Dict") (declared_structs st)
      \/ exists j b' k' bd' d',
           j < i
           /\ nth_error body' j
              = Some (ClassDef (removesuffix cname "Dict") b' k' bd' d').
Proof.
  induction body as [|n body IH]; intros body_idx st body' st' H; simpl in H.
  - inversion H; subst. intros i ? ? ? ? ? Hi. destruct i; discriminate.
  - bind_inv H. destruct a as [n1 st1]. bind_inv H. destruct a as [rest' st2].
    inversion H; subst; clear H.
    destruct (top_level_step_declared _ _ _ _ _ _ E) as [Hdecl Hmirror].
    intros i cname b k bd d Hi Hd. destruct i as [|i]; simpl in Hi.
    + inversion Hi; subst n1. left. eapply Hmirror; eauto.
    + destruct (IH _ _ _ _ E0 _ _ _ _ _ _ Hi Hd)
        as [Hin | [j [b' [k' [bd' [d' [Hj Hn]]]]]]].
      * destruct (Hdecl _ Hin) as [Hin0 | [b' [k' [bd' [d' Hn1]]]]]; auto.
        right. exists 0, b', k', bd', d'. split; [lia|]. simpl. now subst.
      * right. exists (S j), b', k', bd', d'. split; [lia | exact Hn].
Qed.

(** X11: a module is rewritten only when every dict mirror follows its
    structured type: in the rewritten body, a class whose name ends with
    ["Dict"] has, at a smaller index, the class with that name less the
    suffix.  (A mirror that comes first stops the scan with an assertion
    error.) *)
Theorem mirror_follows_struct
    (builtin_names : list string) (model_ast : list stmt) (r : rewritten)
    (i : nat) (cname : string) (bases decos : list expr)
    (kws : list (option string * expr)) (body : list stmt)
    (Hrun : rewrite_tree builtin_names model_ast = Ok r)
    (Hclass : nth_error (rw_body r) i
              = Some (ClassDef cname bases kws body decos))
    (Hdict : endswith cname "Dict" = true) :
  exists j bases' kws' body' decos',
    j < i
    /\ nth_error (rw_body r) j
       = Some (ClassDef (removesuffix cname "Dict") bases' kws' body' decos').
Proof.
  unfold rewrite_tree in Hrun.
  bind_inv Hrun. destruct a as [rbody st]. inversion Hrun; subst r; clear Hrun.
  cbn [rw_body] in *.
  destruct (top_level_scan_declared _ _ _ _ _ _ E _ _ _ _ _ _ Hclass Hdict)
    as [[] | H]; exact H.
Qed.

Lemma mirror_follows_struct_witness :
  exists r j bases' kws' body' decos',
    rewrite_tree [] alias_module = Ok r
    /\ j < 3
    /\ nth_error (rw_body r) j = Some (ClassDef "B" bases' kws' body' decos').
Proof.
  destruct (rewrite_tree [] alias_module) as [r|err] eqn:Hrun;
    [|discriminate Hrun].
  assert (Hclass : nth_error (rw_body r) 3
                   = Some (ClassDef "BDict" [Name "TypedDict" Load] []
                             [docstring "Dict of B."] [])).
  { pose proof Hrun as Hc. vm_compute in Hc. inversion Hc. reflexivity. }
  destruct (mirror_follows_struct [] alias_module r 3 "BDict" _ _ _ _
              Hrun Hclass eq_refl)
    as [j [b [k [bd [d [Hj Hn]]]]]].
  exists r, j, b, k, bd, d. auto.
Defined.

(** A mirror before its structured type stops the scan. *)
Example mirror_before_struct :
  rewrite_tree []
    [ClassDef "ADict" [Name "TypedDict" Load] [] [docstring "Dict of A."] [];
     ClassDef "A" [Name "Struct" Load] [] [docstring "A."] []]
  = Raise AssertionError.
Proof. reflexivity. Qed.

(** ** The token pass on a well formed token stream *)

Lemma rewrite_tokens_total (replacements : dict string) :
  forall toks fl,
    class_followed_by_name toks = true ->
    (checking_class_header fl = true ->
     match toks with
     | t :: _ => token_type_eqb (fst t) NAME = true
     | [] => True
     end) ->
    exists out,
      rewrite_tokens replacements fl toks = Ok out
      /\ List.length out = List.length toks.
Proof.
  induction toks as [|[ty s] rest IH]; intros fl Hwf Hhead.
  - exists []. split; reflexivity.
  - cbn [class_followed_by_name] in Hwf.
    apply andb_true_iff in Hwf. destruct Hwf as [Hnext Hwf].
    assert (Hstep : exists fl' t',
               token_step replacements fl (ty, s) = Ok (fl', t')
               /\ (checking_class_header fl' = true ->
                   is_class_keyword (ty, s) = true)).
    { unfold token_step. destruct (checking_class_header fl) eqn:Hc.
      - pose proof (Hhead eq_refl) as Hname. cbn [fst] in Hname.
        rewrite Hname. cbn [negb].
        eexists _, _. split; [reflexivity|]. cbn. discriminate.
      - destruct (processing_typed_dict fl) eqn:Hp.
        + destruct (token_type_eqb ty DEDENT).
          * eexists _, _. split; [reflexivity|]. cbn. discriminate.
          * destruct (token_type_eqb ty NAME);
              eexists _, _; (split; [reflexivity|]); congruence.
        + unfold is_class_keyword. cbn [fst snd].
          destruct (token_type_eqb ty NAME && String.eqb s "class");
            eexists _, _; (split; [reflexivity|]); [auto | congruence]. }
    destruct Hstep as [fl' [t' [Hstep Hfl']]].
    destruct (IH fl' Hwf) as [out [Hout Hlen]].
    { intros Hc. specialize (Hfl' Hc). destruct rest as [|t2 rest']; [exact I|].
      rewrite Hfl' in Hnext. exact Hnext. }
    exists (t' :: out). cbn [rewrite_tokens Py.bind]. rewrite Hstep.
    cbn [Py.bind]. rewrite Hout. split; [reflexivity|].
    cbn [List.length]. now rewrite Hlen.
Qed.

Lemma rewrite_tokens_error (replacements : dict string) :
  forall toks fl e,
    rewrite_tokens replacements fl toks = Raise e -> e = AssertionError.
Proof.
  induction toks as [|[ty s] rest IH]; intros fl e H; [discriminate|].
  cbn [rewrite_tokens] in H.
  destruct (token_step replacements fl (ty, s)) as [[fl' t']|e'] eqn:Hstep.
  - cbn [Py.bind] in H.
    destruct (rewrite_tokens replacements fl' rest) as [out|e''] eqn:Hrest.
    + discriminate.
    + cbn [Py.bind] in H. inversion H; subst. eapply IH; eauto.
  - cbn [Py.bind] in H. inversion H; subst. unfold token_step in Hstep.
    destruct (checking_class_header fl).
    + destruct (negb (token_type_eqb ty NAME)); congruence.
    + destruct (processing_typed_dict fl).
      * destruct (token_type_eqb ty DEDENT); [discriminate|].
        destruct (token_type_eqb ty NAME); discriminate.
      * destruct (token_type_eqb ty NAME && String.eqb s "class"); discriminate.
Qed.

(** X12: on a token stream in which every [NAME] token ["class"] that has a
    successor is followed by a [NAME] token, as the tokens of a Python
    source text are, the token pass returns, with as many tokens as it was
    given.  On any token stream, the only exception it raises is the
    assertion error of the class header check. *)
Theorem token_pass_succeeds
    (replacements : dict string) (model_tokens : list token_info)
    (Hwf : class_followed_by_name model_tokens = true) :
  (exists updated_tokens,
      rewrite_tokens replacements looking model_tokens = Ok updated_tokens
      /\ List.length updated_tokens = List.length model_tokens)
  /\ (forall toks e,
        rewrite_tokens replacements looking toks = Raise e ->
        e = AssertionError).
Proof.
  split.
  - apply rewrite_tokens_total; [exact Hwf | discriminate].
  - intros toks e. apply rewrite_tokens_error.
Qed.

Lemma token_pass_succeeds_witness :
  exists updated_tokens,
    rewrite_tokens [("A", "ADict")] looking subclass_tokens = Ok updated_tokens
    /\ List.length updated_tokens = List.length subclass_tokens.
Proof.
  exact (proj1 (token_pass_succeeds [("A", "ADict")] subclass_tokens eq_refl)).
Defined.

(** ** The export list in a source text without class definitions *)

Lemma class_line_index_none :
  forall lines i last,
    Forall (fun l => startswith l "class" = false) lines ->
    class_line_index i last lines
    = match lines with
      | [] => last
      | _ :: rest => Some (i + List.length rest)
      end.
Proof.
  induction lines as [|line rest IH]; intros i last Hno; [reflexivity|].
  inversion Hno as [|? ? Hline Hrest]; subst.
  cbn [class_line_index]. rewrite Hline. rewrite (IH _ _ Hrest).
  destruct rest as [|l2 rest']; cbn [List.length]; f_equal; lia.
Qed.

(** X13: when no line of the source text starts with ["class"], the loop
    variable keeps the index of the last line, and the lines of the export
    list are inserted before the last line of the text, not after the
    imports; on an empty text the loop variable is unbound and the
    insertion raises a name error.  Conversely, the insertion fails on the
    empty text only. *)
Theorem export_list_without_class
    (exported : list string) (updated_source_lines : list string)
    (Hno : Forall (fun l => startswith l "class" = false)
                  updated_source_lines) :
  (updated_source_lines = [] ->
   insert_all exported updated_source_lines = Raise NameError)
  /\ (forall init last_line,
        updated_source_lines = init ++ [last_line] ->
        insert_all exported updated_source_lines
        = Ok (init ++ lines_to_insert exported ++ [last_line]))
  /\ (forall lines e, insert_all exported lines = Raise e -> lines = []).
Proof.
  split; [|split].
  - intros ->. reflexivity.
  - intros init last_line ->. unfold insert_all.
    rewrite (class_line_index_none _ _ _ Hno).
    destruct (init ++ [last_line]) as [|l0 rest] eqn:Hl.
    { destruct init; discriminate. }
    assert (Hlen : 0 + List.length rest = List.length init).
    { apply (f_equal (@List.length _)) in Hl. rewrite length_app in Hl.
      cbn [List.length] in Hl. lia. }
    rewrite Hlen, <- Hl. now rewrite insert_list_app.
  - intros lines e. unfold insert_all.
    destruct lines as [|l0 rest]; [reflexivity|].
    cbn [class_line_index]. destruct (startswith l0 "class"); [discriminate|].
    destruct (class_line_index 1 (Some 0) rest) eqn:Hidx; [discriminate|].
    exfalso. clear - Hidx. revert Hidx. generalize 1, 0.
    induction rest as [|l1 rest IH]; intros i j H; cbn [class_line_index] in H.
    + discriminate.
    + destruct (startswith l1 "class"); [discriminate|]. eapply IH; eauto.
Qed.

Lemma export_list_without_class_witness :
  insert_all ["B"; "A"] ["import x"; "y = 1"]
  = Ok (["import x"] ++ lines_to_insert ["B"; "A"] ++ ["y = 1"]).
Proof.
  refine (proj1 (proj2 (export_list_without_class ["B"; "A"]
                          ["import x"; "y = 1"] _)) ["import x"] "y = 1" eq_refl).
  repeat constructor.
Defined.

(** ** Renaming twice *)

Lemma override_idem (s : string) : override (override s) = override s.
Proof. apply override_not_key, is_key_override. Qed.

Lemma map_idem {A} (f : A -> A) (l : list A) :
  Forall (fun x => f (f x) = f x) l -> map f (map f l) = map f l.
Proof.
  induction 1 as [|x l Hx Hl IH]; cbn [map]; [reflexivity|].
  now rewrite Hx, IH.
Qed.

Lemma rename_keywords_idem (kws : list (option string * expr)) :
  Forall (fun k => rename_expr (rename_expr (snd k)) = rename_expr (snd k))
         kws ->
  map (fun k => (fst k, rename_expr (snd k)))
      (map (fun k => (fst k, rename_expr (snd k))) kws)
  = map (fun k : option string * expr => (fst k, rename_expr (snd k))) kws.
Proof.
  induction 1 as [|k kws Hk Hkws IH]; cbn [map fst snd]; [reflexivity|].
  now rewrite Hk, IH.
Qed.

Lemma rename_expr_idem (e : expr) :
  rename_expr (rename_expr e) = rename_expr e.
Proof.
  induction e using expr_nested_ind; cbn [rename_expr].
  - now rewrite override_idem.
  - destruct c; cbn [override_constant]; try reflexivity.
    now rewrite override_idem.
  - now rewrite IHe1, IHe2.
  - now rewrite map_idem.
  - now rewrite IHe1, IHe2.
  - now rewrite IHe.
  - now rewrite IHe, map_idem, rename_keywords_idem.
Qed.

Lemma rename_stmt_idem (s : stmt) :
  rename_stmt (rename_stmt s) = rename_stmt s.
Proof.
  assert (Hl : forall l, map rename_expr (map rename_expr l)
                         = map rename_expr l).
  { intros l. apply map_idem, Forall_forall. intros. apply rename_expr_idem. }
  induction s using stmt_nested_ind; cbn [rename_stmt].
  - rewrite !Hl. rewrite (map_idem rename_stmt) by assumption. f_equal.
    apply rename_keywords_idem, Forall_forall. intros. apply rename_expr_idem.
  - now rewrite Hl, rename_expr_idem.
  - rewrite !rename_expr_idem. f_equal.
    destruct value; cbn [option_map]; [|reflexivity].
    now rewrite rename_expr_idem.
  - now rewrite rename_expr_idem.
  - reflexivity.
  - reflexivity.
Qed.

(** X14: the walk that applies the Name Override Table is idempotent: on
    a tree it has already renamed it changes nothing, because no
    replacement name of the table is itself a key of the table. *)
Theorem rename_pass_idempotent (body : list stmt) :
  rename_module (rename_module body) = rename_module body.
Proof.
  unfold rename_module. apply map_idem, Forall_forall.
  intros s _. apply rename_stmt_idem.
Qed.

(** ** The mapping of a discriminated union *)

Lemma map_set_values (key : json) (spec_ref : string)
    (m : list (json * string)) (target : string) :
  In target (map snd (map_set key spec_ref m)) ->
  target = spec_ref \/ In target (map snd m).
Proof.
  induction m as [|[k v] m IH]; cbn [map_set map snd In].
  - intros [H|[]]. now left.
  - destruct (py_eq k key); cbn [map snd In].
    + intros [H|H]; auto.
    + intros [H|H]; auto. destruct (IH H); auto.
Qed.

Lemma string_keys_values (m : list (json * string)) :
  forall mapping,
    string_keys m = Some mapping -> map snd mapping = map snd m.
Proof.
  induction m as [|[k v] m IH]; intros mapping H; cbn [string_keys] in H.
  - now inversion H.
  - destruct k; try discriminate.
    destruct (string_keys m) as [rest|]; [|discriminate].
    inversion H; subst. cbn [map snd]. now rewrite (IH rest).
Qed.

(** A target of the mapping under construction is the reference of a
    member or points at a definition extracted so far. *)
Lemma variant_step_targets name discriminator tag_title spec_path idx r st st'
    (members : list resolved) :
  variant_step name discriminator tag_title spec_path idx r st = Ok st' ->
  In r members ->
  (forall target, In target (map snd (vs_map st)) ->
     (exists p, In (ByRef target p) members)
     \/ (exists n, target = ("#/definitions/" ++ n)%string
                   /\ Py.mem n (vs_new_defs st) = true)) ->
  forall target, In target (map snd (vs_map st')) ->
    (exists p, In (ByRef target p) members)
    \/ (exists n, target = ("#/definitions/" ++ n)%string
                  /\ Py.mem n (vs_new_defs st') = true).
Proof.
  intros H Hin Hinv. unfold variant_step in H. destruct r as [spec_ref p|].
  - repeat bind_inv H. inversion H; subst; clear H. cbn [vs_new_defs vs_map].
    intros target Ht. destruct (map_set_values _ _ _ _ Ht) as [-> | Ht'].
    + left. eauto.
    + exact (Hinv _ Ht').
  - repeat bind_inv H. inversion H; subst; clear H. cbn [vs_new_defs vs_map].
    intros target Ht. destruct (map_set_values _ _ _ _ Ht) as [-> | Ht'].
    + right. eexists. split; [reflexivity|].
      unfold Py.mem. now rewrite get_set_eq.
    + destruct (Hinv _ Ht') as [Hl | [n [Hn Hmem]]]; [now left|].
      right. exists n. split; [exact Hn|]. now apply mem_set_mono.
Qed.

Lemma variant_loop_targets name discriminator tag_title spec_path
    (members : list resolved) :
  forall rs idx st st',
    variant_loop name discriminator tag_title spec_path idx rs st = Ok st' ->
    incl rs members ->
    (forall target, In target (map snd (vs_map st)) ->
       (exists p, In (ByRef target p) members)
       \/ (exists n, target = ("#/definitions/" ++ n)%string
                     /\ Py.mem n (vs_new_defs st) = true)) ->
    forall target, In target (map snd (vs_map st')) ->
      (exists p, In (ByRef target p) members)
      \/ (exists n, target = ("#/definitions/" ++ n)%string
                    /\ Py.mem n (vs_new_defs st') = true).
Proof.
  induction rs as [|r rs IH]; intros idx st st' H Hincl Hinv;
    cbn [variant_loop] in H.
  - now inversion H; subst.
  - bind_inv H. eapply IH; [exact H | |].
    + intros x Hx. apply Hincl. now right.
    + eapply variant_step_targets; eauto. apply Hincl. now left.
Qed.

(** X15: when [_extract_union_variants] infers a union as discriminated on
    a tag field and returns, it returns a dictionary of new definitions,
    the union has a ["discriminator"] object whose ["propertyName"] is the
    tag field, and no target of its ["mapping"] dangles: each is the
    reference of a member of the union or ["#/definitions/"] followed by
    the name of one of the new definitions. *)
Theorem discriminator_mapping_targets
    (name : string) (spec_path : path) (schema schema' : json) (spec : json)
    (union_member_specs : list json) (members : list (resolved * json))
    (discriminator : string) (new_defs : option _SchemaDef)
    (Hspec : get_path spec_path schema = Ok spec)
    (Hany : anyOf_list spec = Ok union_member_specs)
    (Hres : resolve_members schema union_member_specs = Ok members)
    (Hdisc : find_discriminator _POTENTIAL_TAG_FIELDS (map snd members)
             = Ok (Some discriminator))
    (Hrun : _extract_union_variants name spec_path schema
            = Ok (new_defs, schema')) :
  exists defs mapping,
    new_defs = Some defs
    /\ get_path (spec_path ++ ["discriminator"]) schema'
       = Ok (discriminator_spec mapping discriminator)
    /\ targets_defined (map fst members) defs mapping.
Proof.
  unfold _extract_union_variants in Hrun.
  rewrite Hspec in Hrun. cbn [Py.bind] in Hrun.
  rewrite Hany in Hrun. cbn [Py.bind] in Hrun.
  rewrite Hres in Hrun. cbn [Py.bind] in Hrun.
  rewrite Hdisc in Hrun. cbn [Py.bind] in Hrun. cbv zeta in Hrun.
  bind_inv Hrun. rename a into st. bind_inv Hrun. rename a into mapping.
  bind_inv Hrun. inversion Hrun; subst; clear Hrun.
  destruct (string_keys (vs_map st)) as [m|] eqn:Hkeys; [|discriminate E0].
  inversion E0; subst m; clear E0.
  exists (vs_new_defs st), mapping. split; [reflexivity|]. split.
  - destruct (update_path_get _ _ _ _ E1) as [v [v' [Hv [Hf Hv']]]].
    rewrite get_path_app, Hv'. cbn [Py.bind].
    destruct v as [| | | | |d]; try discriminate Hf.
    cbn [on_dict Py.bind] in Hf. inversion Hf; subst v'; clear Hf.
    cbn [get_path subscript]. unfold Py.item. rewrite get_set_eq.
    reflexivity.
  - intros tag target Hget. apply get_in_values in Hget.
    rewrite (string_keys_values _ _ Hkeys) in Hget.
    eapply variant_loop_targets; [exact E | apply incl_refl | | exact Hget].
    intros t [].
Qed.

Lemma discriminator_mapping_targets_witness :
  exists new_defs schema' defs mapping,
    _extract_union_variants "Shape" ["definitions"; "Shape"] shape_document
    = Ok (new_defs, schema')
    /\ new_defs = Some defs
    /\ get_path (["definitions"; "Shape"] ++ ["discriminator"]) schema'
       = Ok (discriminator_spec mapping "type")
    /\ targets_defined
         [ByRef "#/definitions/Circle" ["definitions"; "Circle"]; Inline]
         defs mapping.
Proof.
  destruct (_extract_union_variants "Shape" ["definitions"; "Shape"]
              shape_document) as [[new_defs schema']|e] eqn:Hrun;
    [|discriminate Hrun].
  destruct (discriminator_mapping_targets "Shape" ["definitions"; "Shape"]
              shape_document schema' _ _ _ "type" new_defs
              eq_refl eq_refl eq_refl eq_refl Hrun)
    as [defs [mapping [Hd [Hg Ht]]]].
  exists new_defs, schema', defs, mapping. auto.
Defined.

(** ** What the scan of the top level leaves alone *)

Lemma process_class_scanned name bases kws body decos st n' st' :
  process_class name bases kws body decos st = Ok (n', st') ->
  scanned (ClassDef name bases kws body decos) n'.
Proof.
  unfold process_class, scanned, override.
  destruct (Py.get name _DATA_MODEL_NAME_OVERRIDES) as [o|]; cbv zeta.
  - destruct (negb (endswith o "Dict")).
    + intros H; inversion H; subst. eauto.
    + destruct (negb (in_set (removesuffix o "Dict") (declared_structs st)));
        [discriminate|].
      destruct body as [|[| | |[|[]| | | | |]| |] rest];
        intros H; inversion H; subst; clear H.
      eexists. split; [reflexivity|]. right. eauto.
  - destruct (negb (endswith name "Dict")).
    + intros H; inversion H; subst. eauto.
    + destruct (negb (in_set (removesuffix name "Dict") (declared_structs st)));
        [discriminate|].
      intros H; inversion H; subst. eauto.
Qed.

Lemma top_level_step_scanned builtin_names body_idx n st n' st' :
  top_level_step builtin_names body_idx n st = Ok (n', st') -> scanned n n'.
Proof.
  unfold top_level_step. destruct n;
    try (intros H; inversion H; subst; reflexivity).
  - apply process_class_scanned.
  - destruct targets as [|[] [|]];
      try (intros H; inversion H; subst; reflexivity).
    intros H. bind_inv H. inversion H; subst. reflexivity.
Qed.

Lemma top_level_scan_scanned builtin_names :
  forall body body_idx st body' st',
    top_level_scan builtin_names body_idx body st = Ok (body', st') ->
    Forall2 scanned body body'.
Proof.
  induction body as [|n body IH]; intros body_idx st body' st' H;
    cbn [top_level_scan] in H.
  - inversion H; subst. constructor.
  - bind_inv H. destruct a as [n1 st1]. bind_inv H. destruct a as [rest' st2].
    inversion H; subst; clear H. constructor.
    + eapply top_level_step_scanned; eauto.
    + eapply IH; eauto.
Qed.

Lemma length_splice_rev (l : list (nat * stmt)) :
  forall body,
    List.length (fold_left (fun b p => insert_at (fst p) (snd p) b) l body)
    = List.length body + List.length l.
Proof.
  induction l as [|p l IH]; intros body; cbn [fold_left List.length]; [lia|].
  rewrite IH. unfold insert_at. rewrite length_app. cbn [List.length].
  rewrite <- (firstn_skipn (fst p) body) at 3. rewrite length_app. lia.
Qed.

(** X16: the tree level of the post-processing drops no statement and
    rewrites class definitions only.  Each top level statement of the
    renamed tree that is not a class definition is in the scanned body as
    it was; a class definition keeps its bases, keywords and decorators
    and, but for a rewritten docstring, its body.  The final tree has one
    more statement for each scheduled dict alias. *)
Theorem scan_keeps_statements
    (builtin_names : list string) (model_ast : list stmt) (r : rewritten)
    (Hrun : rewrite_tree builtin_names model_ast = Ok r) :
  Forall2 scanned (rename_module model_ast) (rw_body r)
  /\ List.length (final_tree r)
     = List.length model_ast + List.length (additional_nodes (rw_state r)).
Proof.
  unfold rewrite_tree in Hrun.
  bind_inv Hrun. destruct a as [body st]. inversion Hrun; subst r; clear Hrun.
  pose proof (top_level_scan_scanned _ _ _ _ _ _ E) as Hall.
  split; [exact Hall|].
  unfold final_tree, splice. cbn [rw_body rw_state].
  rewrite length_splice_rev, length_rev.
  rewrite <- (Forall2_length Hall). unfold rename_module.
  now rewrite length_map.
Qed.

Lemma scan_keeps_statements_witness :
  exists r,
    rewrite_tree [] alias_module = Ok r
    /\ Forall2 scanned (rename_module alias_module) (rw_body r)
    /\ List.length (final_tree r)
       = List.length alias_module
         + List.length (additional_nodes (rw_state r)).
Proof.
  destruct (rewrite_tree [] alias_module) as [r|err] eqn:Hrun;
    [|discriminate Hrun].
  exists r. split; [reflexivity|].
  exact (scan_keeps_statements [] alias_module r Hrun).
Defined.
